(** * Dancing Links exact-cover engine of [sudoku.py]

    A shallow embedding of the classes [Node], [DLX] and [TableModel] of
    [src/sudoku.py].  Python objects live in a store addressed by
    references; every attribute assignment of the source is one store
    update, performed in the order the source performs it.  Loops of the
    source that walk a ring are given a fuel argument; running out of fuel
    is a result of its own ([OutOfFuel]) and is never confused with a
    Python result. *)

From Stdlib Require Import ZArith List Bool String Lia.
From stdpp Require Import base decidable option list gmap fin_maps strings.

Import ListNotations.

(** ** Python values used as row labels *)

Inductive value : Type :=
| VNone
| VInt (z : Z)
| VStr (s : string)
| VPair (a b : value).

#[global] Instance value_eq_dec : EqDecision value.
Proof. solve_decision. Defined.

(** Python truth value of a label: [None], [0] and the empty string are
    falsy, a (non-empty) tuple is truthy. *)
Definition truthy (v : value) : bool :=
  match v with
  | VNone => false
  | VInt z => negb (Z.eqb z 0)
  | VStr s => negb (String.eqb s EmptyString)
  | VPair _ _ => true
  end.

(** ** Exceptions and results *)

Inductive exn : Type :=
| AttributeError (attr : string)
| IndexError
| TypeError
| InconsistentInputs (msg : string).

Inductive res (A : Type) : Type :=
| Ok (a : A)
| Raise (e : exn)
| OutOfFuel.
Arguments Ok {A} a.
Arguments Raise {A} e.
Arguments OutOfFuel {A}.

#[global] Instance res_ret : MRet res := fun A a => Ok a.
#[global] Instance res_bind : MBind res := fun A B k m =>
  match m with
  | Ok a => k a
  | Raise e => Raise e
  | OutOfFuel => OutOfFuel
  end.

(** ** class Node *)

Definition ref := positive.

Module Node.

(** The attributes of a [Node] object.  [size] exists on column nodes
    only and [name] only on nodes created with a truthy name, the other
    attributes exist on every node. *)
Record t : Type := mk {
  up : ref; down : ref; right : ref; left : ref;
  column : ref; row : ref;
  size : option Z;
  name : option value
}.

Definition set_up (v : ref) (n : t) : t :=
  mk v (down n) (right n) (left n) (column n) (row n) (size n) (name n).
Definition set_down (v : ref) (n : t) : t :=
  mk (up n) v (right n) (left n) (column n) (row n) (size n) (name n).
Definition set_right (v : ref) (n : t) : t :=
  mk (up n) (down n) v (left n) (column n) (row n) (size n) (name n).
Definition set_left (v : ref) (n : t) : t :=
  mk (up n) (down n) (right n) v (column n) (row n) (size n) (name n).
Definition set_column (v : ref) (n : t) : t :=
  mk (up n) (down n) (right n) (left n) v (row n) (size n) (name n).
Definition set_row (v : ref) (n : t) : t :=
  mk (up n) (down n) (right n) (left n) (column n) v (size n) (name n).
Definition set_size (v : Z) (n : t) : t :=
  mk (up n) (down n) (right n) (left n) (column n) (row n) (Some v) (name n).

(** [Node.__init__(self, name)]: the six links point to the node itself;
    the [name] attribute is set only [if name:]. *)
Definition init (self : ref) (nm : value) : t :=
  mk self self self self self self None
     (if truthy nm then Some nm else None).

#[global] Instance eq_dec : EqDecision t.
Proof. solve_decision. Defined.

#[global] Instance inhabited : Inhabited t :=
  populate (mk 1%positive 1%positive 1%positive 1%positive 1%positive 1%positive None None).

End Node.

(** ** The object store *)

Abbreviation heap := (gmap positive Node.t).

(** [p.f = v] for a link attribute [f]. *)
Definition assign (f : ref -> Node.t -> Node.t) (p v : ref) (h : heap) : heap :=
  <[p := f v (h !!! p)]> h.

(** [p.f] *)
Definition get {A} (f : Node.t -> A) (h : heap) (p : ref) : A := f (h !!! p).

(** ** The index matrix (a two-dimensional numpy array read by truth value) *)

Record ndarray : Type := {
  shape0 : N;
  shape1 : N;
  buffer : gmap N bool   (* row-major, absent cells are zero *)
}.

Definition item (m : ndarray) (i j : N) : bool :=
  default false (buffer m !! (i * shape1 m + j)%N).

Definition zeros (r c : N) : ndarray :=
  {| shape0 := r; shape1 := c; buffer := ∅ |}.

(** [m[i, j] = 1] *)
Definition setitem (i j : N) (m : ndarray) : ndarray :=
  {| shape0 := shape0 m; shape1 := shape1 m;
     buffer := <[(i * shape1 m + j)%N := true]> (buffer m) |}.

(** [range(n)] *)
Definition range (n : N) : list N := map N.of_nat (seq 0 (N.to_nat n)).

(** A matrix given by its rows, all of length [c]. *)
Definition of_rows (c : N) (rows : list (list bool)) : ndarray :=
  fold_left (fun m '(i, r) =>
     fold_left (fun m '(j, b) => if (b : bool) then setitem i j m else m)
               (combine (range (N.of_nat (length r))) r) m)
    (combine (range (N.of_nat (length rows))) rows)
    (zeros (N.of_nat (length rows)) c).

(** ** class DLX *)

Module DLX.

Record t : Type := mk {
  rows : Z;
  cols : Z;
  root : ref;
  store : heap
}.

#[global] Instance eq_dec : EqDecision t.
Proof. solve_decision. Defined.

Definition with_store (h : heap) (self : t) : t :=
  mk (rows self) (cols self) (root self) h.
Definition with_rows (z : Z) (self : t) : t :=
  mk z (cols self) (root self) (store self).
Definition with_cols (z : Z) (self : t) : t :=
  mk (rows self) z (root self) (store self).

(** *** Construction *)

(** One turn of [for j in range(self.cols)] that adds a column node;
    [new] is the reference of the freshly allocated node. *)
Definition add_column (root new : ref) (h : heap) : heap :=
  let h := <[new := Node.init new VNone]> h in
  let h := assign Node.set_left new (get Node.left h root) h in
  let h := assign Node.set_right new root h in
  let h := <[new := Node.set_size 0 (h !!! new)]> h in
  let h := assign Node.set_right (get Node.left h root) new h in
  assign Node.set_left root new h.

Fixpoint add_columns (n : nat) (root new : ref) (h : heap) : ref * heap :=
  match n with
  | O => (new, h)
  | S n' => add_columns n' root (Pos.succ new) (add_column root new h)
  end.

(** The body of [if idx_matrix[i, j]:]. *)
Definition add_value (row_node col_node new : ref) (h : heap) : res heap :=
  let h := <[new := Node.init new VNone]> h in
  let h := assign Node.set_left new (get Node.left h row_node) h in
  let h := assign Node.set_right new row_node h in
  let h := assign Node.set_up new (get Node.up h col_node) h in
  let h := assign Node.set_column new col_node h in
  let h := assign Node.set_down new col_node h in
  let h := assign Node.set_row new row_node h in
  let h := assign Node.set_right (get Node.left h row_node) new h in
  let h := assign Node.set_left row_node new h in
  match get Node.size h col_node with
  | None => Raise (AttributeError "size")
  | Some sz =>
    let h := <[col_node := Node.set_size (sz + 1) (h !!! col_node)]> h in
    let h := assign Node.set_down (get Node.up h col_node) new h in
    Ok (assign Node.set_up col_node new h)
  end.

(** [for j in range(self.cols)] of one matrix row; [js] is the list of
    the remaining values of [j]. *)
Fixpoint fill_row (m : ndarray) (i : N) (js : list N)
         (row_node col_node new : ref) (h : heap) : res (ref * heap) :=
  match js with
  | [] => Ok (new, h)
  | j :: js' =>
    let col_node := get Node.right h col_node in
    if item m i j
    then h ← add_value row_node col_node new h;
         fill_row m i js' row_node col_node (Pos.succ new) h
    else fill_row m i js' row_node col_node new h
  end.

(** The statements of [for i in range(self.rows)] before the inner loop. *)
Definition add_row_header (root new : ref) (nm : value) (h : heap) : heap :=
  let col_node := root in
  let h := <[new := Node.init new nm]> h in
  let h := assign Node.set_down new root h in
  let h := assign Node.set_up new (get Node.up h root) h in
  let h := assign Node.set_column new col_node h in
  let h := assign Node.set_down (get Node.up h root) new h in
  assign Node.set_up root new h.

Fixpoint add_rows (m : ndarray) (names : list value) (idxs js : list N)
         (root new : ref) (h : heap) : res (ref * heap) :=
  match idxs with
  | [] => Ok (new, h)
  | i :: idxs' =>
    match names !! N.to_nat i with
    | None => Raise IndexError
    | Some nm =>
      let row_node := new in
      let h := add_row_header root row_node nm h in
      '(new, h) ← fill_row m i js row_node root (Pos.succ new) h;
      add_rows m names idxs' js root new h
    end
  end.

(** [DLX.__init__(self, idx_matrix, idx_names)] *)
Definition init (idx_matrix : ndarray) (idx_names : list value) : res t :=
  let root := 1%positive in
  let h : heap := {[root := Node.init root VNone]} in
  let '(new, h) :=
    add_columns (N.to_nat (shape1 idx_matrix)) root (Pos.succ root) h in
  '(_, h) ← add_rows idx_matrix idx_names (range (shape0 idx_matrix))
                     (range (shape1 idx_matrix)) root new h;
  Ok (mk (Z.of_N (shape0 idx_matrix)) (Z.of_N (shape1 idx_matrix)) root h).

(** *** Covering and uncovering *)

(** The two assignments that take [p] out of its horizontal ring, the two
    that take it out of its vertical ring, and the ones that put it back. *)
Definition unlink_lr (p : ref) (h : heap) : heap :=
  let h := assign Node.set_right (get Node.left h p) (get Node.right h p) h in
  assign Node.set_left (get Node.right h p) (get Node.left h p) h.

Definition relink_lr (p : ref) (h : heap) : heap :=
  let h := assign Node.set_right (get Node.left h p) p h in
  assign Node.set_left (get Node.right h p) p h.

Definition unlink_ud (p : ref) (h : heap) : heap :=
  let h := assign Node.set_down (get Node.up h p) (get Node.down h p) h in
  assign Node.set_up (get Node.down h p) (get Node.up h p) h.

Definition relink_ud (p : ref) (h : heap) : heap :=
  let h := assign Node.set_down (get Node.up h p) p h in
  assign Node.set_up (get Node.down h p) p h.

(** The [while True:] loop of [cover_col]. *)
Fixpoint cover_col_loop (fuel : nat) (col_node value_node : ref) (h : heap)
  : res heap :=
  match fuel with
  | O => OutOfFuel
  | S fuel' =>
    let h := unlink_lr value_node h in
    let value_node := get Node.down h value_node in
    if decide (value_node = col_node) then Ok h
    else cover_col_loop fuel' col_node value_node h
  end.

Definition cover_col (fuel : nat) (col_node : ref) (self : t) : res t :=
  h ← cover_col_loop fuel col_node col_node (store self);
  Ok (with_cols (cols self - 1) (with_store h self)).

Fixpoint uncover_col_loop (fuel : nat) (col_node value_node : ref) (h : heap)
  : res heap :=
  match fuel with
  | O => OutOfFuel
  | S fuel' =>
    let value_node := get Node.up h value_node in
    let h := relink_lr value_node h in
    if decide (value_node = col_node) then Ok h
    else uncover_col_loop fuel' col_node value_node h
  end.

Definition uncover_col (fuel : nat) (col_node : ref) (self : t) : res t :=
  h ← uncover_col_loop fuel col_node col_node (store self);
  Ok (with_cols (cols self + 1) (with_store h self)).

Fixpoint cover_row_loop (fuel : nat) (row_node value_node : ref) (h : heap)
  : res heap :=
  match fuel with
  | O => OutOfFuel
  | S fuel' =>
    let h := unlink_ud value_node h in
    let value_node := get Node.right h value_node in
    if decide (value_node = row_node) then Ok h
    else cover_row_loop fuel' row_node value_node h
  end.

Definition cover_row (fuel : nat) (row_node : ref) (self : t) : res t :=
  h ← cover_row_loop fuel row_node row_node (store self);
  Ok (with_rows (rows self - 1) (with_store h self)).

Fixpoint uncover_row_loop (fuel : nat) (row_node value_node : ref) (h : heap)
  : res heap :=
  match fuel with
  | O => OutOfFuel
  | S fuel' =>
    let value_node := get Node.left h value_node in
    let h := relink_ud value_node h in
    if decide (value_node = row_node) then Ok h
    else uncover_row_loop fuel' row_node value_node h
  end.

Definition uncover_row (fuel : nat) (row_node : ref) (self : t) : res t :=
  h ← uncover_row_loop fuel row_node row_node (store self);
  Ok (with_rows (rows self + 1) (with_store h self)).

(** [cover_col_rows]: the loop after [self.cover_col(col_node)]. *)
Fixpoint cover_col_rows_loop (fuel : nat) (col_node value_node : ref) (self : t)
  : res t :=
  match fuel with
  | O => OutOfFuel
  | S fuel' =>
    if decide (value_node = col_node) then Ok self
    else
      self ← cover_row fuel' (get Node.row (store self) value_node) self;
      cover_col_rows_loop fuel' col_node (get Node.down (store self) value_node) self
  end.

Definition cover_col_rows (fuel : nat) (col_node : ref) (self : t) : res t :=
  self ← cover_col fuel col_node self;
  cover_col_rows_loop fuel col_node (get Node.down (store self) col_node) self.

Fixpoint uncover_col_rows_loop (fuel : nat) (col_node value_node : ref) (self : t)
  : res t :=
  match fuel with
  | O => OutOfFuel
  | S fuel' =>
    if decide (value_node = col_node) then Ok self
    else
      self ← uncover_row fuel' (get Node.row (store self) value_node) self;
      uncover_col_rows_loop fuel' col_node (get Node.up (store self) value_node) self
  end.

Definition uncover_col_rows (fuel : nat) (col_node : ref) (self : t) : res t :=
  self ← uncover_col_rows_loop fuel col_node (get Node.up (store self) col_node) self;
  uncover_col fuel col_node self.

Fixpoint cover_row_cols_rows_loop (fuel : nat) (row_node value_node : ref) (self : t)
  : res t :=
  match fuel with
  | O => OutOfFuel
  | S fuel' =>
    if decide (value_node = row_node) then Ok self
    else
      self ← cover_col_rows fuel' (get Node.column (store self) value_node) self;
      cover_row_cols_rows_loop fuel' row_node
        (get Node.right (store self) value_node) self
  end.

Definition cover_row_cols_rows (fuel : nat) (row_node : ref) (self : t) : res t :=
  self ← cover_row fuel row_node self;
  cover_row_cols_rows_loop fuel row_node (get Node.right (store self) row_node) self.

Fixpoint uncover_row_cols_rows_loop (fuel : nat) (row_node value_node : ref)
         (self : t) : res t :=
  match fuel with
  | O => OutOfFuel
  | S fuel' =>
    if decide (value_node = row_node) then Ok self
    else
      self ← uncover_col_rows fuel' (get Node.column (store self) value_node) self;
      uncover_row_cols_rows_loop fuel' row_node
        (get Node.left (store self) value_node) self
  end.

Definition uncover_row_cols_rows (fuel : nat) (row_node : ref) (self : t) : res t :=
  self ← uncover_row_cols_rows_loop fuel row_node
           (get Node.left (store self) row_node) self;
  uncover_row fuel row_node self.

(** *** Search *)

(** Reading an attribute that exists on some nodes only. *)
Definition attr_size (h : heap) (p : ref) : res Z :=
  match get Node.size h p with
  | Some z => Ok z
  | None => Raise (AttributeError "size")
  end.

Definition attr_name (h : heap) (p : ref) : res value :=
  match get Node.name h p with
  | Some v => Ok v
  | None => Raise (AttributeError "name")
  end.

(** The loop that picks the column: [while column_node != self.root]. *)
Fixpoint choose_loop (fuel : nat) (h : heap) (root column_node c_min : ref)
  : res ref :=
  match fuel with
  | O => OutOfFuel
  | S fuel' =>
    if decide (column_node = root) then Ok c_min
    else
      a ← attr_size h column_node;
      b ← attr_size h c_min;
      let c_min := if (a <? b)%Z then column_node else c_min in
      choose_loop fuel' h root (get Node.right h column_node) c_min
  end.

(** The column picked by [solve]: the statements from
    [column_node = self.root.right] to the end of the first loop. *)
Definition choose (fuel : nat) (self : t) : res ref :=
  let column_node := get Node.right (store self) (root self) in
  choose_loop fuel (store self) (root self) column_node column_node.

(** The loop [while value_node != c_min] of [solve]; [rec] is the
    recursive call [self.solve()].  It returns the final values of [sol]
    and [value_node]. *)
Fixpoint rows_loop (rec : t -> res (option (list value) * t))
         (fuel : nat) (c_min value_node : ref) (self : t)
  : res (option (list value) * ref * t) :=
  match fuel with
  | O => OutOfFuel
  | S fuel' =>
    if decide (value_node = c_min) then Ok (None, value_node, self)
    else
      self ← cover_row_cols_rows fuel' (get Node.row (store self) value_node) self;
      '(sol, self) ← rec self;
      self ← uncover_row_cols_rows fuel' (get Node.row (store self) value_node) self;
      match sol with
      | Some _ => Ok (sol, value_node, self)
      | None => rows_loop rec fuel' c_min (get Node.down (store self) value_node) self
      end
  end.

(** [DLX.solve(self)]: [Some l] is the returned list, [None] is Python's
    [None]. *)
Fixpoint solve (fuel : nat) (self : t) : res (option (list value) * t) :=
  match fuel with
  | O => OutOfFuel
  | S fuel' =>
    if decide (get Node.right (store self) (root self) = root self)
    then Ok (Some [], self)
    else
      c_min ← choose fuel' self;
      sz ← attr_size (store self) c_min;
      if (sz =? 0)%Z then Ok (None, self)
      else
        self ← cover_col_rows fuel' c_min self;
        let value_node := get Node.down (store self) c_min in
        '(sol, value_node, self) ← rows_loop (solve fuel') fuel' c_min value_node self;
        self ← uncover_col_rows fuel' c_min self;
        match sol with
        | Some sol =>
          nm ← attr_name (store self) (get Node.row (store self) value_node);
          Ok (Some (nm :: sol), self)
        | None => Ok (None, self)
        end
  end.

End DLX.

(** ** class TableModel *)

(** A 9 x 9 integer array of the GUI, read and written by index. *)
Definition grid := nat -> nat -> Z.

Definition grid_set (i j : nat) (v : Z) (g : grid) : grid :=
  fun i' j' => if decide (i' = i /\ j' = j) then v else g i' j'.

Module TableModel.

Record t : Type := mk {
  _user_data : grid;
  _solver_data : grid;
  _dlx : DLX.t
}.

(** The name [(val, (row, col))] of a matrix row. *)
Definition node_name (val row col : Z) : value :=
  VPair (VInt val) (VPair (VInt row) (VInt col)).

(** The body of the two nested loops of [__init__] that encode Sudoku
    as an index matrix. *)
Definition encode_step (acc : ndarray * list value) (ij : N * N)
  : ndarray * list value :=
  let '(sudoku_matrix, sudoku_names) := acc in
  let '(i, j) := ij in
  let row := (j / 9)%N in
  let col := (j mod 9)%N in
  let sudoku_names :=
    sudoku_names ++ [node_name (Z.of_N (i + 1)) (Z.of_N row) (Z.of_N col)] in
  let group := (3 * (row / 3) + col / 3)%N in
  let row_idx := (i * 81 + j)%N in
  let m := setitem row_idx j sudoku_matrix in
  let m := setitem row_idx (81 + i * 9 + row)%N m in
  let m := setitem row_idx (2 * 81 + i * 9 + col)%N m in
  let m := setitem row_idx (3 * 81 + i * 9 + group)%N m in
  (m, sudoku_names).

Definition sudoku_encoding : ndarray * list value :=
  fold_left encode_step
    (i ← range 9; j ← range 81; [(i, j)])
    (zeros (9 ^ 3) (9 ^ 2 * 4), []).

(** [TableModel.__init__(self, user_data, solver_data)] *)
Definition init (user_data solver_data : grid) : res t :=
  let '(sudoku_matrix, sudoku_names) := sudoku_encoding in
  dlx ← DLX.init sudoku_matrix sudoku_names;
  Ok (mk user_data solver_data dlx).

(** The loop [while node != self._dlx.root] that looks for the row named
    [name] and commits it.  The result carries the flag [found]. *)
Fixpoint scan_loop (fuel : nat) (name : value) (node : ref)
         (dlx : DLX.t) (covers : list ref) : res (bool * DLX.t * list ref) :=
  match fuel with
  | O => OutOfFuel
  | S fuel' =>
    if decide (node = DLX.root dlx) then Ok (false, dlx, covers)
    else
      nm ← DLX.attr_name (DLX.store dlx) node;
      if decide (nm = name)
      then dlx ← DLX.cover_row_cols_rows fuel' node dlx;
           Ok (true, dlx, covers ++ [node])
      else scan_loop fuel' name (get Node.down (DLX.store dlx) node) dlx covers
  end.

(** The two [for] loops over the cells at the start of the [try] block;
    [cells] lists the cells still to visit.  The flag of the result is
    [false] when [InconsistentInputs] was raised by [if not found]. *)
Fixpoint precommit (fuel : nat) (user_data : grid) (cells : list (nat * nat))
         (dlx : DLX.t) (covers : list ref) : res (bool * DLX.t * list ref) :=
  match cells with
  | [] => Ok (true, dlx, covers)
  | (i, j) :: cells' =>
    let val := user_data i j in
    if (val =? 0)%Z then precommit fuel user_data cells' dlx covers
    else
      '(found, dlx, covers) ←
        scan_loop fuel (node_name val (Z.of_nat i) (Z.of_nat j))
                  (get Node.down (DLX.store dlx) (DLX.root dlx)) dlx covers;
      if (found : bool) then precommit fuel user_data cells' dlx covers
      else Ok (false, dlx, covers)
  end.

(** [for val, (i, j) in sol: self._solver_data[i, j] = val] *)
Fixpoint write_solution (sol : list value) (g : grid) : res grid :=
  match sol with
  | [] => Ok g
  | VPair (VInt val) (VPair (VInt i) (VInt j)) :: sol' =>
    write_solution sol' (grid_set (Z.to_nat i) (Z.to_nat j) val g)
  | _ :: _ => Raise TypeError
  end.

(** The [finally] block: [while covers: node = covers.pop(); ...];
    [stack] is [covers] read from its end. *)
Fixpoint undo (fuel : nat) (stack : list ref) (dlx : DLX.t) : res DLX.t :=
  match stack with
  | [] => Ok dlx
  | node :: stack' =>
    dlx ← DLX.uncover_row_cols_rows fuel node dlx;
    undo fuel stack' dlx
  end.

Definition all_cells : list (nat * nat) := i ← seq 0 9; j ← seq 0 9; [(i, j)].

(** [TableModel.solve(self)].  The result holds the object after the
    call and the exception caught by [except InconsistentInputs as e], if
    any; the message box shows [str(e)].  An exception of another class
    leaves through [Raise]; the store it leaves behind is not modelled. *)
Definition solve (fuel : nat) (self : t) : res (t * option exn) :=
  let solver_data := _user_data self in
  '(found, dlx, covers) ← precommit fuel (_user_data self) all_cells (_dlx self) [];
  '(dlx, solver_data, caught) ←
    (if (found : bool) then
       '(sol, dlx) ← DLX.solve fuel dlx;
       match sol with
       | None => Ok (dlx, solver_data, Some (InconsistentInputs "Inconsistent!"))
       | Some sol =>
         solver_data ← write_solution sol solver_data;
         Ok (dlx, solver_data, None)
       end
     else Ok (dlx, solver_data, Some (InconsistentInputs "Inconsistent!")));
  dlx ← undo fuel (rev covers) dlx;
  Ok (mk (_user_data self) solver_data dlx, caught).

(** The [try] block of [solve] alone, up to the point where it ends or
    raises [InconsistentInputs]: the matrix, the solver data and the list
    [covers] at that point, and the exception raised, if any.  The
    [except] handler runs next, on this matrix, and the [finally] block
    only after it. *)
Definition try_block (fuel : nat) (self : t)
  : res (DLX.t * grid * list ref * option exn) :=
  let solver_data := _user_data self in
  '(found, dlx, covers) ← precommit fuel (_user_data self) all_cells (_dlx self) [];
  if (found : bool) then
    '(sol, dlx) ← DLX.solve fuel dlx;
    match sol with
    | None => Ok (dlx, solver_data, covers, Some (InconsistentInputs "Inconsistent!"))
    | Some sol =>
      solver_data ← write_solution sol solver_data;
      Ok (dlx, solver_data, covers, None)
    end
  else Ok (dlx, solver_data, covers, Some (InconsistentInputs "Inconsistent!")).

(** The [except InconsistentInputs as e] handler: the exception whose text
    the message box shows and the matrix at the moment of [msg.exec_()];
    [None] when no message box is shown. *)
Definition at_report (fuel : nat) (self : t) : res (option (exn * DLX.t)) :=
  '(dlx, _, _, raised) ← try_block fuel self;
  Ok (match raised with
      | Some e => Some (e, dlx)
      | None => None
      end).

End TableModel.

(** ** Exact covers of the index matrix *)

(** The rows of the matrix named by a list of labels: row [i] is named when
    [names[i]] occurs in the list. *)
Definition named_rows (names sol : list value) : list N :=
  List.filter (fun i => match names !! N.to_nat i with
                   | Some nm => bool_decide (nm ∈ sol)
                   | None => false
                   end)
         (range (N.of_nat (length names))).

(** How many of the selected rows have a one in column [j]. *)
Definition cover_count (m : ndarray) (sel : list N) (j : N) : nat :=
  length (List.filter (fun i => item m i j) sel).

Definition exact_cover (m : ndarray) (sel : list N) : Prop :=
  NoDup sel /\ (forall i, i ∈ sel -> (i < shape0 m)%N) /\
  forall j, (j < shape1 m)%N -> cover_count m sel j = 1.

(** ** Observations on a run *)

(** The nodes met walking along [f] from [p] until [stop] is reached. *)
Fixpoint walk (f : Node.t -> ref) (fuel : nat) (h : heap) (stop p : ref)
  : res (list ref) :=
  match fuel with
  | O => OutOfFuel
  | S fuel' =>
    let q := get f h p in
    if decide (q = stop) then Ok []
    else l ← walk f fuel' h stop q; Ok (q :: l)
  end.

(** The value nodes linked into the vertical ring of column [c]. *)
Definition live_nodes (fuel : nat) (h : heap) (c : ref) : res (list ref) :=
  walk Node.down fuel h c c.

(** The four links of a node. *)
Definition links (n : Node.t) : ref * ref * ref * ref :=
  (Node.up n, Node.down n, Node.left n, Node.right n).

(** [DLX(m, names).solve()]: the returned value and whether every node
    has the links it had before the call. *)
Definition solve_fresh (fuel : nat) (m : ndarray) (names : list value)
  : res (option (list value) * bool) :=
  s ← DLX.init m names;
  '(sol, s') ← DLX.solve fuel s;
  Ok (sol, bool_decide (links <$> DLX.store s' = links <$> DLX.store s)).

(** A board given by its filled cells. *)
Definition board (givens : list (nat * nat * Z)) : grid :=
  fun i j =>
    match List.find (fun x => Nat.eqb x.1.1 i && Nat.eqb x.1.2 j) givens with
    | Some x => x.2
    | None => 0%Z
    end.

Definition empty_grid : grid := fun _ _ => 0%Z.

(** What one call of [TableModel.solve] on a fresh model does with the
    board [user_data]: whether every given was found and committed, how
    many rows were committed, what the search returned when it was run,
    the exception caught, and whether the links of every node are those of
    the fresh matrix afterwards. *)
Record run_report : Type := {
  all_found : bool;
  committed : nat;
  search : option (option (list value));
  caught : option exn;
  restored : bool
}.

Definition solve_report (fuel : nat) (user_data : grid) : res run_report :=
  tm ← TableModel.init user_data empty_grid;
  '(found, dlx, covers) ←
    TableModel.precommit fuel user_data TableModel.all_cells (TableModel._dlx tm) [];
  srch ← (if (found : bool)
          then '(sol, _) ← DLX.solve fuel dlx; Ok (Some sol)
          else Ok None);
  '(tm', e) ← TableModel.solve fuel tm;
  Ok {| all_found := found; committed := length covers; search := srch;
        caught := e;
        restored := bool_decide (links <$> DLX.store (TableModel._dlx tm')
                                 = links <$> DLX.store (TableModel._dlx tm)) |}.

(** ** Rings *)

(** The two directions of the structure: along a row ([right]/[left]) and
    along a column ([down]/[up]). *)
Record dir : Type := Dir {
  nxt : Node.t -> ref;
  prv : Node.t -> ref;
  set_nxt : ref -> Node.t -> Node.t;
  set_prv : ref -> Node.t -> Node.t
}.

Definition Hdir : dir := Dir Node.right Node.left Node.set_right Node.set_left.
Definition Vdir : dir := Dir Node.down Node.up Node.set_down Node.set_up.

(** The other direction. *)
Definition other (d : dir) (o : dir) : Prop :=
  (d = Hdir /\ o = Vdir) \/ (d = Vdir /\ o = Hdir).

(** Taking [p] out of its ring in direction [d], and putting it back. *)
Definition unlink (d : dir) (p : ref) (h : heap) : heap :=
  let h := assign (set_nxt d) (get (prv d) h p) (get (nxt d) h p) h in
  assign (set_prv d) (get (nxt d) h p) (get (prv d) h p) h.

Definition relink (d : dir) (p : ref) (h : heap) : heap :=
  let h := assign (set_nxt d) (get (prv d) h p) p h in
  assign (set_prv d) (get (nxt d) h p) p h.

Definition allocated (h : heap) (p : ref) : Prop := is_Some (h !! p).

(** [p] is linked in direction [d]: its two neighbours exist and point back
    to it. *)
Definition linked (d : dir) (h : heap) (p : ref) : Prop :=
  allocated h (get (prv d) h p) /\ allocated h (get (nxt d) h p) /\
  get (nxt d) h (get (prv d) h p) = p /\ get (prv d) h (get (nxt d) h p) = p.

(** Walking [nxt] from [a] meets the nodes of [l] in order and then [z],
    and [prv] leads back. *)
Fixpoint chain (d : dir) (h : heap) (a : ref) (l : list ref) (z : ref) : Prop :=
  match l with
  | [] => get (nxt d) h a = z /\ get (prv d) h z = a
  | b :: l' => get (nxt d) h a = b /\ get (prv d) h b = a /\ chain d h b l' z
  end.

(** The ring of [hd] in direction [d] is [hd] followed by the nodes [l]. *)
Definition ring (d : dir) (h : heap) (hd : ref) (l : list ref) : Prop :=
  NoDup (hd :: l) /\ chain d h hd l hd.

(** Taking out the nodes of a list one after the other, and putting the
    nodes of a list back. *)
Definition unlink_all (d : dir) (l : list ref) (h : heap) : heap :=
  fold_left (fun h x => unlink d x h) l h.

Definition relink_all (d : dir) (l : list ref) (h : heap) : heap :=
  fold_left (fun h x => relink d x h) l h.

(** The four ring loops of [cover_col], [cover_row], [uncover_col] and
    [uncover_row] in one shape: walk in direction [w], and unlink (or
    relink) in direction [u]. *)
Fixpoint cover_loop (w u : dir) (fuel : nat) (stop value_node : ref) (h : heap)
  : res heap :=
  match fuel with
  | O => OutOfFuel
  | S fuel' =>
    let h := unlink u value_node h in
    let value_node := get (nxt w) h value_node in
    if decide (value_node = stop) then Ok h
    else cover_loop w u fuel' stop value_node h
  end.

Fixpoint uncover_loop (w u : dir) (fuel : nat) (stop value_node : ref) (h : heap)
  : res heap :=
  match fuel with
  | O => OutOfFuel
  | S fuel' =>
    let value_node := get (prv w) h value_node in
    let h := relink u value_node h in
    if decide (value_node = stop) then Ok h
    else uncover_loop w u fuel' stop value_node h
  end.

#[global] Instance allocated_dec h p : Decision (allocated h p).
Proof. unfold allocated. apply _. Defined.

#[global] Instance linked_dec d h p : Decision (linked d h p).
Proof. unfold linked. apply _. Defined.

#[global] Instance chain_dec d h a l z : Decision (chain d h a l z).
Proof. revert a. induction l as [|b l IH]; intros a; simpl; apply _. Defined.

#[global] Instance ring_dec d h hd l : Decision (ring d h hd l).
Proof. unfold ring. apply _. Defined.

(** The store of a freshly built matrix (the empty object when the
    constructor raises). *)
Definition fresh (m : ndarray) (names : list value) : DLX.t :=
  match DLX.init m names with
  | Ok s => s
  | _ => DLX.mk 0 0 1%positive ∅
  end.

(** ** The shape of a built matrix *)

(** The nodes of a matrix by ring, in the order of construction: the
    column headers, the row headers, the value nodes of each column and the
    value nodes of each row. *)
Record geometry : Type := Geometry {
  g_root : ref;
  cols0 : list ref;
  rows0 : list ref;
  V0 : ref -> list ref;
  H0 : ref -> list ref
}.

(** The ring anchored at a head: the root anchors the ring of the column
    headers and the ring of the row headers. *)
Definition Hring0 (G : geometry) (k : ref) : list ref :=
  if decide (k = g_root G) then cols0 G else H0 G k.
Definition Vring0 (G : geometry) (k : ref) : list ref :=
  if decide (k = g_root G) then rows0 G else V0 G k.
Definition Hheads (G : geometry) : list ref := g_root G :: rows0 G.
Definition Vheads (G : geometry) : list ref := g_root G :: cols0 G.

(** The head of the horizontal ring a node was built into (a column header
    is the node that has a [size]) and the head of its vertical ring. *)
Definition hhead (h : heap) (root x : ref) : ref :=
  match get Node.size h x with
  | Some _ => root
  | None => get Node.row h x
  end.
Definition vhead (h : heap) (x : ref) : ref := get Node.column h x.

(** What never changes once the matrix is built. *)
Record static (G : geometry) (h : heap) : Prop := {
  st_nodup_H : Forall (fun k => NoDup (k :: Hring0 G k)) (Hheads G);
  st_nodup_V : Forall (fun k => NoDup (k :: Vring0 G k)) (Vheads G);
  st_head_H :
    Forall (fun k => Forall (fun x => hhead h (g_root G) x = k) (k :: Hring0 G k))
           (Hheads G);
  st_head_V :
    Forall (fun k => Forall (fun x => vhead h x = k) (k :: Vring0 G k)) (Vheads G);
  st_cross_V :
    Forall (fun c => Forall (fun y => get Node.row h y ∈ rows0 G /\
                                      y ∈ H0 G (get Node.row h y)) (V0 G c))
           (cols0 G);
  st_cross_H :
    Forall (fun r => Forall (fun z => get Node.column h z ∈ cols0 G /\
                                      z ∈ V0 G (get Node.column h z)) (H0 G r))
           (rows0 G);
  st_alloc_H : Forall (fun k => Forall (allocated h) (k :: Hring0 G k)) (Hheads G);
  st_alloc_V : Forall (fun k => Forall (allocated h) (k :: Vring0 G k)) (Vheads G);
  st_inj_H : Forall (fun r => NoDup (get Node.column h <$> H0 G r)) (rows0 G);
  st_inj_V : Forall (fun c => NoDup (get Node.row h <$> V0 G c)) (cols0 G)
}.

(** Every row header carries a name, and no two carry the same one: what
    the search for a label in [TableModel.solve] relies on. *)
Definition labelled (G : geometry) (h : heap) : Prop :=
  Forall (fun r => is_Some (get Node.name h r)) (rows0 G) /\
  NoDup (get Node.name h <$> rows0 G).

(** Every ring of a freshly built matrix is closed and holds all of its
    nodes. *)
Definition fresh_ok (G : geometry) (h : heap) : Prop :=
  static G h /\
  Forall (fun k => ring Hdir h k (Hring0 G k)) (Hheads G) /\
  Forall (fun k => ring Vdir h k (Vring0 G k)) (Vheads G).

(** The rings of one direction, when [L] is the set of the nodes that are
    linked in this direction: the ring of each head holds the nodes of [L]
    that were built into it, in the order of construction. *)
Definition rings (d : dir) (h : heap) (heads : list ref)
           (ring0 : ref -> list ref) (L : gset ref) : Prop :=
  Forall (fun k => ring d h k (filter (.∈ L) (ring0 k))) heads.

(** The state of a matrix between two cover or uncover calls, described by
    the set [HL] of the nodes that are linked into their horizontal ring
    and the set [VL] of the nodes linked into their vertical ring. *)
Record inv (G : geometry) (h : heap) (HL VL : gset ref) : Prop := {
  inv_static : static G h;
  inv_rings_H : rings Hdir h (Hheads G) (Hring0 G) HL;
  inv_rings_V : rings Vdir h (Vheads G) (Vring0 G) VL;
  (* a column in the column ring has all its nodes in their rows *)
  inv_col_nodes : forall c y, c ∈ cols0 G -> c ∈ HL -> y ∈ V0 G c -> y ∈ HL;
  (* a row in the row ring has all its nodes in their columns *)
  inv_row_nodes : forall r z, r ∈ rows0 G -> r ∈ VL -> z ∈ H0 G r -> z ∈ VL;
  (* a node present in a column of the column ring is a node of a row of
     the row ring *)
  inv_col_rows : forall c y,
    c ∈ cols0 G -> c ∈ HL -> y ∈ V0 G c -> y ∈ VL -> get Node.row h y ∈ VL;
  (* a node present in a row of the row ring is a node of a column of the
     column ring *)
  inv_row_cols : forall r z,
    r ∈ rows0 G -> r ∈ VL -> z ∈ H0 G r -> z ∈ HL -> get Node.column h z ∈ HL
}.

(** The effect of the cover operations on a state that satisfies [inv],
    written without loops: the lists of nodes come from the geometry. *)
Definition cfg : Type := DLX.t * gset ref * gset ref.

Definition step_col (G : geometry) (c : ref) (k : cfg) : cfg :=
  let '(s, HL, VL) := k in
  let ys := c :: filter (.∈ VL) (V0 G c) in
  (DLX.with_cols (DLX.cols s - 1)
     (DLX.with_store (unlink_all Hdir ys (DLX.store s)) s),
   HL ∖ list_to_set ys, VL).

Definition step_row (G : geometry) (r : ref) (k : cfg) : cfg :=
  let '(s, HL, VL) := k in
  let zs := r :: filter (.∈ HL) (H0 G r) in
  (DLX.with_rows (DLX.rows s - 1)
     (DLX.with_store (unlink_all Vdir zs (DLX.store s)) s),
   HL, VL ∖ list_to_set zs).

Definition step_col_rows (G : geometry) (c : ref) (k : cfg) : cfg :=
  let '(s, HL, VL) := k in
  fold_left (fun k y => step_row G (get Node.row (DLX.store s) y) k)
            (filter (.∈ VL) (V0 G c)) (step_col G c k).

Definition step_row_cols_rows (G : geometry) (r : ref) (k : cfg) : cfg :=
  let '(s, HL, VL) := k in
  fold_left (fun k z => step_col_rows G (get Node.column (DLX.store s) z) k)
            (filter (.∈ HL) (H0 G r)) (step_row G r k).

(** The geometry read off a store by walking its rings. *)
Definition ring_of (f : Node.t -> ref) (fuel : nat) (h : heap) (k : ref) : list ref :=
  match walk f fuel h k k with
  | Ok l => l
  | _ => []
  end.

Definition geometry_of (fuel : nat) (s : DLX.t) : geometry :=
  {| g_root := DLX.root s;
     cols0 := ring_of Node.right fuel (DLX.store s) (DLX.root s);
     rows0 := ring_of Node.down fuel (DLX.store s) (DLX.root s);
     V0 := ring_of Node.down fuel (DLX.store s);
     H0 := ring_of Node.right fuel (DLX.store s) |}.

#[global] Instance static_dec G h : Decision (static G h).
Proof.
  refine (cast_if (decide (
    Forall (fun k => NoDup (k :: Hring0 G k)) (Hheads G) /\
    Forall (fun k => NoDup (k :: Vring0 G k)) (Vheads G) /\
    Forall (fun k => Forall (fun x => hhead h (g_root G) x = k) (k :: Hring0 G k))
           (Hheads G) /\
    Forall (fun k => Forall (fun x => vhead h x = k) (k :: Vring0 G k)) (Vheads G) /\
    Forall (fun c => Forall (fun y => get Node.row h y ∈ rows0 G /\
                                      y ∈ H0 G (get Node.row h y)) (V0 G c))
           (cols0 G) /\
    Forall (fun r => Forall (fun z => get Node.column h z ∈ cols0 G /\
                                      z ∈ V0 G (get Node.column h z)) (H0 G r))
           (rows0 G) /\
    Forall (fun k => Forall (allocated h) (k :: Hring0 G k)) (Hheads G) /\
    Forall (fun k => Forall (allocated h) (k :: Vring0 G k)) (Vheads G) /\
    Forall (fun r => NoDup (get Node.column h <$> H0 G r)) (rows0 G) /\
    Forall (fun c => NoDup (get Node.row h <$> V0 G c)) (cols0 G))));
  [ destruct a as (?&?&?&?&?&?&?&?&?&?); by constructor
  | intros []; apply n; by repeat split ].
Defined.

#[global] Instance fresh_ok_dec G h : Decision (fresh_ok G h).
Proof. unfold fresh_ok. apply _. Defined.

(** The loops of [cover_col_rows] and [cover_row_cols_rows], and those of
    their uncover counterparts, in one shape: walk the ring of [stop] in
    direction [w] and apply [op] to the row (or the column) of each node. *)
Fixpoint walk_loop (w : dir) (key : Node.t -> ref)
         (op : nat -> ref -> DLX.t -> res DLX.t)
         (fuel : nat) (stop value_node : ref) (self : DLX.t) : res DLX.t :=
  match fuel with
  | O => OutOfFuel
  | S fuel' =>
    if decide (value_node = stop) then Ok self
    else
      self ← op fuel' (get key (DLX.store self) value_node) self;
      walk_loop w key op fuel' stop (get (nxt w) (DLX.store self) value_node) self
  end.

Fixpoint back_loop (w : dir) (key : Node.t -> ref)
         (op : nat -> ref -> DLX.t -> res DLX.t)
         (fuel : nat) (stop value_node : ref) (self : DLX.t) : res DLX.t :=
  match fuel with
  | O => OutOfFuel
  | S fuel' =>
    if decide (value_node = stop) then Ok self
    else
      self ← op fuel' (get key (DLX.store self) value_node) self;
      back_loop w key op fuel' stop (get (prv w) (DLX.store self) value_node) self
  end.

(** The largest ring of a geometry is no longer than [B]. *)
Definition bounded (G : geometry) (B : nat) : Prop :=
  Forall (fun k => length (Hring0 G k) <= B) (Hheads G) /\
  Forall (fun k => length (Vring0 G k) <= B) (Vheads G).

#[global] Instance bounded_dec G B : Decision (bounded G B).
Proof. unfold bounded. apply _. Defined.

(** The state of a matrix between two commitments: in addition to [inv],
    every node of a row of the row ring is linked into that row. *)
Definition inv_top (G : geometry) (h : heap) (HL VL : gset ref) : Prop :=
  inv G h HL VL /\
  forall r z, r ∈ rows0 G -> r ∈ VL -> z ∈ H0 G r -> z ∈ HL.

(** The rows that have a node in one of the columns of row [r]. *)
Definition crossing (G : geometry) (h : heap) (r : ref) : list ref :=
  z ← H0 G r; y ← V0 G (get Node.column h z); [get Node.row h y].

(** ** The Sudoku matrix *)

Definition sudoku_dlx : DLX.t :=
  fresh TableModel.sudoku_encoding.1 TableModel.sudoku_encoding.2.

Definition sudoku_geometry : geometry := geometry_of 1000 sudoku_dlx.

(** Two candidates that put the same digit twice in one board row cross:
    for every matrix row named [(val, (i, j))], and every other column
    [j'] of the board, the row named [(val, (i, j'))] has a node in one
    of its columns. *)
Definition same_row_cross (G : geometry) (h : heap) : Prop :=
  Forall (fun r =>
    match get Node.name h r with
    | Some (VPair (VInt val) (VPair (VInt i) (VInt j))) =>
      Forall (fun j' =>
                j' = j \/
                Exists (fun r' => get Node.name h r'
                                  = Some (TableModel.node_name val i j'))
                       (crossing G h r))
             (Z.of_nat <$> seq 0 9)
    | _ => False
    end) (rows0 G).

#[global] Instance same_row_cross_dec G h : Decision (same_row_cross G h).
Proof.
  unfold same_row_cross. apply Forall_dec. intros r.
  destruct (get Node.name h r) as [[| | |[| z | |] [| | |[| z1 | |] [| z2 | |]]]|];
    apply _.
Defined.

Definition is_ok {A} (r : res A) : bool :=
  match r with Ok _ => true | _ => false end.

(** What is checked once, by evaluation, about the Sudoku matrix. *)
Definition sudoku_checked : Prop :=
  is_ok (DLX.init TableModel.sudoku_encoding.1 TableModel.sudoku_encoding.2)
    = true /\
  fresh_ok sudoku_geometry (DLX.store sudoku_dlx) /\
  bounded sudoku_geometry 729 /\
  same_row_cross sudoku_geometry (DLX.store sudoku_dlx) /\
  labelled sudoku_geometry (DLX.store sudoku_dlx).

(** Whether the pre-commitment pass of [TableModel.solve] found every
    given. *)
Definition precommit_found (fuel : nat) (user_data : grid) (dlx : DLX.t) : res bool :=
  '(found, _, _) ← TableModel.precommit fuel user_data TableModel.all_cells dlx [];
  Ok found.

(** All the nodes of the rings of a geometry. *)
Definition nodes (G : geometry) : gset ref :=
  list_to_set ((k ← Hheads G; k :: Hring0 G k) ++
               (k ← Vheads G; k :: Vring0 G k)).

(** The state of the pre-commitment pass of [TableModel.solve] after the
    rows of [covers] have been committed on the matrix [d0]: undoing them
    from the last to the first gives [d0] back. *)
Definition in_commit (G : geometry) (fuel : nat) (d0 : DLX.t)
           (k : cfg) (covers : list ref) : Prop :=
  inv_top G (DLX.store k.1.1) k.1.2 k.2 /\
  DLX.root k.1.1 = g_root G /\
  TableModel.undo fuel (rev covers) k.1.1 = Ok d0 /\
  (forall q, get Node.row (DLX.store k.1.1) q = get Node.row (DLX.store d0) q) /\
  (forall q, get Node.column (DLX.store k.1.1) q
             = get Node.column (DLX.store d0) q) /\
  (forall q, get Node.name (DLX.store k.1.1) q = get Node.name (DLX.store d0) q).

(** ** Observations on the columns *)

(** For each remaining column: the header, its [size] attribute and the
    number of value nodes met walking [down] from the header. *)
Fixpoint column_report_loop (fuel : nat) (h : heap) (cs : list ref)
  : res (list (ref * option Z * nat)) :=
  match cs with
  | [] => Ok []
  | c :: cs' =>
    l ← live_nodes fuel h c;
    rest ← column_report_loop fuel h cs';
    Ok ((c, get Node.size h c, length l) :: rest)
  end.

Definition column_report (fuel : nat) (s : DLX.t)
  : res (list (ref * option Z * nat)) :=
  cs ← walk Node.right fuel (DLX.store s) (DLX.root s) (DLX.root s);
  column_report_loop fuel (DLX.store s) cs.

(** The statements of [DLX.solve] from the choice of the column to the
    first recursive call: the state in which the recursive call chooses
    its column. *)
Definition first_branch (fuel : nat) (s : DLX.t) : res DLX.t :=
  c_min ← DLX.choose fuel s;
  s ← DLX.cover_col_rows fuel c_min s;
  let value_node := get Node.down (DLX.store s) c_min in
  DLX.cover_row_cols_rows fuel (get Node.row (DLX.store s) value_node) s.

(** ** Inputs used below *)

Definition ab : list value := [VStr "a"; VStr "b"].
Definition aa : list value := [VStr "a"; VStr "a"].
Definition abc : list value := [VStr "a"; VStr "b"; VStr "c"].
Definition abcde : list value :=
  [VStr "a"; VStr "b"; VStr "c"; VStr "d"; VStr "e"].

Definition m_one : ndarray := of_rows 1 [[true]].
Definition m_two : ndarray := of_rows 2 [[true; false]; [true; true]].
Definition m_gap : ndarray := of_rows 2 [[true; false]].
Definition m_ones : ndarray := of_rows 2 [[true; true]; [true; true]].
Definition m_overlap : ndarray :=
  of_rows 3 [[false; true; true]; [true; false; true]; [true; true; false]].
Definition m_missed : ndarray :=
  of_rows 3 [[true; true; false]; [true; true; true]; [true; false; true]].
Definition m_stale : ndarray :=
  of_rows 3 [[true; false; false]; [true; false; true]; [false; true; false];
             [false; true; false]; [false; false; true]].

(** The digit 5 twice in the first board row. *)
Definition board_twice : grid := board [(0, 0, 5%Z); (0, 1, 5%Z)].

(** A board whose givens are pairwise compatible but leave no digit for
    the cell in the corner: 1 to 8 in the first row, 9 below the corner. *)
Definition board_stuck : grid :=
  board [(0, 1, 1%Z); (0, 2, 2%Z); (0, 3, 3%Z); (0, 4, 4%Z); (0, 5, 5%Z);
         (0, 6, 6%Z); (0, 7, 7%Z); (0, 8, 8%Z); (1, 0, 9%Z)].

(** The object built by [TableModel(user_data, solver_data)]. *)
Definition sudoku_model (user_data solver_data : grid) : TableModel.t :=
  TableModel.mk user_data solver_data sudoku_dlx.

(** The exception caught by [except InconsistentInputs as e] in one call
    of [TableModel.solve], if any. *)
Definition caught_by (fuel : nat) (self : TableModel.t) : res (option exn) :=
  '(_, e) ← TableModel.solve fuel self;
  Ok e.

(** The exception raised inside the [try] block of [TableModel.solve],
    if any. *)
Definition raised_by (fuel : nat) (self : TableModel.t) : res (option exn) :=
  '(_, _, _, e) ← TableModel.try_block fuel self;
  Ok e.

(** What the [try] block of [TableModel.solve] runs into: a given whose
    row is not found in the row ring, a search that returns [None], or a
    search that returns a solution. *)
Inductive outcome : Type :=
| NotFound
| NoSolution
| Solved (sol : list value).

Definition outcome_of (fuel : nat) (self : TableModel.t) : res outcome :=
  '(found, dlx, _) ←
    TableModel.precommit fuel (TableModel._user_data self) TableModel.all_cells
                         (TableModel._dlx self) [];
  if (found : bool) then
    '(sol, _) ← DLX.solve fuel dlx;
    Ok (match sol with
        | None => NoSolution
        | Some sol => Solved sol
        end)
  else Ok NotFound.

(** When the message box of [TableModel.solve] is shown: how many
    commitments the list [covers] holds, and whether every node has the
    links it had before the call. *)
Definition report_state (fuel : nat) (self : TableModel.t)
  : res (option (nat * bool)) :=
  '(dlx, _, covers, raised) ← TableModel.try_block fuel self;
  Ok (match raised with
      | Some _ =>
        Some (length covers,
              bool_decide (links <$> DLX.store dlx
                           = links <$> DLX.store (TableModel._dlx self)))
      | None => None
      end).

(** [cover_col(c)] followed by [uncover_col(c)] on the state [s]: whether
    [c] is met walking [right] from the root of [s], and whether every
    node has afterwards the links it had in [s]. *)
Definition cover_uncover_col (fuel : nat) (c : ref) (s : DLX.t)
  : res (bool * bool) :=
  cs ← walk Node.right fuel (DLX.store s) (DLX.root s) (DLX.root s);
  s1 ← DLX.cover_col fuel c s;
  s2 ← DLX.uncover_col fuel c s1;
  Ok (bool_decide (c ∈ cs),
      bool_decide (links <$> DLX.store s2 = links <$> DLX.store s)).

(** ** Checks by evaluation *)

(** Boolean versions of the properties above, for a concrete matrix. *)
Definition memb (x : ref) (l : list ref) : bool := existsb (Pos.eqb x) l.

Fixpoint nodupb (l : list ref) : bool :=
  match l with
  | [] => true
  | x :: l' => negb (memb x l') && nodupb l'
  end.

Fixpoint value_eqb (a b : value) : bool :=
  match a, b with
  | VNone, VNone => true
  | VInt x, VInt y => Z.eqb x y
  | VStr x, VStr y => String.eqb x y
  | VPair a1 a2, VPair b1 b2 => value_eqb a1 b1 && value_eqb a2 b2
  | _, _ => false
  end.

Definition name_eqb (a b : option value) : bool :=
  match a, b with
  | Some x, Some y => value_eqb x y
  | None, None => true
  | _, _ => false
  end.

Fixpoint nodup_namesb (l : list (option value)) : bool :=
  match l with
  | [] => true
  | x :: l' => negb (existsb (name_eqb x) l') && nodup_namesb l'
  end.

Definition allocatedb (h : heap) (p : ref) : bool :=
  match h !! p with Some _ => true | None => false end.

Fixpoint chainb (d : dir) (h : heap) (a : ref) (l : list ref) (z : ref) : bool :=
  match l with
  | [] => Pos.eqb (get (nxt d) h a) z && Pos.eqb (get (prv d) h z) a
  | b :: l' =>
    Pos.eqb (get (nxt d) h a) b && Pos.eqb (get (prv d) h b) a && chainb d h b l' z
  end.

Definition ringb (d : dir) (h : heap) (hd : ref) (l : list ref) : bool :=
  nodupb (hd :: l) && chainb d h hd l hd.

Definition staticb (G : geometry) (h : heap) : bool :=
  forallb (fun k => nodupb (k :: Hring0 G k)) (Hheads G) &&
  forallb (fun k => nodupb (k :: Vring0 G k)) (Vheads G) &&
  forallb (fun k => forallb (fun x => Pos.eqb (hhead h (g_root G) x) k)
                            (k :: Hring0 G k)) (Hheads G) &&
  forallb (fun k => forallb (fun x => Pos.eqb (vhead h x) k) (k :: Vring0 G k))
          (Vheads G) &&
  forallb (fun c => forallb (fun y => memb (get Node.row h y) (rows0 G) &&
                                      memb y (H0 G (get Node.row h y)))
                            (V0 G c)) (cols0 G) &&
  forallb (fun r => forallb (fun z => memb (get Node.column h z) (cols0 G) &&
                                      memb z (V0 G (get Node.column h z)))
                            (H0 G r)) (rows0 G) &&
  forallb (fun k => forallb (allocatedb h) (k :: Hring0 G k)) (Hheads G) &&
  forallb (fun k => forallb (allocatedb h) (k :: Vring0 G k)) (Vheads G) &&
  forallb (fun r => nodupb (get Node.column h <$> H0 G r)) (rows0 G) &&
  forallb (fun c => nodupb (get Node.row h <$> V0 G c)) (cols0 G).

Definition labelledb (G : geometry) (h : heap) : bool :=
  forallb (fun r => match get Node.name h r with Some _ => true | None => false end)
          (rows0 G) &&
  nodup_namesb (get Node.name h <$> rows0 G).

Definition fresh_okb (G : geometry) (h : heap) : bool :=
  staticb G h &&
  forallb (fun k => ringb Hdir h k (Hring0 G k)) (Hheads G) &&
  forallb (fun k => ringb Vdir h k (Vring0 G k)) (Vheads G).

Definition boundedb (G : geometry) (B : nat) : bool :=
  forallb (fun k => Nat.leb (length (Hring0 G k)) B) (Hheads G) &&
  forallb (fun k => Nat.leb (length (Vring0 G k)) B) (Vheads G).

Definition same_row_crossb (G : geometry) (h : heap) : bool :=
  forallb (fun r =>
    match get Node.name h r with
    | Some (VPair (VInt val) (VPair (VInt i) (VInt j))) =>
      let ns := get Node.name h <$> crossing G h r in
      forallb (fun j' =>
                 Z.eqb j' j ||
                 existsb (fun n => name_eqb n (Some (TableModel.node_name val i j')))
                         ns)
              (Z.of_nat <$> seq 0 9)
    | _ => false
    end) (rows0 G).

(** ** The cover and uncover methods *)

(** The eight cover and uncover methods of [DLX], and the call of one of
    them on a node. *)
Inductive method : Type :=
  | CoverCol | UncoverCol | CoverRow | UncoverRow
  | CoverColRows | UncoverColRows | CoverRowColsRows | UncoverRowColsRows.

Definition call (m : method) (fuel : nat) (node : ref) (self : DLX.t) : res DLX.t :=
  match m with
  | CoverCol => DLX.cover_col fuel node self
  | UncoverCol => DLX.uncover_col fuel node self
  | CoverRow => DLX.cover_row fuel node self
  | UncoverRow => DLX.uncover_row fuel node self
  | CoverColRows => DLX.cover_col_rows fuel node self
  | UncoverColRows => DLX.uncover_col_rows fuel node self
  | CoverRowColsRows => DLX.cover_row_cols_rows fuel node self
  | UncoverRowColsRows => DLX.uncover_row_cols_rows fuel node self
  end.

(** The object [s'] has the root of [s], and every node has in [s'] the
    [size], [name], [row] and [column] it has in [s]. *)
Definition same_fixed (s s' : DLX.t) : Prop :=
  DLX.root s' = DLX.root s /\
  forall q,
    get Node.size (DLX.store s') q = get Node.size (DLX.store s) q /\
    get Node.name (DLX.store s') q = get Node.name (DLX.store s) q /\
    get Node.row (DLX.store s') q = get Node.row (DLX.store s) q /\
    get Node.column (DLX.store s') q = get Node.column (DLX.store s) q.

(** The [size] attribute of a node, 0 when it has none. *)
Definition size_of (h : heap) (c : ref) : Z := default 0%Z (get Node.size h c).

(** ** The Sudoku encoding *)

(** The four constraints of the candidate "digit [v + 1] in the cell
    [(r, c)]": the cell, the digit in the board row, the digit in the
    board column, the digit in the group. *)
Definition sudoku_ones (v r c : N) : list N :=
  [9 * r + c; 81 + 9 * v + r; 162 + 9 * v + c;
   243 + 9 * v + (3 * (r / 3) + c / 3)]%N.

(** The check, by evaluation, of the names and of every cell of a matrix
    against this description. *)
Definition encoding_checkb (m : ndarray) (names : list value) : bool :=
  forallb (fun v => forallb (fun r => forallb (fun c =>
    let i := (81 * v + 9 * r + c)%N in
    name_eqb (names !! N.to_nat i)
             (Some (TableModel.node_name (Z.of_N (v + 1)) (Z.of_N r) (Z.of_N c)))
    && forallb (fun k => Bool.eqb (item m i k)
                                  (existsb (N.eqb k) (sudoku_ones v r c)))
               (range 324))
    (range 9)) (range 9)) (range 9).

(** ** The laws of the two directions *)

(** What the getters and setters of a direction satisfy. *)
Class DirLaws (d : dir) : Prop := {
  nxt_set_nxt v n : nxt d (set_nxt d v n) = v;
  prv_set_nxt v n : prv d (set_nxt d v n) = prv d n;
  nxt_set_prv v n : nxt d (set_prv d v n) = nxt d n;
  prv_set_prv v n : prv d (set_prv d v n) = v;
  set_nxt_id n : set_nxt d (nxt d n) n = n;
  set_prv_id n : set_prv d (prv d n) n = n;
  set_nxt_nxt v w n : set_nxt d v (set_nxt d w n) = set_nxt d v n;
  set_prv_prv v w n : set_prv d v (set_prv d w n) = set_prv d v n;
  set_nxt_prv v w n : set_nxt d v (set_prv d w n) = set_prv d w (set_nxt d v n)
}.

(** Attributes that an assignment in direction [d] leaves alone. *)
Class Frame (d : dir) {A} (g : Node.t -> A) : Prop := {
  frame_set_nxt v n : g (set_nxt d v n) = g n;
  frame_set_prv v n : g (set_prv d v n) = g n
}.

#[local] Set Warnings "-clear-no-such-hyp".

Lemma bind_Ok {A B} (a : A) (k : A -> res B) : (Ok a ≫= k) = k a.
Proof. done. Qed.

(** * Reading and writing the store *)

Lemma get_assign {A} (g : Node.t -> A) f p v (h : heap) q :
  get g (assign f p v h) q = if decide (p = q) then g (f v (h !!! p)) else get g h q.
Proof.
  unfold get, assign. rewrite lookup_total_insert. by case_decide.
Qed.

Lemma allocated_assign f p v (h : heap) q :
  allocated h p -> allocated (assign f p v h) q <-> allocated h q.
Proof.
  unfold allocated, assign. intros Hp. rewrite lookup_insert_is_Some.
  split; [intros [<-|[_ ?]]; done | intros Hq].
  destruct (decide (p = q)); [by left | by right].
Qed.

Lemma assign_id f p v (h : heap) :
  allocated h p -> f v (h !!! p) = h !!! p -> assign f p v h = h.
Proof.
  intros [n Hn] Hf. unfold assign. apply insert_id.
  rewrite Hf. by rewrite (lookup_total_correct _ _ _ Hn).
Qed.

(** * The laws of a direction *)



#[global] Instance Hdir_laws : DirLaws Hdir.
Proof. split; intros; try destruct n; reflexivity. Qed.
#[global] Instance Vdir_laws : DirLaws Vdir.
Proof. split; intros; try destruct n; reflexivity. Qed.

Lemma unlink_lr_eq p h : DLX.unlink_lr p h = unlink Hdir p h.
Proof. reflexivity. Qed.
Lemma relink_lr_eq p h : DLX.relink_lr p h = relink Hdir p h.
Proof. reflexivity. Qed.
Lemma unlink_ud_eq p h : DLX.unlink_ud p h = unlink Vdir p h.
Proof. reflexivity. Qed.
Lemma relink_ud_eq p h : DLX.relink_ud p h = relink Vdir p h.
Proof. reflexivity. Qed.



#[global] Instance frame_H_down : Frame Hdir Node.down. Proof. by split. Qed.
#[global] Instance frame_H_up : Frame Hdir Node.up. Proof. by split. Qed.
#[global] Instance frame_V_right : Frame Vdir Node.right. Proof. by split. Qed.
#[global] Instance frame_V_left : Frame Vdir Node.left. Proof. by split. Qed.
#[global] Instance frame_H_nxtV : Frame Hdir (nxt Vdir). Proof. by split. Qed.
#[global] Instance frame_H_prvV : Frame Hdir (prv Vdir). Proof. by split. Qed.
#[global] Instance frame_V_nxtH : Frame Vdir (nxt Hdir). Proof. by split. Qed.
#[global] Instance frame_V_prvH : Frame Vdir (prv Hdir). Proof. by split. Qed.
#[global] Instance frame_H_row : Frame Hdir Node.row. Proof. by split. Qed.
#[global] Instance frame_V_row : Frame Vdir Node.row. Proof. by split. Qed.
#[global] Instance frame_H_column : Frame Hdir Node.column. Proof. by split. Qed.
#[global] Instance frame_V_column : Frame Vdir Node.column. Proof. by split. Qed.
#[global] Instance frame_H_size : Frame Hdir Node.size. Proof. by split. Qed.
#[global] Instance frame_V_size : Frame Vdir Node.size. Proof. by split. Qed.
#[global] Instance frame_H_name : Frame Hdir Node.name. Proof. by split. Qed.
#[global] Instance frame_V_name : Frame Vdir Node.name. Proof. by split. Qed.

Lemma other_frame_nxt d o : other d o -> Frame d (nxt o).
Proof. intros [[-> ->]|[-> ->]]; apply _. Qed.
Lemma other_frame_prv d o : other d o -> Frame d (prv o).
Proof. intros [[-> ->]|[-> ->]]; apply _. Qed.

Section direction.
Context (d : dir) `{!DirLaws d}.

(** ** Reading after [unlink] and [relink] *)

Lemma get_nxt_assign_nxt p v h q :
  get (nxt d) (assign (set_nxt d) p v h) q =
    if decide (q = p) then v else get (nxt d) h q.
Proof.
  rewrite get_assign. repeat case_decide; subst; try done.
  apply nxt_set_nxt.
Qed.

Lemma get_prv_assign_prv p v h q :
  get (prv d) (assign (set_prv d) p v h) q =
    if decide (q = p) then v else get (prv d) h q.
Proof.
  rewrite get_assign. repeat case_decide; subst; try done.
  apply prv_set_prv.
Qed.

Lemma get_prv_assign_nxt p v h q :
  get (prv d) (assign (set_nxt d) p v h) q = get (prv d) h q.
Proof.
  rewrite get_assign. case_decide; subst; try done. unfold get. apply prv_set_nxt.
Qed.

Lemma get_nxt_assign_prv p v h q :
  get (nxt d) (assign (set_prv d) p v h) q = get (nxt d) h q.
Proof.
  rewrite get_assign. case_decide; subst; try done. unfold get. apply nxt_set_prv.
Qed.

Lemma get_frame_assign_nxt {A} (g : Node.t -> A) `{!Frame d g} p v h q :
  get g (assign (set_nxt d) p v h) q = get g h q.
Proof.
  rewrite get_assign. case_decide; subst; try done. unfold get. apply frame_set_nxt.
Qed.

Lemma get_frame_assign_prv {A} (g : Node.t -> A) `{!Frame d g} p v h q :
  get g (assign (set_prv d) p v h) q = get g h q.
Proof.
  rewrite get_assign. case_decide; subst; try done. unfold get. apply frame_set_prv.
Qed.

(** The second assignment of [unlink] reads the attributes of [x] that
    the first one may have written; the values are the same. *)
Lemma unlink_eq x h :
  unlink d x h =
    assign (set_prv d) (get (nxt d) h x) (get (prv d) h x)
      (assign (set_nxt d) (get (prv d) h x) (get (nxt d) h x) h).
Proof.
  unfold unlink. rewrite get_prv_assign_nxt, get_nxt_assign_nxt.
  case_decide as E; [|done]. by rewrite <- E.
Qed.

Lemma get_nxt_unlink x h q :
  get (nxt d) (unlink d x h) q =
    if decide (q = get (prv d) h x) then get (nxt d) h x else get (nxt d) h q.
Proof. by rewrite unlink_eq, get_nxt_assign_prv, get_nxt_assign_nxt. Qed.

Lemma get_prv_unlink x h q :
  get (prv d) (unlink d x h) q =
    if decide (q = get (nxt d) h x) then get (prv d) h x else get (prv d) h q.
Proof. by rewrite unlink_eq, get_prv_assign_prv, get_prv_assign_nxt. Qed.

Lemma get_frame_unlink {A} (g : Node.t -> A) `{!Frame d g} x h q :
  get g (unlink d x h) q = get g h q.
Proof. by rewrite unlink_eq, get_frame_assign_prv, get_frame_assign_nxt. Qed.

Lemma get_frame_relink {A} (g : Node.t -> A) `{!Frame d g} x h q :
  get g (relink d x h) q = get g h q.
Proof.
  unfold relink. by rewrite get_frame_assign_prv, get_frame_assign_nxt.
Qed.

Lemma allocated_unlink x h q :
  allocated h (get (prv d) h x) -> allocated h (get (nxt d) h x) ->
  allocated (unlink d x h) q <-> allocated h q.
Proof.
  intros Ha Hb. rewrite unlink_eq.
  rewrite allocated_assign; [by apply allocated_assign|].
  by apply allocated_assign.
Qed.

(** ** [relink] undoes [unlink] on a linked node *)

Lemma relink_unlink x h : linked d h x -> relink d x (unlink d x h) = h.
Proof.
  intros (Ha & Hb & Hab & Hba).
  assert (E1 : get (prv d) (unlink d x h) x = get (prv d) h x).
  { rewrite get_prv_unlink. by case_decide. }
  assert (E2 : get (nxt d) (assign (set_nxt d) (get (prv d) h x) x
                              (unlink d x h)) x = get (nxt d) h x).
  { rewrite get_nxt_assign_nxt, get_nxt_unlink.
    destruct (decide (x = get (prv d) h x)) as [E|E]; [|done].
    rewrite <- E in Hab. symmetry. exact Hab. }
  unfold relink. rewrite E1, E2. rewrite unlink_eq. clear E1 E2.
  remember (get (prv d) h x) as a eqn:Ea0.
  remember (get (nxt d) h x) as b eqn:Eb0.
  destruct Ha as [na Hna], Hb as [nb Hnb].
  pose proof (lookup_total_correct _ _ _ Hna) as Ea.
  pose proof (lookup_total_correct _ _ _ Hnb) as Eb.
  unfold get in Hab, Hba. rewrite Ea in Hab. rewrite Eb in Hba.
  apply map_eq. intros q. unfold assign.
  rewrite !lookup_insert, !lookup_total_insert.
  clear Ea0 Eb0.
  destruct (decide (b = a)) as [->|Nab].
  - assert (na = nb) by congruence. subst nb.
    repeat case_decide; try congruence; subst.
    etrans; [|symmetry; exact Hna]. f_equal.
    rewrite set_nxt_prv, set_nxt_nxt, set_prv_prv, set_nxt_id.
    rewrite <- Hba. apply set_prv_id.
  - repeat case_decide; try congruence; subst.
    + etrans; [|symmetry; exact Hnb]. f_equal.
      rewrite set_prv_prv, <- Hba. apply set_prv_id.
    + etrans; [|symmetry; exact Hna]. f_equal.
      rewrite set_nxt_nxt. apply set_nxt_id.
Qed.

(** ** Other linked nodes stay linked *)

Lemma linked_unlink x y h :
  linked d h x -> linked d h y -> x <> y -> linked d (unlink d x h) y.
Proof.
  intros (Ha & Hb & Hab & Hba) (Ha' & Hb' & Hab' & Hba') Hxy.
  unfold linked.
  rewrite !allocated_unlink by done.
  rewrite !get_nxt_unlink, !get_prv_unlink.
  repeat case_decide; split_and!; try done; congruence.
Qed.

(** ** A list of nodes taken out and put back in reverse order *)

Lemma relink_all_unlink_all l h :
  NoDup l -> (forall x, x ∈ l -> linked d h x) ->
  relink_all d (rev l) (unlink_all d l h) = h.
Proof.
  revert h. induction l as [|x l IH]; intros h Hnd Hl; [done|].
  apply NoDup_cons in Hnd as [Hx Hnd].
  simpl. unfold relink_all. rewrite fold_left_app. simpl.
  fold (relink_all d (rev l) (unlink_all d l (unlink d x h))).
  rewrite IH; [|done|].
  - apply relink_unlink. apply Hl. by left.
  - intros y Hy. apply linked_unlink.
    + apply Hl. by left.
    + apply Hl. by right.
    + intros ->. done.
Qed.

Lemma get_frame_unlink_all {A} (g : Node.t -> A) `{!Frame d g} l h q :
  get g (unlink_all d l h) q = get g h q.
Proof.
  revert h. induction l as [|x l IH]; intros h; [done|].
  simpl. by rewrite IH, get_frame_unlink.
Qed.

Lemma get_frame_relink_all {A} (g : Node.t -> A) `{!Frame d g} l h q :
  get g (relink_all d l h) q = get g h q.
Proof.
  revert h. induction l as [|x l IH]; intros h; [done|].
  simpl. by rewrite IH, get_frame_relink.
Qed.

End direction.

(** * Chains *)

Section chains_basic.
Context (d : dir).

(** A chain is a property of the [nxt] of its nodes but the last and of
    the [prv] of its nodes but the first. *)
Lemma chain_ext h h' a l z :
  (forall q, q ∈ a :: l -> get (nxt d) h' q = get (nxt d) h q) ->
  (forall q, q ∈ l ++ [z] -> get (prv d) h' q = get (prv d) h q) ->
  chain d h a l z -> chain d h' a l z.
Proof.
  revert a. induction l as [|b l IH]; intros a Hn Hp; simpl.
  - intros [H1 H2]. rewrite Hn, Hp; [done| |]; set_solver.
  - intros (H1 & H2 & H3). rewrite Hn, Hp by set_solver.
    split_and!; [done..|]. apply IH; [| |done].
    + intros q ?. apply Hn. set_solver.
    + intros q ?. apply Hp. set_solver.
Qed.

Lemma chain_app h a l1 x l2 z :
  chain d h a (l1 ++ x :: l2) z <-> chain d h a l1 x /\ chain d h x l2 z.
Proof.
  revert a. induction l1 as [|b l1 IH]; intros a; simpl.
  - tauto.
  - rewrite IH. tauto.
Qed.

Lemma chain_first h a l z : chain d h a l z -> get (nxt d) h a = hd z l.
Proof. destruct l; simpl; tauto. Qed.

Lemma chain_prv_elem h a l z : chain d h a l z -> get (prv d) h z ∈ a :: l.
Proof.
  revert a. induction l as [|b l IH]; intros a.
  - intros [_ ->]. by left.
  - intros (_ & _ & H). right. by apply IH.
Qed.

Lemma chain_nxt_elem h a l z x :
  chain d h a l z -> x ∈ a :: l -> get (nxt d) h x ∈ l ++ [z].
Proof.
  revert a. induction l as [|b l IH]; intros a.
  - intros [<- _] Hx. apply list_elem_of_singleton in Hx as ->. by left.
  - intros (<- & _ & H) Hx. apply elem_of_cons in Hx as [->|Hx]; [by left|].
    right. by eapply IH.
Qed.

Lemma chain_prv_elem' h a l z x :
  chain d h a l z -> x ∈ l ++ [z] -> get (prv d) h x ∈ a :: l.
Proof.
  revert a. induction l as [|b l IH]; intros a.
  - intros [_ <-] Hx. apply list_elem_of_singleton in Hx as ->. by left.
  - intros (_ & <- & H) Hx. apply elem_of_cons in Hx as [->|Hx]; [by left|].
    right. by eapply IH.
Qed.

(** The end of a chain is moved from [z] to [s] when the last node of the
    chain is made to point to [s] and [s] back to it. *)
Lemma chain_retarget h h' a l z s :
  NoDup (a :: l) ->
  chain d h a l z ->
  (forall q, q ∈ a :: l -> q <> get (prv d) h z ->
             get (nxt d) h' q = get (nxt d) h q) ->
  (forall q, q ∈ l -> get (prv d) h' q = get (prv d) h q) ->
  get (nxt d) h' (get (prv d) h z) = s ->
  get (prv d) h' s = get (prv d) h z ->
  chain d h' a l s.
Proof.
  revert a. induction l as [|b l IH]; intros a Hnd Hc Hn Hp Hs1 Hs2.
  - destruct Hc as [H1 H2]. simpl. by rewrite <- H2.
  - destruct Hc as (H1 & H2 & H3).
    apply NoDup_cons in Hnd as [Ha Hnd].
    pose proof (chain_prv_elem _ _ _ _ H3) as Hin.
    simpl. split_and!.
    + rewrite Hn; [done|by left|]. intros ->. done.
    + rewrite Hp; [done|by left].
    + apply IH; try done.
      * intros q Hq. apply Hn. by right.
      * intros q Hq. apply Hp. by right.
Qed.

End chains_basic.

Section chains.
Context (d : dir) `{!DirLaws d}.

(** Unlinking a node of a chain leaves the chain of the other nodes. *)
Lemma chain_unlink h a l1 x l2 z :
  NoDup (a :: l1 ++ x :: l2) ->
  NoDup (l1 ++ x :: l2 ++ [z]) ->
  chain d h a (l1 ++ x :: l2) z ->
  chain d (unlink d x h) a (l1 ++ l2) z.
Proof.
  intros Hnd1 Hnd2 Hc.
  apply chain_app in Hc as [Hc1 Hc2].
  pose proof (chain_prv_elem _ _ _ _ _ Hc1) as Hpx.
  assert (Hx1 : x ∉ a :: l1).
  { rewrite app_comm_cons in Hnd1. apply NoDup_app in Hnd1 as (_ & H & _).
    intros Hx. apply (H x Hx). by left. }
  assert (Hl2 : forall q, q ∈ l2 -> q ∉ a :: l1).
  { rewrite app_comm_cons in Hnd1. apply NoDup_app in Hnd1 as (_ & H & _).
    intros q Hq Hq'. apply (H q Hq'). by right. }
  assert (Hnda : NoDup (a :: l1)).
  { rewrite app_comm_cons in Hnd1. by apply NoDup_app in Hnd1 as (? & _ & _). }
  assert (Hz : forall q, q ∈ l1 -> q ∉ x :: l2 ++ [z]).
  { apply NoDup_app in Hnd2 as (_ & H & _). done. }
  assert (Hndz : NoDup (x :: l2 ++ [z])).
  { by apply NoDup_app in Hnd2 as (_ & _ & ?). }
  (* the part before [x], whose end moves to the successor of [x] *)
  assert (Hfront : chain d (unlink d x h) a l1 (get (nxt d) h x)).
  { apply (chain_retarget d h _ a l1 x _ Hnda Hc1).
    - intros q Hq Hne. rewrite (get_nxt_unlink d). by rewrite decide_False.
    - intros q Hq. rewrite (get_prv_unlink d). rewrite decide_False; [done|].
      intros ->. apply (Hz _ Hq).
      pose proof (chain_nxt_elem _ _ _ _ _ x Hc2 ltac:(by left)) as Hin.
      by right.
    - rewrite (get_nxt_unlink d). by rewrite decide_True.
    - rewrite (get_prv_unlink d). by rewrite decide_True. }
  destruct l2 as [|s l2].
  - rewrite app_nil_r. destruct Hc2 as [E _]. by rewrite E in Hfront.
  - destruct Hc2 as (E1 & E2 & Hc2). rewrite E1 in Hfront.
    apply chain_app. split; [done|].
    apply NoDup_cons in Hndz as [Hxz Hndz].
    simpl in Hndz. apply NoDup_cons in Hndz as [Hsz Hndz].
    eapply chain_ext; [| |exact Hc2].
    + intros q Hq. rewrite (get_nxt_unlink d). rewrite decide_False; [done|].
      intros ->. apply (Hl2 (get (prv d) h x)); [|done].
      done.
    + intros q Hq. rewrite (get_prv_unlink d). rewrite decide_False; [done|].
      rewrite E1. intros ->. done.
Qed.

(** A chain none of whose nodes is a neighbour of [x] is not changed by
    unlinking [x]. *)
Lemma chain_unlink_frame h a l z x :
  get (prv d) h x ∉ a :: l -> get (nxt d) h x ∉ l ++ [z] ->
  chain d h a l z -> chain d (unlink d x h) a l z.
Proof.
  intros H1 H2. apply chain_ext.
  - intros q Hq. rewrite (get_nxt_unlink d). rewrite decide_False; [done|].
    by intros ->.
  - intros q Hq. rewrite (get_prv_unlink d). rewrite decide_False; [done|].
    by intros ->.
Qed.

End chains.

(** * The ring loops *)

Lemma cover_col_loop_eq fuel c v h :
  DLX.cover_col_loop fuel c v h = cover_loop Vdir Hdir fuel c v h.
Proof.
  revert v h. induction fuel as [|fuel IH]; intros v h; [done|].
  simpl. rewrite IH. reflexivity.
Qed.

Lemma cover_row_loop_eq fuel r v h :
  DLX.cover_row_loop fuel r v h = cover_loop Hdir Vdir fuel r v h.
Proof.
  revert v h. induction fuel as [|fuel IH]; intros v h; [done|].
  simpl. rewrite IH. reflexivity.
Qed.

Lemma uncover_col_loop_eq fuel c v h :
  DLX.uncover_col_loop fuel c v h = uncover_loop Vdir Hdir fuel c v h.
Proof.
  revert v h. induction fuel as [|fuel IH]; intros v h; [done|].
  simpl. rewrite IH. reflexivity.
Qed.

Lemma uncover_row_loop_eq fuel r v h :
  DLX.uncover_row_loop fuel r v h = uncover_loop Hdir Vdir fuel r v h.
Proof.
  revert v h. induction fuel as [|fuel IH]; intros v h; [done|].
  simpl. rewrite IH. reflexivity.
Qed.

Section loops.
Context (w u : dir) `{!DirLaws w, !DirLaws u} (Hwu : other u w).

Lemma chain_unlink_other h a l z x :
  chain w h a l z -> chain w (unlink u x h) a l z.
Proof.
  pose proof (other_frame_nxt _ _ Hwu). pose proof (other_frame_prv _ _ Hwu).
  intros Hc. eapply chain_ext; [| |exact Hc]; intros q _; [by rewrite (get_frame_unlink u (nxt w))|by rewrite (get_frame_unlink u (prv w))].
Qed.

Lemma chain_relink_other h a l z x :
  chain w h a l z -> chain w (relink u x h) a l z.
Proof.
  pose proof (other_frame_nxt _ _ Hwu). pose proof (other_frame_prv _ _ Hwu).
  intros Hc. eapply chain_ext; [| |exact Hc]; intros q _; [by rewrite (get_frame_relink u (nxt w))|by rewrite (get_frame_relink u (prv w))].
Qed.

Lemma chain_unlink_all_other h a l z xs :
  chain w h a l z -> chain w (unlink_all u xs h) a l z.
Proof.
  revert h. induction xs as [|x xs IH]; intros h Hc; [done|].
  simpl. apply IH. by apply chain_unlink_other.
Qed.

(** The cover loop started at [v] unlinks [v] and the nodes that follow
    it up to [stop]. *)
Lemma cover_loop_run fuel stop v l h :
  chain w h v l stop -> stop ∉ l -> length l < fuel ->
  cover_loop w u fuel stop v h = Ok (unlink_all u (v :: l) h).
Proof.
  pose proof (other_frame_nxt _ _ Hwu).
  revert fuel v h. induction l as [|b l IH]; intros fuel v h Hc Hs Hf.
  - destruct fuel as [|fuel]; [simpl in Hf; lia|]. simpl.
    destruct Hc as [E _]. rewrite (get_frame_unlink u (nxt w)), E.
    by rewrite decide_True.
  - destruct fuel as [|fuel]; [simpl in Hf; lia|]. simpl.
    destruct Hc as (E & _ & Hc). rewrite (get_frame_unlink u (nxt w)), E.
    rewrite decide_False by (intros ->; apply Hs; by left).
    rewrite IH; [done| | |simpl in Hf; lia].
    + by apply chain_unlink_other.
    + intros ?. apply Hs. by right.
Qed.

(** The uncover loop started at [v] walks back and relinks the nodes
    before [v] down to [stop]. *)
Lemma uncover_loop_run fuel stop v l h :
  chain w h stop l v -> stop ∉ l -> length l < fuel ->
  uncover_loop w u fuel stop v h = Ok (relink_all u (rev l ++ [stop]) h).
Proof.
  pose proof (other_frame_prv _ _ Hwu).
  revert fuel v h. induction l as [|b l IH] using rev_ind; intros fuel v h Hc Hs Hf.
  - destruct fuel as [|fuel]; [simpl in Hf; lia|]. simpl.
    destruct Hc as [_ E]. rewrite E. by rewrite decide_True.
  - destruct fuel as [|fuel]; [rewrite length_app in Hf; simpl in Hf; lia|].
    apply chain_app in Hc as [Hc1 [_ E]].
    simpl. rewrite E.
    rewrite decide_False by (intros ->; apply Hs; apply elem_of_app; right; by left).
    rewrite rev_unit. simpl.
    rewrite IH; [done| | |rewrite length_app in Hf; simpl in Hf; lia].
    + by apply chain_relink_other.
    + intros ?. apply Hs. apply elem_of_app. by left.
Qed.

(** Covering a ring whose nodes are all linked in the other direction,
    then uncovering it, gives back the store. *)
Lemma uncover_cover_loop fuel hd l h :
  ring w h hd l -> (forall x, x ∈ hd :: l -> linked u h x) -> length l < fuel ->
  exists h', cover_loop w u fuel hd hd h = Ok h' /\
             uncover_loop w u fuel hd hd h' = Ok h.
Proof.
  intros [Hnd Hc] Hl Hf.
  pose proof Hnd as Hnd'. apply NoDup_cons in Hnd' as [Hhd _].
  eexists. split; [by apply cover_loop_run|].
  rewrite (uncover_loop_run _ _ _ l); [| |done..].
  - f_equal. change (rev l ++ [hd]) with (rev (hd :: l)).
    by apply relink_all_unlink_all.
  - by apply chain_unlink_all_other.
Qed.

End loops.

Lemma other_HV : other Hdir Vdir.
Proof. by left. Qed.
Lemma other_VH : other Vdir Hdir.
Proof. by right. Qed.

Lemma uncover_col_cover_col fuel c ys s :
  ring Vdir (DLX.store s) c ys ->
  Forall (linked Hdir (DLX.store s)) (c :: ys) ->
  length ys < fuel ->
  exists s1, DLX.cover_col fuel c s = Ok s1 /\ DLX.uncover_col fuel c s1 = Ok s.
Proof.
  intros Hr Hl Hf.
  destruct (uncover_cover_loop Vdir Hdir other_HV fuel c ys (DLX.store s))
    as (h' & E1 & E2); [done|by apply Forall_forall|done|].
  unfold DLX.cover_col, DLX.uncover_col.
  rewrite cover_col_loop_eq, E1. simpl.
  eexists. split; [done|]. simpl.
  rewrite uncover_col_loop_eq, E2. simpl.
  destruct s as [rs cs rt st]. unfold DLX.with_cols, DLX.with_store. simpl.
  do 2 f_equal. lia.
Qed.

Lemma uncover_row_cover_row fuel r zs s :
  ring Hdir (DLX.store s) r zs ->
  Forall (linked Vdir (DLX.store s)) (r :: zs) ->
  length zs < fuel ->
  exists s1, DLX.cover_row fuel r s = Ok s1 /\ DLX.uncover_row fuel r s1 = Ok s.
Proof.
  intros Hr Hl Hf.
  destruct (uncover_cover_loop Hdir Vdir other_VH fuel r zs (DLX.store s))
    as (h' & E1 & E2); [done|by apply Forall_forall|done|].
  unfold DLX.cover_row, DLX.uncover_row.
  rewrite cover_row_loop_eq, E1. simpl.
  eexists. split; [done|]. simpl.
  rewrite uncover_row_loop_eq, E2. simpl.
  destruct s as [rs cs rt st]. unfold DLX.with_rows, DLX.with_store. simpl.
  do 2 f_equal. lia.
Qed.

(** C3 as stated fails: in the state that [DLX.solve] leaves behind on
    the matrix [[1,1],[1,1]], the header of the second column is in the
    column ring, and [cover_col] followed by [uncover_col] on it does not
    give the links back.  The [up] link of this header is the header
    itself while its [down] link leads to a value node: [cover_col]
    unlinks the value nodes met walking [down], [uncover_col] walks [up]
    and relinks the header only. *)
Lemma cover_uncover_not_inverse_after_solve :
  (s ← DLX.init m_ones ab;
   '(_, s) ← DLX.solve 10 s;
   cover_uncover_col 10 3%positive s) = Ok (true, false).
Proof. vm_compute. reflexivity. Qed.

(** C3, amended.  In a state where the vertical ring of a column header
    [c] is a closed doubly linked ring [c :: ys] and each of its nodes is
    linked into its horizontal ring, [cover_col(c)] followed by
    [uncover_col(c)] gives back the very same object: every link of every
    node (and the counters) are those before the cover.  The same holds
    for [cover_row(r)] followed by [uncover_row(r)], with the roles of the
    two directions exchanged. *)
Theorem cover_uncover_inverse (s : DLX.t) (fuel : nat) :
  (forall c ys,
     ring Vdir (DLX.store s) c ys ->
     Forall (linked Hdir (DLX.store s)) (c :: ys) ->
     length ys < fuel ->
     exists s1, DLX.cover_col fuel c s = Ok s1 /\ DLX.uncover_col fuel c s1 = Ok s) /\
  (forall r zs,
     ring Hdir (DLX.store s) r zs ->
     Forall (linked Vdir (DLX.store s)) (r :: zs) ->
     length zs < fuel ->
     exists s1, DLX.cover_row fuel r s = Ok s1 /\ DLX.uncover_row fuel r s1 = Ok s).
Proof.
  split; intros; [by eapply uncover_col_cover_col|by eapply uncover_row_cover_row].
Qed.


Lemma cover_uncover_inverse_witness :
  (exists s1, DLX.cover_col 3 2%positive (fresh m_two ab) = Ok s1 /\
              DLX.uncover_col 3 2%positive s1 = Ok (fresh m_two ab)) /\
  (exists s1, DLX.cover_row 3 6%positive (fresh m_two ab) = Ok s1 /\
              DLX.uncover_row 3 6%positive s1 = Ok (fresh m_two ab)).
Proof.
  split.
  - apply (proj1 (cover_uncover_inverse (fresh m_two ab) 3) 2%positive
             [5%positive; 7%positive]).
    + apply (bool_decide_unpack _). vm_compute. exact I.
    + apply (bool_decide_unpack _). vm_compute. exact I.
    + simpl. lia.
  - apply (proj2 (cover_uncover_inverse (fresh m_two ab) 3) 6%positive
             [7%positive; 8%positive]).
    + apply (bool_decide_unpack _). vm_compute. exact I.
    + apply (bool_decide_unpack _). vm_compute. exact I.
    + simpl. lia.
Defined.

(** * Rings and the nodes linked into them *)

Section ring_facts.
Context (d : dir).

Lemma chain_prv_nxt h a l z x :
  chain d h a l z -> x ∈ a :: l -> get (prv d) h (get (nxt d) h x) = x.
Proof.
  revert a. induction l as [|b l IH]; intros a.
  - intros [<- E] Hx. apply list_elem_of_singleton in Hx as ->. done.
  - intros (<- & E & H) Hx. apply elem_of_cons in Hx as [->|Hx]; [done|].
    by eapply IH.
Qed.

Lemma chain_nxt_prv h a l z x :
  chain d h a l z -> x ∈ l ++ [z] -> get (nxt d) h (get (prv d) h x) = x.
Proof.
  revert a. induction l as [|b l IH]; intros a.
  - intros [E <-] Hx. apply list_elem_of_singleton in Hx as ->. done.
  - intros (E & <- & H) Hx. apply elem_of_cons in Hx as [->|Hx]; [done|].
    by eapply IH.
Qed.

Lemma ring_elem_end hd (l : list ref) x : x ∈ hd :: l <-> x ∈ l ++ [hd].
Proof. rewrite elem_of_cons, elem_of_app, list_elem_of_singleton. tauto. Qed.

(** A node of a ring whose nodes are allocated is linked. *)
Lemma ring_linked h hd l x :
  ring d h hd l -> Forall (allocated h) (hd :: l) -> x ∈ hd :: l -> linked d h x.
Proof.
  intros [_ Hc] Hal Hx. rewrite Forall_forall in Hal.
  pose proof Hx as Hx'. apply ring_elem_end in Hx'.
  split_and!.
  - apply Hal. by eapply chain_prv_elem'.
  - apply Hal. apply ring_elem_end. by eapply chain_nxt_elem.
  - by eapply chain_nxt_prv.
  - by eapply chain_prv_nxt.
Qed.

Lemma ring_nxt_elem h hd l x :
  ring d h hd l -> x ∈ hd :: l -> get (nxt d) h x ∈ hd :: l.
Proof. intros [_ Hc] Hx. apply ring_elem_end. by eapply chain_nxt_elem. Qed.

Lemma ring_prv_elem h hd l x :
  ring d h hd l -> x ∈ hd :: l -> get (prv d) h x ∈ hd :: l.
Proof.
  intros [_ Hc] Hx. apply ring_elem_end in Hx. by eapply chain_prv_elem'.
Qed.

End ring_facts.

(** * The rings of one direction *)

Lemma NoDup_cons_filter (P : ref -> Prop) `{!forall x, Decision (P x)} k l :
  NoDup (k :: l) -> NoDup (k :: filter P l).
Proof.
  rewrite !NoDup_cons. intros [Hk Hl]. split.
  - rewrite list_elem_of_filter. tauto.
  - by apply NoDup_filter.
Qed.

Lemma filter_diff_singleton (L : gset ref) x (l : list ref) :
  x ∉ l -> filter (.∈ L ∖ {[x]}) l = filter (.∈ L) l.
Proof.
  intros Hx. induction l as [|y l IH]; [done|].
  apply not_elem_of_cons in Hx as [Hxy Hx].
  rewrite !filter_cons. rewrite IH by done.
  destruct (decide (y ∈ L)) as [Hy|Hy].
  - rewrite decide_True by set_solver. done.
  - rewrite decide_False by set_solver. done.
Qed.

Lemma filter_ext_elem (P Q : ref -> Prop) `{!forall x, Decision (P x)}
      `{!forall x, Decision (Q x)} (l : list ref) :
  (forall x, x ∈ l -> P x <-> Q x) -> filter P l = filter Q l.
Proof.
  induction l as [|y l IH]; intros HPQ; [done|].
  rewrite !filter_cons. rewrite IH by (intros x Hx; apply HPQ; by right).
  destruct (decide (P y)) as [Hy|Hy].
  - rewrite decide_True; [done|]. apply HPQ; [by left|done].
  - rewrite decide_False; [done|]. intros HQ. apply Hy. apply HPQ; [by left|done].
Qed.

Section side.
Context (d : dir) `{!DirLaws d}.
Context (heads : list ref) (ring0 : ref -> list ref) (hd_of : ref -> ref).
Context (Hnd : Forall (fun k => NoDup (k :: ring0 k)) heads).
Context (Hhd : Forall (fun k => Forall (fun x => hd_of x = k) (k :: ring0 k)) heads).

Lemma side_head k x : k ∈ heads -> x ∈ k :: ring0 k -> hd_of x = k.
Proof.
  intros Hk Hx. rewrite Forall_forall in Hhd. specialize (Hhd k Hk).
  rewrite Forall_forall in Hhd. by apply Hhd.
Qed.

Lemma side_nodup k : k ∈ heads -> NoDup (k :: ring0 k).
Proof. intros Hk. rewrite Forall_forall in Hnd. by apply Hnd. Qed.

Lemma rings_unlink h L k0 x :
  rings d h heads ring0 L -> k0 ∈ heads -> x ∈ ring0 k0 -> x ∈ L ->
  rings d (unlink d x h) heads ring0 (L ∖ {[x]}).
Proof.
  unfold rings. rewrite !Forall_forall. intros Hr Hk0 Hx HxL k Hk.
  pose proof (Hr k0 Hk0) as Hr0.
  destruct (decide (k = k0)) as [->|Hne].
  - destruct (list_elem_of_split _ _ Hx) as (l1 & l2 & El).
    pose proof (side_nodup k0 Hk0) as Hnd0.
    rewrite El in Hnd0. rewrite El in Hr0. rewrite El.
    assert (Hx1 : (x ∉ l1) ∧ (x ∉ l2)).
    { apply NoDup_cons in Hnd0 as [_ Hnd0].
      apply NoDup_app in Hnd0 as (_ & H1 & H2).
      apply NoDup_cons in H2 as [H2 _]. split; [|done].
      intros Hin. apply (H1 x Hin). by left. }
    destruct Hx1 as [Hx1 Hx2].
    rewrite filter_app, filter_cons in Hr0 |- *.
    rewrite decide_True in Hr0 by done.
    rewrite decide_False by set_solver.
    rewrite !filter_diff_singleton by done.
    destruct Hr0 as [Hnd' Hc]. split.
    + apply NoDup_cons in Hnd' as [Hk' Hnd'].
      apply NoDup_cons. split.
      * intros Hin. apply Hk'. apply elem_of_app in Hin as [?|?];
          apply elem_of_app; [by left|right; by right].
      * apply NoDup_app in Hnd' as (H1 & H2 & H3).
        apply NoDup_cons in H3 as [_ H3].
        apply NoDup_app. split_and!; [done| |done].
        intros y Hy Hy'. apply (H2 y Hy). by right.
    + apply chain_unlink; [done|done| |done].
      replace (filter (.∈ L) l1 ++ x :: filter (.∈ L) l2 ++ [k0])
        with ((filter (.∈ L) l1 ++ x :: filter (.∈ L) l2) ++ [k0])
        by (by rewrite <- app_assoc).
      rewrite (comm (++)). done.
  - pose proof (Hr k Hk) as [Hndk Hck].
    assert (Hxk : x ∉ ring0 k).
    { intros Hin. apply Hne.
      rewrite <- (side_head k x Hk) by (by right).
      rewrite <- (side_head k0 x Hk0) by (by right). done. }
    rewrite filter_diff_singleton by done.
    split; [done|].
    assert (Hin0 : x ∈ k0 :: filter (.∈ L) (ring0 k0)).
    { right. apply list_elem_of_filter. done. }
    assert (Hsub : forall y, y ∈ k0 :: filter (.∈ L) (ring0 k0) -> hd_of y = k0).
    { intros y Hy. apply side_head; [done|].
      apply elem_of_cons in Hy as [->|Hy]; [by left|right].
      by apply list_elem_of_filter in Hy as [_ ?]. }
    assert (Hsubk : forall y, y ∈ k :: filter (.∈ L) (ring0 k) -> hd_of y = k).
    { intros y Hy. apply side_head; [done|].
      apply elem_of_cons in Hy as [->|Hy]; [by left|right].
      by apply list_elem_of_filter in Hy as [_ ?]. }
    apply chain_unlink_frame; [done| | |done].
    + intros Hin. apply Hne.
      rewrite <- (Hsubk _ Hin).
      apply Hsub. by eapply ring_prv_elem.
    + intros Hin. apply ring_elem_end in Hin. apply Hne.
      rewrite <- (Hsubk _ Hin).
      apply Hsub. by eapply ring_nxt_elem.
Qed.

Lemma rings_unlink_all h L xs :
  rings d h heads ring0 L ->
  Forall (fun x => exists k0, k0 ∈ heads /\ x ∈ ring0 k0) xs ->
  Forall (.∈ L) xs -> NoDup xs ->
  rings d (unlink_all d xs h) heads ring0 (L ∖ list_to_set xs).
Proof.
  revert h L. induction xs as [|x xs IH]; intros h L Hr Hm HL Hnd'.
  - simpl. by rewrite difference_empty_L.
  - apply Forall_cons in Hm as [(k0 & Hk0 & Hx) Hm].
    apply Forall_cons in HL as [HxL HL].
    apply NoDup_cons in Hnd' as [Hxx Hnd'].
    simpl.
    replace (L ∖ ({[x]} ∪ list_to_set xs)) with ((L ∖ {[x]}) ∖ list_to_set xs)
      by set_solver.
    apply IH; [by eapply rings_unlink|done| |done].
    rewrite Forall_forall in HL |- *. intros y Hy.
    apply elem_of_difference. split; [by apply HL|].
    apply not_elem_of_singleton. by intros ->.
Qed.

(** The nodes of the rings stay allocated. *)
Lemma rings_allocated_unlink h L k0 x :
  rings d h heads ring0 L -> k0 ∈ heads -> x ∈ ring0 k0 -> x ∈ L ->
  Forall (fun k => Forall (allocated h) (k :: ring0 k)) heads ->
  forall q, allocated (unlink d x h) q <-> allocated h q.
Proof.
  unfold rings. rewrite !Forall_forall. intros Hr Hk0 Hx HxL Hal q.
  pose proof (Hr k0 Hk0) as Hr0. specialize (Hal k0 Hk0).
  rewrite Forall_forall in Hal.
  assert (Hin0 : x ∈ k0 :: filter (.∈ L) (ring0 k0)).
  { right. apply list_elem_of_filter. done. }
  assert (Hsub : forall y, y ∈ k0 :: filter (.∈ L) (ring0 k0) -> y ∈ k0 :: ring0 k0).
  { intros y Hy. apply elem_of_cons in Hy as [->|Hy]; [by left|right].
    by apply list_elem_of_filter in Hy as [_ ?]. }
  apply allocated_unlink; [done|..].
  - apply Hal, Hsub. by eapply ring_prv_elem.
  - apply Hal, Hsub. by eapply ring_nxt_elem.
Qed.

Lemma allocated_unlink_all h L xs :
  rings d h heads ring0 L ->
  Forall (fun k => Forall (allocated h) (k :: ring0 k)) heads ->
  Forall (fun x => exists k0, k0 ∈ heads /\ x ∈ ring0 k0) xs ->
  Forall (.∈ L) xs -> NoDup xs ->
  forall q, allocated (unlink_all d xs h) q <-> allocated h q.
Proof.
  revert h L. induction xs as [|x xs IH]; intros h L Hr Hal Hm HL Hnd' q; [done|].
  apply Forall_cons in Hm as [(k0 & Hk0 & Hx) Hm].
  apply Forall_cons in HL as [HxL HL].
  apply NoDup_cons in Hnd' as [Hxx Hnd'].
  pose proof (rings_allocated_unlink h L k0 x Hr Hk0 Hx HxL Hal) as Hq.
  simpl. rewrite (IH (unlink d x h) (L ∖ {[x]})); [apply Hq|by eapply rings_unlink| |done| |done].
  - eapply Forall_impl; [exact Hal|]. intros k Hk.
    eapply Forall_impl; [exact Hk|]. intros y. simpl. by rewrite Hq.
  - rewrite Forall_forall in HL |- *. intros y Hy.
    apply elem_of_difference. split; [by apply HL|].
    apply not_elem_of_singleton. by intros ->.
Qed.

End side.

(** * What the static part of the shape gives *)

Section geo.
Context (G : geometry) (h : heap) (Hst : static G h).

Lemma root_Hhead : g_root G ∈ Hheads G.
Proof. by left. Qed.
Lemma root_Vhead : g_root G ∈ Vheads G.
Proof. by left. Qed.
Lemma row_Hhead r : r ∈ rows0 G -> r ∈ Hheads G.
Proof. by right. Qed.
Lemma col_Vhead c : c ∈ cols0 G -> c ∈ Vheads G.
Proof. by right. Qed.

Lemma Hring0_root : Hring0 G (g_root G) = cols0 G.
Proof. unfold Hring0. by rewrite decide_True. Qed.
Lemma Vring0_root : Vring0 G (g_root G) = rows0 G.
Proof. unfold Vring0. by rewrite decide_True. Qed.

Lemma nodup_H k : k ∈ Hheads G -> NoDup (k :: Hring0 G k).
Proof. intros Hk. pose proof (st_nodup_H _ _ Hst) as H. rewrite Forall_forall in H. auto. Qed.
Lemma nodup_V k : k ∈ Vheads G -> NoDup (k :: Vring0 G k).
Proof. intros Hk. pose proof (st_nodup_V _ _ Hst) as H. rewrite Forall_forall in H. auto. Qed.

Lemma col_not_root c : c ∈ cols0 G -> c <> g_root G.
Proof.
  intros Hc ->. pose proof (nodup_H _ root_Hhead) as H.
  rewrite Hring0_root in H. by apply NoDup_cons in H as [? _].
Qed.
Lemma row_not_root r : r ∈ rows0 G -> r <> g_root G.
Proof.
  intros Hr ->. pose proof (nodup_V _ root_Vhead) as H.
  rewrite Vring0_root in H. by apply NoDup_cons in H as [? _].
Qed.

Lemma Vring0_col c : c ∈ cols0 G -> Vring0 G c = V0 G c.
Proof. intros Hc. unfold Vring0. rewrite decide_False; [done|by apply col_not_root]. Qed.
Lemma Hring0_row r : r ∈ rows0 G -> Hring0 G r = H0 G r.
Proof. intros Hr. unfold Hring0. rewrite decide_False; [done|by apply row_not_root]. Qed.

Lemma hhead_of k x : k ∈ Hheads G -> x ∈ k :: Hring0 G k -> hhead h (g_root G) x = k.
Proof.
  intros Hk Hx. pose proof (st_head_H _ _ Hst) as H.
  rewrite Forall_forall in H. specialize (H k Hk).
  rewrite Forall_forall in H. auto.
Qed.
Lemma vhead_of k x : k ∈ Vheads G -> x ∈ k :: Vring0 G k -> vhead h x = k.
Proof.
  intros Hk Hx. pose proof (st_head_V _ _ Hst) as H.
  rewrite Forall_forall in H. specialize (H k Hk).
  rewrite Forall_forall in H. auto.
Qed.

Lemma vhead_col c : c ∈ cols0 G -> vhead h c = c.
Proof. intros Hc. apply vhead_of; [by apply col_Vhead|by left]. Qed.
Lemma vhead_node c y : c ∈ cols0 G -> y ∈ V0 G c -> vhead h y = c.
Proof.
  intros Hc Hy. apply vhead_of; [by apply col_Vhead|].
  right. by rewrite Vring0_col.
Qed.
Lemma vhead_row r : r ∈ rows0 G -> vhead h r = g_root G.
Proof.
  intros Hr. apply vhead_of; [by apply root_Vhead|].
  right. by rewrite Vring0_root.
Qed.
Lemma hhead_row r : r ∈ rows0 G -> hhead h (g_root G) r = r.
Proof. intros Hr. apply hhead_of; [by apply row_Hhead|by left]. Qed.
Lemma hhead_node r z : r ∈ rows0 G -> z ∈ H0 G r -> hhead h (g_root G) z = r.
Proof.
  intros Hr Hz. apply hhead_of; [by apply row_Hhead|].
  right. by rewrite Hring0_row.
Qed.
Lemma hhead_col c : c ∈ cols0 G -> hhead h (g_root G) c = g_root G.
Proof.
  intros Hc. apply hhead_of; [by apply root_Hhead|].
  right. by rewrite Hring0_root.
Qed.

Lemma cross_V c y :
  c ∈ cols0 G -> y ∈ V0 G c ->
  get Node.row h y ∈ rows0 G ∧ y ∈ H0 G (get Node.row h y).
Proof.
  intros Hc Hy. pose proof (st_cross_V _ _ Hst) as H.
  rewrite Forall_forall in H. specialize (H c Hc).
  rewrite Forall_forall in H. auto.
Qed.
Lemma cross_H r z :
  r ∈ rows0 G -> z ∈ H0 G r ->
  get Node.column h z ∈ cols0 G ∧ z ∈ V0 G (get Node.column h z).
Proof.
  intros Hr Hz. pose proof (st_cross_H _ _ Hst) as H.
  rewrite Forall_forall in H. specialize (H r Hr).
  rewrite Forall_forall in H. auto.
Qed.

(** The column of a node of a column is that column, the row of a node
    of a row is that row. *)
Lemma column_node c y : c ∈ cols0 G -> y ∈ V0 G c -> get Node.column h y = c.
Proof. apply vhead_node. Qed.

Lemma row_node r z : r ∈ rows0 G -> z ∈ H0 G r -> get Node.row h z = r.
Proof.
  intros Hr Hz. destruct (cross_H r z Hr Hz) as [Hc Hz'].
  destruct (cross_V _ _ Hc Hz') as [Hr' Hz''].
  rewrite <- (hhead_node _ z Hr' Hz''). by apply hhead_node.
Qed.

(** A value node is no header. *)
Lemma node_not_col c y c' : c ∈ cols0 G -> y ∈ V0 G c -> c' ∈ cols0 G -> y <> c'.
Proof.
  intros Hc Hy Hc' ->.
  pose proof (vhead_node _ _ Hc Hy) as E. rewrite (vhead_col _ Hc') in E. subst c'.
  pose proof (nodup_V c (col_Vhead _ Hc)) as H. rewrite Vring0_col in H by done.
  by apply NoDup_cons in H as [? _].
Qed.
Lemma node_not_row r z r' : r ∈ rows0 G -> z ∈ H0 G r -> r' ∈ rows0 G -> z <> r'.
Proof.
  intros Hr Hz Hr' ->.
  pose proof (hhead_node _ _ Hr Hz) as E. rewrite (hhead_row _ Hr') in E. subst r'.
  pose proof (nodup_H r (row_Hhead _ Hr)) as H. rewrite Hring0_row in H by done.
  by apply NoDup_cons in H as [? _].
Qed.
Lemma col_not_row c r : c ∈ cols0 G -> r ∈ rows0 G -> c <> r.
Proof.
  intros Hc Hr ->. pose proof (vhead_col _ Hc) as E.
  rewrite (vhead_row _ Hr) in E. by apply (col_not_root r).
Qed.
Lemma colnode_not_row c y r : c ∈ cols0 G -> y ∈ V0 G c -> r ∈ rows0 G -> y <> r.
Proof.
  intros Hc Hy Hr ->. pose proof (vhead_node _ _ Hc Hy) as E.
  rewrite (vhead_row _ Hr) in E. by apply (col_not_root c).
Qed.
Lemma rownode_not_col r z c : r ∈ rows0 G -> z ∈ H0 G r -> c ∈ cols0 G -> z <> c.
Proof.
  intros Hr Hz Hc ->. pose proof (hhead_node _ _ Hr Hz) as E.
  rewrite (hhead_col _ Hc) in E. by apply (row_not_root r).
Qed.

Lemma alloc_H k x : k ∈ Hheads G -> x ∈ k :: Hring0 G k -> allocated h x.
Proof.
  intros Hk Hx. pose proof (st_alloc_H _ _ Hst) as H.
  rewrite Forall_forall in H. specialize (H k Hk).
  rewrite Forall_forall in H. auto.
Qed.
Lemma alloc_V k x : k ∈ Vheads G -> x ∈ k :: Vring0 G k -> allocated h x.
Proof.
  intros Hk Hx. pose proof (st_alloc_V _ _ Hst) as H.
  rewrite Forall_forall in H. specialize (H k Hk).
  rewrite Forall_forall in H. auto.
Qed.

End geo.

(** The static part depends on the attributes that no cover or uncover
    assigns, and on which nodes are allocated. *)
Lemma static_ext G h h' :
  (forall q, get Node.row h' q = get Node.row h q) ->
  (forall q, get Node.column h' q = get Node.column h q) ->
  (forall q, get Node.size h' q = get Node.size h q) ->
  (forall q, get Node.name h' q = get Node.name h q) ->
  (forall q, allocated h' q <-> allocated h q) ->
  static G h -> static G h'.
Proof.
  intros Hr Hc Hs Hn Ha [S1 S2 S3 S4 S5 S6 S7 S8 S11 S12].
  assert (Hhh : forall x, hhead h' (g_root G) x = hhead h (g_root G) x).
  { intros x. unfold hhead. by rewrite Hs, Hr. }
  assert (Hvh : forall x, vhead h' x = vhead h x).
  { intros x. unfold vhead. by rewrite Hc. }
  split; try done.
  - eapply Forall_impl; [exact S3|]. intros k Hk.
    eapply Forall_impl; [exact Hk|]. intros x. simpl. by rewrite Hhh.
  - eapply Forall_impl; [exact S4|]. intros k Hk.
    eapply Forall_impl; [exact Hk|]. intros x. simpl. by rewrite Hvh.
  - eapply Forall_impl; [exact S5|]. intros k Hk.
    eapply Forall_impl; [exact Hk|]. intros x. simpl. by rewrite Hr.
  - eapply Forall_impl; [exact S6|]. intros k Hk.
    eapply Forall_impl; [exact Hk|]. intros x. simpl. by rewrite Hc.
  - eapply Forall_impl; [exact S7|]. intros k Hk.
    eapply Forall_impl; [exact Hk|]. intros x. simpl. by rewrite Ha.
  - eapply Forall_impl; [exact S8|]. intros k Hk.
    eapply Forall_impl; [exact Hk|]. intros x. simpl. by rewrite Ha.
  - eapply Forall_impl; [exact S11|]. intros x. simpl.
    replace (get Node.column h' <$> H0 G x) with (get Node.column h <$> H0 G x); [done|].
    apply list_fmap_ext. intros ? y _. by rewrite Hc.
  - eapply Forall_impl; [exact S12|]. intros x. simpl.
    replace (get Node.row h' <$> V0 G x) with (get Node.row h <$> V0 G x); [done|].
    apply list_fmap_ext. intros ? y _. by rewrite Hr.
Qed.

(** The names of the rows depend on the [name] attributes only. *)
Lemma labelled_ext G h h' :
  (forall q, get Node.name h' q = get Node.name h q) ->
  labelled G h -> labelled G h'.
Proof.
  intros Hn [S9 S10]. split.
  - eapply Forall_impl; [exact S9|]. intros x. simpl. by rewrite Hn.
  - replace (get Node.name h' <$> rows0 G) with (get Node.name h <$> rows0 G); [done|].
    apply list_fmap_ext. intros ? x _. by rewrite Hn.
Qed.

(** * The invariant along the cover operations *)


Lemma rings_unlink_all_other w u h heads ring0 L xs :
  other u w -> rings w h heads ring0 L -> rings w (unlink_all u xs h) heads ring0 L.
Proof.
  intros Hwu Hr. eapply Forall_impl; [exact Hr|]. intros k [Hnd Hc].
  split; [done|].
  destruct Hwu as [[-> ->]|[-> ->]].
  - by apply (chain_unlink_all_other Vdir Hdir other_HV).
  - by apply (chain_unlink_all_other Hdir Vdir other_VH).
Qed.

Section inv_steps.
Context (G : geometry).

Lemma static_unlink_all_H h L xs :
  static G h -> rings Hdir h (Hheads G) (Hring0 G) L ->
  Forall (fun x => exists k0, k0 ∈ Hheads G /\ x ∈ Hring0 G k0) xs ->
  Forall (.∈ L) xs -> NoDup xs ->
  static G (unlink_all Hdir xs h).
Proof.
  intros Hst Hr Hm HL Hnd.
  apply (static_ext G h); try done;
    try (intros q; apply (get_frame_unlink_all Hdir _)).
  apply (allocated_unlink_all Hdir (Hheads G) (Hring0 G) (hhead h (g_root G))
           (st_nodup_H _ _ Hst) (st_head_H _ _ Hst) h L xs Hr
           (st_alloc_H _ _ Hst) Hm HL Hnd).
Qed.

Lemma static_unlink_all_V h L xs :
  static G h -> rings Vdir h (Vheads G) (Vring0 G) L ->
  Forall (fun x => exists k0, k0 ∈ Vheads G /\ x ∈ Vring0 G k0) xs ->
  Forall (.∈ L) xs -> NoDup xs ->
  static G (unlink_all Vdir xs h).
Proof.
  intros Hst Hr Hm HL Hnd.
  apply (static_ext G h); try done;
    try (intros q; apply (get_frame_unlink_all Vdir _)).
  apply (allocated_unlink_all Vdir (Vheads G) (Vring0 G) (vhead h)
           (st_nodup_V _ _ Hst) (st_head_V _ _ Hst) h L xs Hr
           (st_alloc_V _ _ Hst) Hm HL Hnd).
Qed.

Lemma elem_of_diff_cons_filter (L M : gset ref) (k : ref) (l : list ref) x :
  x ∈ L ∖ list_to_set (k :: filter (.∈ M) l) <->
  x ∈ L ∧ x <> k ∧ ¬ (x ∈ l ∧ x ∈ M).
Proof.
  rewrite elem_of_difference, elem_of_list_to_set, elem_of_cons,
    list_elem_of_filter.
  tauto.
Qed.

(** The nodes that [cover_col(c)] unlinks. *)
Lemma col_nodes_ready h HL VL c :
  inv G h HL VL -> c ∈ cols0 G -> c ∈ HL ->
  Forall (fun x => exists k0, k0 ∈ Hheads G /\ x ∈ Hring0 G k0)
         (c :: filter (.∈ VL) (V0 G c)) ∧
  Forall (.∈ HL) (c :: filter (.∈ VL) (V0 G c)) ∧
  ring Vdir h c (filter (.∈ VL) (V0 G c)).
Proof.
  intros Hinv Hc HcL. pose proof (inv_static _ _ _ _ Hinv) as Hst.
  split_and!.
  - apply Forall_cons. split.
    + exists (g_root G). split; [by left|]. by rewrite Hring0_root.
    + apply Forall_forall. intros y Hy.
      apply list_elem_of_filter in Hy as [_ Hy].
      destruct (cross_V G h Hst c y Hc Hy) as [Hr Hy'].
      exists (get Node.row h y). split; [by right|].
      by rewrite (Hring0_row G h Hst).
  - apply Forall_cons. split; [done|].
    apply Forall_forall. intros y Hy.
    apply list_elem_of_filter in Hy as [_ Hy].
    by eapply inv_col_nodes.
  - pose proof (inv_rings_V _ _ _ _ Hinv) as Hr. unfold rings in Hr.
    rewrite Forall_forall in Hr. specialize (Hr c (col_Vhead G c Hc)).
    by rewrite (Vring0_col G h Hst) in Hr.
Qed.

Lemma inv_step_col h HL VL c :
  inv G h HL VL -> c ∈ cols0 G -> c ∈ HL ->
  inv G (unlink_all Hdir (c :: filter (.∈ VL) (V0 G c)) h)
        (HL ∖ list_to_set (c :: filter (.∈ VL) (V0 G c))) VL.
Proof.
  intros Hinv Hc HcL. pose proof (inv_static _ _ _ _ Hinv) as Hst.
  destruct (col_nodes_ready h HL VL c Hinv Hc HcL) as (Hm & HLs & [Hnd _]).
  pose proof (inv_rings_H _ _ _ _ Hinv) as HrH.
  split.
  - by eapply static_unlink_all_H.
  - by apply (rings_unlink_all Hdir (Hheads G) (Hring0 G) (hhead h (g_root G))
                (st_nodup_H _ _ Hst) (st_head_H _ _ Hst)).
  - apply rings_unlink_all_other; [apply other_HV|]. by eapply inv_rings_V.
  - intros c' y Hc' Hc'L Hy.
    apply elem_of_diff_cons_filter in Hc'L as (Hc'L & Hne & _).
    apply elem_of_diff_cons_filter. split_and!.
    + by eapply inv_col_nodes.
    + intros ->. by apply (node_not_col G h Hst c' c c Hc' Hy Hc).
    + intros [Hy' _]. apply Hne.
      rewrite <- (vhead_node G h Hst c' y) by done.
      by apply (vhead_node G h Hst).
  - intros r z Hr HrL Hz. by eapply inv_row_nodes.
  - intros c' y Hc' Hc'L Hy HyL.
    apply elem_of_diff_cons_filter in Hc'L as (Hc'L & Hne & _).
    rewrite (get_frame_unlink_all Hdir Node.row).
    by eapply inv_col_rows.
  - intros r z Hr HrL Hz HzL.
    apply elem_of_diff_cons_filter in HzL as (HzL & Hne & Hnz).
    rewrite (get_frame_unlink_all Hdir Node.column).
    destruct (cross_H G h Hst r z Hr Hz) as [Hcz Hz'].
    apply elem_of_diff_cons_filter. split_and!.
    + by eapply inv_row_cols.
    + intros E. apply Hnz. rewrite <- E. split; [done|].
      by eapply inv_row_nodes.
    + intros [Hin _].
      by apply (node_not_col G h Hst c _ _ Hc Hin Hcz).
Qed.

(** The nodes that [cover_row(r)] unlinks. *)
Lemma row_nodes_ready h HL VL r :
  inv G h HL VL -> r ∈ rows0 G -> r ∈ VL ->
  Forall (fun x => exists k0, k0 ∈ Vheads G /\ x ∈ Vring0 G k0)
         (r :: filter (.∈ HL) (H0 G r)) ∧
  Forall (.∈ VL) (r :: filter (.∈ HL) (H0 G r)) ∧
  ring Hdir h r (filter (.∈ HL) (H0 G r)).
Proof.
  intros Hinv Hr HrL. pose proof (inv_static _ _ _ _ Hinv) as Hst.
  split_and!.
  - apply Forall_cons. split.
    + exists (g_root G). split; [by left|]. by rewrite Vring0_root.
    + apply Forall_forall. intros z Hz.
      apply list_elem_of_filter in Hz as [_ Hz].
      destruct (cross_H G h Hst r z Hr Hz) as [Hc Hz'].
      exists (get Node.column h z). split; [by right|].
      by rewrite (Vring0_col G h Hst).
  - apply Forall_cons. split; [done|].
    apply Forall_forall. intros z Hz.
    apply list_elem_of_filter in Hz as [_ Hz].
    by eapply inv_row_nodes.
  - pose proof (inv_rings_H _ _ _ _ Hinv) as Hrr. unfold rings in Hrr.
    rewrite Forall_forall in Hrr. specialize (Hrr r (row_Hhead G r Hr)).
    by rewrite (Hring0_row G h Hst) in Hrr.
Qed.

Lemma inv_step_row h HL VL r :
  inv G h HL VL -> r ∈ rows0 G -> r ∈ VL ->
  inv G (unlink_all Vdir (r :: filter (.∈ HL) (H0 G r)) h)
        HL (VL ∖ list_to_set (r :: filter (.∈ HL) (H0 G r))).
Proof.
  intros Hinv Hr HrL. pose proof (inv_static _ _ _ _ Hinv) as Hst.
  destruct (row_nodes_ready h HL VL r Hinv Hr HrL) as (Hm & HLs & [Hnd _]).
  pose proof (inv_rings_V _ _ _ _ Hinv) as HrV.
  split.
  - by eapply static_unlink_all_V.
  - apply rings_unlink_all_other; [apply other_VH|]. by eapply inv_rings_H.
  - by apply (rings_unlink_all Vdir (Vheads G) (Vring0 G) (vhead h)
                (st_nodup_V _ _ Hst) (st_head_V _ _ Hst)).
  - intros c y Hc HcL Hy. by eapply inv_col_nodes.
  - intros r' z Hr' Hr'L Hz.
    apply elem_of_diff_cons_filter in Hr'L as (Hr'L & Hne & _).
    apply elem_of_diff_cons_filter. split_and!.
    + by eapply inv_row_nodes.
    + intros ->. by apply (node_not_row G h Hst r' r r Hr' Hz Hr).
    + intros [Hz' _]. apply Hne.
      rewrite <- (hhead_node G h Hst r' z) by done.
      by apply (hhead_node G h Hst).
  - intros c y Hc HcL Hy HyL.
    apply elem_of_diff_cons_filter in HyL as (HyL & Hne & Hny).
    rewrite (get_frame_unlink_all Vdir Node.row).
    destruct (cross_V G h Hst c y Hc Hy) as [Hry Hy'].
    apply elem_of_diff_cons_filter. split_and!.
    + by eapply inv_col_rows.
    + intros E. apply Hny. rewrite <- E. split; [done|].
      by eapply inv_col_nodes.
    + intros [Hin _].
      by apply (node_not_row G h Hst r _ _ Hr Hin Hry).
  - intros r' z Hr' Hr'L Hz HzL.
    apply elem_of_diff_cons_filter in Hr'L as (Hr'L & Hne & _).
    rewrite (get_frame_unlink_all Vdir Node.column).
    by eapply inv_row_cols.
Qed.

End inv_steps.

(** * The checks by evaluation are sound *)

Lemma forallb_Forall {A} (f : A -> bool) (P : A -> Prop) (l : list A) :
  (forall x, f x = true -> P x) -> forallb f l = true -> Forall P l.
Proof.
  intros Hf. induction l as [|x l IH]; simpl; [constructor|].
  intros H. apply andb_true_iff in H as [H1 H2]. constructor; auto.
Qed.

Lemma memb_spec x l : memb x l = true <-> x ∈ l.
Proof.
  unfold memb. induction l as [|y l IH]; simpl.
  - split; [done|]. intros H. by apply elem_of_nil in H.
  - rewrite orb_true_iff, IH, Pos.eqb_eq, elem_of_cons. done.
Qed.

Lemma nodupb_spec l : nodupb l = true -> NoDup l.
Proof.
  induction l as [|x l IH]; simpl; [constructor|].
  intros H. apply andb_true_iff in H as [H1 H2]. constructor; [|auto].
  apply negb_true_iff in H1. intros Hin. apply memb_spec in Hin. congruence.
Qed.

Lemma value_eqb_spec a b : value_eqb a b = true <-> a = b.
Proof.
  revert b. induction a as [|x|x|a1 IH1 a2 IH2]; intros [|y|y|b1 b2]; simpl;
    try (split; [done|intros [=]]).
  - done.
  - rewrite Z.eqb_eq. split; [by intros ->|by intros [= ->]].
  - rewrite String.eqb_eq. split; [by intros ->|by intros [= ->]].
  - rewrite andb_true_iff, IH1, IH2.
    split; [by intros [-> ->]|by intros [= -> ->]].
Qed.

Lemma name_eqb_spec a b : name_eqb a b = true <-> a = b.
Proof.
  destruct a as [x|], b as [y|]; simpl; try (split; [done|intros [=]]).
  - rewrite value_eqb_spec. split; [by intros ->|by intros [= ->]].
  - done.
Qed.

Lemma nodup_namesb_spec l : nodup_namesb l = true -> NoDup l.
Proof.
  induction l as [|x l IH]; simpl; [constructor|].
  intros H. apply andb_true_iff in H as [H1 H2]. constructor; [|auto].
  apply negb_true_iff in H1. intros Hin.
  assert (existsb (name_eqb x) l = true); [|congruence].
  apply existsb_exists. exists x. split; [by apply list_elem_of_In|].
  by apply name_eqb_spec.
Qed.

Lemma allocatedb_spec h p : allocatedb h p = true -> allocated h p.
Proof. unfold allocatedb, allocated. destruct (h !! p); [eauto|done]. Qed.

Lemma chainb_spec d h a l z : chainb d h a l z = true -> chain d h a l z.
Proof.
  revert a. induction l as [|b l IH]; intros a; simpl; intros H.
  - apply andb_true_iff in H as [H1 H2]. by rewrite Pos.eqb_eq in H1, H2.
  - apply andb_true_iff in H as [H H3]. apply andb_true_iff in H as [H1 H2].
    rewrite Pos.eqb_eq in H1, H2. auto.
Qed.

Lemma ringb_spec d h hd l : ringb d h hd l = true -> ring d h hd l.
Proof.
  unfold ringb, ring. intros H. apply andb_true_iff in H as [H1 H2].
  split; [by apply nodupb_spec|by apply chainb_spec].
Qed.

Lemma staticb_spec G h : staticb G h = true -> static G h.
Proof.
  unfold staticb. intros H.
  apply andb_true_iff in H as [H H10]. apply andb_true_iff in H as [H H9].
  apply andb_true_iff in H as [H H8]. apply andb_true_iff in H as [H H7].
  apply andb_true_iff in H as [H H6]. apply andb_true_iff in H as [H H5].
  apply andb_true_iff in H as [H H4]. apply andb_true_iff in H as [H H3].
  apply andb_true_iff in H as [H1 H2].
  constructor.
  - revert H1. apply forallb_Forall. intros k. apply nodupb_spec.
  - revert H2. apply forallb_Forall. intros k. apply nodupb_spec.
  - revert H3. apply forallb_Forall. intros k.
    apply forallb_Forall. intros x. apply Pos.eqb_eq.
  - revert H4. apply forallb_Forall. intros k.
    apply forallb_Forall. intros x. apply Pos.eqb_eq.
  - revert H5. apply forallb_Forall. intros c.
    apply forallb_Forall. intros y Hy. apply andb_true_iff in Hy as [Ha Hb].
    by rewrite memb_spec in Ha, Hb.
  - revert H6. apply forallb_Forall. intros r.
    apply forallb_Forall. intros z Hz. apply andb_true_iff in Hz as [Ha Hb].
    by rewrite memb_spec in Ha, Hb.
  - revert H7. apply forallb_Forall. intros k.
    apply forallb_Forall. apply allocatedb_spec.
  - revert H8. apply forallb_Forall. intros k.
    apply forallb_Forall. apply allocatedb_spec.
  - revert H9. apply forallb_Forall. intros r. apply nodupb_spec.
  - revert H10. apply forallb_Forall. intros c. apply nodupb_spec.
Qed.

Lemma labelledb_spec G h : labelledb G h = true -> labelled G h.
Proof.
  unfold labelledb. intros H. apply andb_true_iff in H as [H11 H12]. split.
  - revert H11. apply forallb_Forall. intros r.
    destruct (get Node.name h r); [eauto|done].
  - by apply nodup_namesb_spec.
Qed.

Lemma fresh_okb_spec G h : fresh_okb G h = true -> fresh_ok G h.
Proof.
  unfold fresh_okb, fresh_ok. intros H.
  apply andb_true_iff in H as [H H3]. apply andb_true_iff in H as [H1 H2].
  split_and!.
  - by apply staticb_spec.
  - revert H2. apply forallb_Forall. intros k. apply ringb_spec.
  - revert H3. apply forallb_Forall. intros k. apply ringb_spec.
Qed.

Lemma boundedb_spec G B : boundedb G B = true -> bounded G B.
Proof.
  unfold boundedb, bounded. intros H. apply andb_true_iff in H as [H1 H2]. split.
  - revert H1. apply forallb_Forall. intros k. apply Nat.leb_le.
  - revert H2. apply forallb_Forall. intros k. apply Nat.leb_le.
Qed.

Lemma same_row_crossb_spec G h : same_row_crossb G h = true -> same_row_cross G h.
Proof.
  unfold same_row_crossb, same_row_cross.
  apply forallb_Forall. intros r.
  destruct (get Node.name h r) as [[| | |[|v| |] [| | |[|i| |] [|j| |]]]|]; try done.
  cbv zeta. apply forallb_Forall. intros j' H.
  apply orb_true_iff in H as [H|H]; [left; by apply Z.eqb_eq|right].
  apply existsb_exists in H as (n & Hn & E). apply name_eqb_spec in E. subst n.
  apply list_elem_of_In, list_elem_of_fmap in Hn as (r' & E & Hr').
  apply Exists_exists. exists r'. by split.
Qed.

Lemma fresh_allocated m names :
  allocated (DLX.store (fresh m names)) 1%positive ->
  DLX.init m names = Ok (fresh m names).
Proof.
  unfold fresh. destruct (DLX.init m names) as [s| |]; [done|..];
    intros [x Hx]; simpl in Hx; by rewrite lookup_empty in Hx.
Qed.

Lemma fresh_root m names : DLX.root (fresh m names) = 1%positive.
Proof.
  unfold fresh, DLX.init.
  destruct (DLX.add_columns _ _ _ _) as [new h].
  destruct (DLX.add_rows _ _ _ _ _ _ _) as [[new' h']| |]; reflexivity.
Qed.

Lemma fresh_is_ok m names G d :
  d = fresh m names -> g_root G = DLX.root d ->
  fresh_ok G (DLX.store d) ->
  is_ok (DLX.init m names) = true.
Proof.
  intros -> Hroot [Hst _].
  pose proof (alloc_H _ _ Hst _ _ (root_Hhead _) (list_elem_of_here _ _)) as Ha.
  rewrite Hroot, fresh_root in Ha.
  by rewrite (fresh_allocated _ _ Ha).
Qed.

(** * The cover operations on a state that satisfies the invariant *)

Section runs.
Context (G : geometry).

Lemma linked_H h HL VL k0 x :
  inv G h HL VL -> k0 ∈ Hheads G -> x ∈ Hring0 G k0 -> x ∈ HL -> linked Hdir h x.
Proof.
  intros Hinv Hk0 Hx HxL. pose proof (inv_static _ _ _ _ Hinv) as Hst.
  pose proof (inv_rings_H _ _ _ _ Hinv) as Hr. unfold rings in Hr.
  rewrite Forall_forall in Hr. specialize (Hr k0 Hk0).
  eapply (ring_linked Hdir); [exact Hr| |].
  - apply Forall_forall. intros y Hy. apply (alloc_H G h Hst k0); [done|].
    apply elem_of_cons in Hy as [->|Hy]; [by left|right].
    by apply list_elem_of_filter in Hy as [_ ?].
  - right. by apply list_elem_of_filter.
Qed.

Lemma linked_V h HL VL k0 x :
  inv G h HL VL -> k0 ∈ Vheads G -> x ∈ Vring0 G k0 -> x ∈ VL -> linked Vdir h x.
Proof.
  intros Hinv Hk0 Hx HxL. pose proof (inv_static _ _ _ _ Hinv) as Hst.
  pose proof (inv_rings_V _ _ _ _ Hinv) as Hr. unfold rings in Hr.
  rewrite Forall_forall in Hr. specialize (Hr k0 Hk0).
  eapply (ring_linked Vdir); [exact Hr| |].
  - apply Forall_forall. intros y Hy. apply (alloc_V G h Hst k0); [done|].
    apply elem_of_cons in Hy as [->|Hy]; [by left|right].
    by apply list_elem_of_filter in Hy as [_ ?].
  - right. by apply list_elem_of_filter.
Qed.

Lemma run_cover_col fuel s HL VL c :
  inv G (DLX.store s) HL VL -> c ∈ cols0 G -> c ∈ HL ->
  length (V0 G c) < fuel ->
  DLX.cover_col fuel c s = Ok (step_col G c (s, HL, VL)).1.1 ∧
  DLX.uncover_col fuel c (step_col G c (s, HL, VL)).1.1 = Ok s.
Proof.
  intros Hinv Hc HcL Hf.
  destruct (col_nodes_ready G _ _ _ c Hinv Hc HcL) as (Hm & HLs & Hring).
  assert (Hf' : length (filter (.∈ VL) (V0 G c)) < fuel).
  { eapply Nat.le_lt_trans; [apply length_filter|done]. }
  destruct (uncover_cover_loop Vdir Hdir other_HV fuel c _ (DLX.store s) Hring)
    as (h' & E1 & E2); [|done|].
  { intros x Hx. rewrite Forall_forall in Hm, HLs.
    destruct (Hm x Hx) as (k0 & Hk0 & Hx0).
    eapply linked_H; [exact Hinv|exact Hk0|exact Hx0|by apply HLs]. }
  pose proof E1 as E1'.
  destruct Hring as [Hnd Hch].
  rewrite (cover_loop_run Vdir Hdir other_HV fuel c c _ _ Hch) in E1'; [|by apply NoDup_cons in Hnd as [? _]|done].
  injection E1' as <-.
  unfold DLX.cover_col, DLX.uncover_col, step_col. simpl.
  rewrite cover_col_loop_eq, E1. simpl. split; [done|].
  rewrite uncover_col_loop_eq, E2. simpl.
  destruct s as [rs cs rt st]. unfold DLX.with_cols, DLX.with_store. simpl.
  do 2 f_equal. lia.
Qed.

Lemma run_cover_row fuel s HL VL r :
  inv G (DLX.store s) HL VL -> r ∈ rows0 G -> r ∈ VL ->
  length (H0 G r) < fuel ->
  DLX.cover_row fuel r s = Ok (step_row G r (s, HL, VL)).1.1 ∧
  DLX.uncover_row fuel r (step_row G r (s, HL, VL)).1.1 = Ok s.
Proof.
  intros Hinv Hr HrL Hf.
  destruct (row_nodes_ready G _ _ _ r Hinv Hr HrL) as (Hm & HLs & Hring).
  assert (Hf' : length (filter (.∈ HL) (H0 G r)) < fuel).
  { eapply Nat.le_lt_trans; [apply length_filter|done]. }
  destruct (uncover_cover_loop Hdir Vdir other_VH fuel r _ (DLX.store s) Hring)
    as (h' & E1 & E2); [|done|].
  { intros x Hx. rewrite Forall_forall in Hm, HLs.
    destruct (Hm x Hx) as (k0 & Hk0 & Hx0).
    eapply linked_V; [exact Hinv|exact Hk0|exact Hx0|by apply HLs]. }
  pose proof E1 as E1'.
  destruct Hring as [Hnd Hch].
  rewrite (cover_loop_run Hdir Vdir other_VH fuel r r _ _ Hch) in E1'; [|by apply NoDup_cons in Hnd as [? _]|done].
  injection E1' as <-.
  unfold DLX.cover_row, DLX.uncover_row, step_row. simpl.
  rewrite cover_row_loop_eq, E1. simpl. split; [done|].
  rewrite uncover_row_loop_eq, E2. simpl.
  destruct s as [rs cs rt st]. unfold DLX.with_rows, DLX.with_store. simpl.
  do 2 f_equal. lia.
Qed.

Lemma step_col_store s HL VL c :
  DLX.store (step_col G c (s, HL, VL)).1.1
  = unlink_all Hdir (c :: filter (.∈ VL) (V0 G c)) (DLX.store s).
Proof. done. Qed.
Lemma step_col_HL s HL VL c :
  (step_col G c (s, HL, VL)).1.2 = HL ∖ list_to_set (c :: filter (.∈ VL) (V0 G c)).
Proof. done. Qed.
Lemma step_col_VL s HL VL c : (step_col G c (s, HL, VL)).2 = VL.
Proof. done. Qed.
Lemma step_row_store s HL VL r :
  DLX.store (step_row G r (s, HL, VL)).1.1
  = unlink_all Vdir (r :: filter (.∈ HL) (H0 G r)) (DLX.store s).
Proof. done. Qed.
Lemma step_row_HL s HL VL r : (step_row G r (s, HL, VL)).1.2 = HL.
Proof. done. Qed.
Lemma step_row_VL s HL VL r :
  (step_row G r (s, HL, VL)).2 = VL ∖ list_to_set (r :: filter (.∈ HL) (H0 G r)).
Proof. done. Qed.
Lemma step_col_root s HL VL c : DLX.root (step_col G c (s, HL, VL)).1.1 = DLX.root s.
Proof. done. Qed.
Lemma step_row_root s HL VL r : DLX.root (step_row G r (s, HL, VL)).1.1 = DLX.root s.
Proof. done. Qed.

Lemma inv_step_col' s HL VL c :
  inv G (DLX.store s) HL VL -> c ∈ cols0 G -> c ∈ HL ->
  inv G (DLX.store (step_col G c (s, HL, VL)).1.1)
        (step_col G c (s, HL, VL)).1.2 (step_col G c (s, HL, VL)).2.
Proof.
  intros. rewrite step_col_store, step_col_HL, step_col_VL. by apply inv_step_col.
Qed.

Lemma inv_step_row' s HL VL r :
  inv G (DLX.store s) HL VL -> r ∈ rows0 G -> r ∈ VL ->
  inv G (DLX.store (step_row G r (s, HL, VL)).1.1)
        (step_row G r (s, HL, VL)).1.2 (step_row G r (s, HL, VL)).2.
Proof.
  intros. rewrite step_row_store, step_row_HL, step_row_VL. by apply inv_step_row.
Qed.

End runs.

(** * Walking a ring and applying an operation to each node *)

Lemma cover_col_rows_loop_eq fuel c v s :
  DLX.cover_col_rows_loop fuel c v s = walk_loop Vdir Node.row DLX.cover_row fuel c v s.
Proof.
  revert v s. induction fuel as [|fuel IH]; intros v s; [done|].
  simpl. case_decide; [done|].
  destruct (DLX.cover_row fuel _ s); simpl; [apply IH|done..].
Qed.

Lemma uncover_col_rows_loop_eq fuel c v s :
  DLX.uncover_col_rows_loop fuel c v s
  = back_loop Vdir Node.row DLX.uncover_row fuel c v s.
Proof.
  revert v s. induction fuel as [|fuel IH]; intros v s; [done|].
  simpl. case_decide; [done|].
  destruct (DLX.uncover_row fuel _ s); simpl; [apply IH|done..].
Qed.

Lemma cover_row_cols_rows_loop_eq fuel r v s :
  DLX.cover_row_cols_rows_loop fuel r v s
  = walk_loop Hdir Node.column DLX.cover_col_rows fuel r v s.
Proof.
  revert v s. induction fuel as [|fuel IH]; intros v s; [done|].
  simpl. case_decide; [done|].
  destruct (DLX.cover_col_rows fuel _ s); simpl; [apply IH|done..].
Qed.

Lemma uncover_row_cols_rows_loop_eq fuel r v s :
  DLX.uncover_row_cols_rows_loop fuel r v s
  = back_loop Hdir Node.column DLX.uncover_col_rows fuel r v s.
Proof.
  revert v s. induction fuel as [|fuel IH]; intros v s; [done|].
  simpl. case_decide; [done|].
  destruct (DLX.uncover_col_rows fuel _ s); simpl; [apply IH|done..].
Qed.

Lemma chain_last_prv d h a l z :
  chain d h a l z -> get (prv d) h z = List.last l a.
Proof.
  revert a. induction l as [|b l IH]; intros a.
  - by intros [_ ?].
  - intros (_ & _ & H). apply IH in H. rewrite H.
    destruct l as [|b' l]; [done|]. clear. revert b'.
    induction l as [|b'' l IH]; intros b'; [done|]. simpl in *. apply IH.
Qed.

Section walk.
Context (w : dir) (key : Node.t -> ref).
Context (op unop : nat -> ref -> DLX.t -> res DLX.t).
Context (stop : ref) (Y : list ref) (st_at : list ref -> DLX.t) (n : nat).
Context (Hop : forall pre x post fuel,
            Y = pre ++ x :: post -> n <= fuel ->
            op fuel (get key (DLX.store (st_at pre)) x) (st_at pre)
            = Ok (st_at (pre ++ [x]))).
Context (Hunop : forall pre x post fuel,
            Y = pre ++ x :: post -> n <= fuel ->
            unop fuel (get key (DLX.store (st_at (pre ++ [x]))) x)
                 (st_at (pre ++ [x]))
            = Ok (st_at pre)).
Context (Hchain : forall pre post,
            Y = pre ++ post -> chain w (DLX.store (st_at pre)) stop Y stop).
Context (Hstop : stop ∉ Y).

Lemma walk_loop_run pre post fuel :
  Y = pre ++ post -> n + length post < fuel ->
  walk_loop w key op fuel stop (hd stop post) (st_at pre) = Ok (st_at Y).
Proof.
  revert pre fuel. induction post as [|x post IH]; intros pre fuel HY Hf.
  - destruct fuel as [|fuel]; [lia|]. simpl.
    rewrite decide_True by done. rewrite HY. by rewrite app_nil_r.
  - destruct fuel as [|fuel]; [lia|]. simpl in *.
    rewrite decide_False.
    2:{ intros ->. apply Hstop. rewrite HY. apply elem_of_app. right. by left. }
    rewrite (Hop pre x post) by (done || lia). simpl.
    assert (HY' : Y = (pre ++ [x]) ++ post) by (by rewrite <- app_assoc).
    pose proof (Hchain _ _ HY') as Hc. rewrite HY in Hc at 1.
    apply chain_app in Hc as [_ Hc]. apply chain_first in Hc. rewrite Hc.
    apply IH; [done|lia].
Qed.

Lemma back_loop_run pre post fuel :
  Y = pre ++ post -> n + length pre < fuel ->
  back_loop w key unop fuel stop (List.last pre stop) (st_at pre) = Ok (st_at []).
Proof.
  revert post fuel. induction pre as [|x pre IH] using rev_ind; intros post fuel HY Hf.
  - destruct fuel as [|fuel]; [lia|]. simpl. by rewrite decide_True.
  - destruct fuel as [|fuel]; [lia|]. rewrite length_app in Hf. simpl in Hf.
    rewrite last_last. simpl.
    rewrite decide_False.
    2:{ intros ->. apply Hstop. rewrite HY. apply elem_of_app. left.
        apply elem_of_app. right. by left. }
    rewrite <- app_assoc in HY. simpl in HY.
    rewrite (Hunop pre x post) by (done || lia). simpl.
    pose proof (Hchain _ _ HY) as Hc. rewrite HY in Hc at 1.
    apply chain_app in Hc as [Hc _]. apply chain_last_prv in Hc. rewrite Hc.
    eapply IH; [done|lia].
Qed.

End walk.

(** * [cover_col_rows] on a state that satisfies the invariant *)

Lemma bounded_H G B k : bounded G B -> k ∈ Hheads G -> length (Hring0 G k) <= B.
Proof. intros [H _] Hk. rewrite Forall_forall in H. auto. Qed.
Lemma bounded_V G B k : bounded G B -> k ∈ Vheads G -> length (Vring0 G k) <= B.
Proof. intros [_ H] Hk. rewrite Forall_forall in H. auto. Qed.

Section level2.
Context (G : geometry) (B : nat) (HB : bounded G B).
Context (s : DLX.t) (HL VL : gset ref) (c : ref).
Context (Hinv : inv G (DLX.store s) HL VL).
Context (Hc : c ∈ cols0 G) (HcL : c ∈ HL).

Let Y := filter (.∈ VL) (V0 G c).
Let rowf := get Node.row (DLX.store s).
Let HL1 := HL ∖ list_to_set (c :: Y).
Let at2 (pre : list ref) : cfg :=
  fold_left (fun k y => step_row G (rowf y) k) pre (step_col G c (s, HL, VL)).

Let Hst : static G (DLX.store s) := inv_static _ _ _ _ Hinv.

Lemma Y_nodup : NoDup (c :: Y).
Proof. by destruct (col_nodes_ready G _ _ _ c Hinv Hc HcL) as (_ & _ & [? _]). Qed.

Lemma Y_in y : y ∈ Y -> y ∈ V0 G c ∧ y ∈ VL.
Proof. intros Hy. apply list_elem_of_filter in Hy. tauto. Qed.

Lemma Y_row y : y ∈ Y -> rowf y ∈ rows0 G ∧ y ∈ H0 G (rowf y) ∧ rowf y ∈ VL.
Proof.
  intros Hy. apply Y_in in Hy as [Hy HyL].
  destruct (cross_V G _ Hst c y Hc Hy) as [H1 H2]. split_and!; try done.
  by eapply inv_col_rows.
Qed.

Lemma Y_row_inj y y' : y ∈ Y -> y' ∈ Y -> rowf y = rowf y' -> y = y'.
Proof.
  intros Hy Hy' E. apply Y_in in Hy as [Hy _]. apply Y_in in Hy' as [Hy' _].
  pose proof (st_inj_V _ _ Hst) as Hin. rewrite Forall_forall in Hin.
  specialize (Hin c Hc).
  apply list_elem_of_lookup in Hy as [i Hi].
  apply list_elem_of_lookup in Hy' as [j Hj].
  assert (i = j); [|congruence].
  eapply NoDup_lookup; [exact Hin|..].
  - rewrite list_lookup_fmap, Hi. done.
  - rewrite list_lookup_fmap, Hj. simpl. f_equal. symmetry. exact E.
Qed.

(** The state after the rows of a prefix of the column have been
    covered. *)
Lemma at2_facts pre post :
  Y = pre ++ post ->
  inv G (DLX.store (at2 pre).1.1) (at2 pre).1.2 (at2 pre).2 ∧
  (at2 pre).1.2 = HL1 ∧
  (at2 pre).2 ⊆ VL ∧
  (forall x, x ∈ VL -> x ∉ (at2 pre).2 ->
             exists y, y ∈ pre ∧ (x = rowf y ∨ (x ∈ H0 G (rowf y) ∧ x ∈ HL1))) ∧
  (forall y, y ∈ pre -> rowf y ∉ (at2 pre).2) ∧
  (forall q, get Node.row (DLX.store (at2 pre).1.1) q = rowf q) ∧
  (forall q, get Node.column (DLX.store (at2 pre).1.1) q
             = get Node.column (DLX.store s) q) ∧
  DLX.root (at2 pre).1.1 = DLX.root s ∧
  (forall q, get Node.name (DLX.store (at2 pre).1.1) q
             = get Node.name (DLX.store s) q).
Proof.
  revert post. induction pre as [|y pre IH] using rev_ind; intros post HY.
  - unfold at2. cbn [fold_left].
    rewrite step_col_store, step_col_HL, step_col_VL. split_and!.
    + by apply inv_step_col.
    + done.
    + done.
    + intros x Hx Hx'. done.
    + intros y Hy. by apply elem_of_nil in Hy.
    + intros q. apply (get_frame_unlink_all Hdir Node.row).
    + intros q. apply (get_frame_unlink_all Hdir Node.column).
    + done.
    + intros q. apply (get_frame_unlink_all Hdir Node.name).
  - rewrite <- app_assoc in HY. simpl in HY.
    destruct (IH _ HY) as (I1 & I2 & I3 & I4 & I5 & I6 & I7 & I8 & I9).
    assert (HyY : y ∈ Y).
    { rewrite HY. apply elem_of_app. right. by left. }
    destruct (Y_row y HyY) as (Hr1 & Hr2 & Hr3).
    assert (Hlive : rowf y ∈ (at2 pre).2).
    { destruct (decide (rowf y ∈ (at2 pre).2)) as [|Hn]; [done|exfalso].
      destruct (I4 _ Hr3 Hn) as (y' & Hy' & [E|[E _]]).
      - assert (y = y').
        { apply Y_row_inj; [done| |done].
          rewrite HY. apply elem_of_app. by left. }
        subst y'. pose proof Y_nodup as Hnd. apply NoDup_cons in Hnd as [_ Hnd].
        fold Y in Hnd. rewrite HY in Hnd. apply NoDup_app in Hnd as (_ & Hnd & _).
        apply (Hnd y Hy'). by left.
      - assert (Hy'Y : y' ∈ Y) by (rewrite HY; apply elem_of_app; by left).
        destruct (Y_row y' Hy'Y) as (Hr1' & _ & _).
        by apply (node_not_row G _ Hst _ _ _ Hr1' E Hr1). }
    assert (Estep : at2 (pre ++ [y]) = step_row G (rowf y) (at2 pre)).
    { unfold at2. by rewrite fold_left_app. }
    rewrite Estep. clear Estep.
    destruct (at2 pre) as [[sp HLp] VLp] eqn:Ep.
    simpl in I1, I2, I3, I4, I5, I6, I7, I8, I9, Hlive.
    subst HLp.
    rewrite step_row_store, step_row_HL, step_row_VL, step_row_root. split_and!.
    + by apply inv_step_row.
    + done.
    + intros x Hx. apply elem_of_difference in Hx as [Hx _]. by apply I3.
    + intros x Hx Hx'.
      destruct (decide (x ∈ VLp)) as [Hin|Hn].
      * exists y. split; [apply elem_of_app; right; by left|].
        assert (Hxs : x ∈ (list_to_set (rowf y :: filter (.∈ HL1) (H0 G (rowf y))) : gset ref)).
        { destruct (decide (x ∈ (list_to_set (rowf y :: filter (.∈ HL1) (H0 G (rowf y))) : gset ref)))
            as [|Hno]; [done|exfalso].
          apply Hx'. apply elem_of_difference. done. }
        apply elem_of_list_to_set, elem_of_cons in Hxs as [->|Hxs]; [by left|right].
        by apply list_elem_of_filter in Hxs as [? ?].
      * destruct (I4 x Hx Hn) as (y' & Hy' & Hd).
        exists y'. split; [apply elem_of_app; by left|done].
    + intros y' Hy'. apply elem_of_app in Hy' as [Hy'|Hy'].
      * specialize (I5 y' Hy'). intros Hin.
        apply elem_of_difference in Hin as [Hin _]. done.
      * apply list_elem_of_singleton in Hy' as ->. intros Hin.
        apply elem_of_difference in Hin as [_ Hin]. apply Hin.
        apply elem_of_list_to_set. by left.
    + intros q. rewrite (get_frame_unlink_all Vdir Node.row). apply I6.
    + intros q. rewrite (get_frame_unlink_all Vdir Node.column). apply I7.
    + done.
    + intros q. rewrite (get_frame_unlink_all Vdir Node.name). apply I9.
Qed.

(** The ring of the column is not touched while its rows are covered. *)
Lemma at2_ring pre post :
  Y = pre ++ post -> filter (.∈ (at2 pre).2) (V0 G c) = Y.
Proof.
  intros HY. destruct (at2_facts pre post HY) as (I1 & I2 & I3 & I4 & I5 & I6 & _).
  apply filter_ext_elem. intros x Hx. split; [apply I3|].
  intros HxL. destruct (decide (x ∈ (at2 pre).2)) as [|Hn]; [done|exfalso].
  destruct (I4 x HxL Hn) as (y & Hy & [E|[E1 E2]]).
  - assert (HyY : y ∈ Y) by (rewrite HY; apply elem_of_app; by left).
    destruct (Y_row y HyY) as (Hr1 & _ & _).
    by apply (colnode_not_row G _ Hst c x (rowf y)).
  - unfold HL1 in E2. apply elem_of_diff_cons_filter in E2 as (_ & _ & E2).
    apply E2. done.
Qed.

Lemma at2_snoc pre y : at2 (pre ++ [y]) = step_row G (rowf y) (at2 pre).
Proof. unfold at2. by rewrite fold_left_app. Qed.

Lemma at2_live pre x post : Y = pre ++ x :: post -> rowf x ∈ (at2 pre).2.
Proof.
  intros HY. destruct (at2_facts pre _ HY) as (I1 & I2 & I3 & I4 & I5 & I6 & _).
  assert (HxY : x ∈ Y) by (rewrite HY; apply elem_of_app; right; by left).
  destruct (Y_row x HxY) as (Hr1 & Hr2 & Hr3).
  destruct (decide (rowf x ∈ (at2 pre).2)) as [|Hn]; [done|exfalso].
  destruct (I4 _ Hr3 Hn) as (y' & Hy' & [E|[E _]]).
  - assert (x = y').
    { apply Y_row_inj; [done| |done].
      rewrite HY. apply elem_of_app. by left. }
    subst y'. pose proof Y_nodup as Hnd. apply NoDup_cons in Hnd as [_ Hnd].
    fold Y in Hnd. rewrite HY in Hnd. apply NoDup_app in Hnd as (_ & Hnd & _).
    apply (Hnd x Hy'). by left.
  - assert (Hy'Y : y' ∈ Y) by (rewrite HY; apply elem_of_app; by left).
    destruct (Y_row y' Hy'Y) as (Hr1' & _ & _).
    by apply (node_not_row G _ Hst _ _ _ Hr1' E Hr1).
Qed.

Lemma at2_op pre x post fuel :
  Y = pre ++ x :: post -> S B <= fuel ->
  DLX.cover_row fuel (get Node.row (DLX.store (at2 pre).1.1) x) (at2 pre).1.1
  = Ok (at2 (pre ++ [x])).1.1 ∧
  DLX.uncover_row fuel (get Node.row (DLX.store (at2 (pre ++ [x])).1.1) x)
                  (at2 (pre ++ [x])).1.1
  = Ok (at2 pre).1.1.
Proof.
  intros HY Hf. destruct (at2_facts pre _ HY) as (I1 & I2 & I3 & I4 & I5 & I6 & _).
  assert (HY' : Y = (pre ++ [x]) ++ post) by (by rewrite <- app_assoc).
  destruct (at2_facts _ _ HY') as (_ & _ & _ & _ & _ & I6' & _).
  rewrite I6, I6'. rewrite at2_snoc.
  assert (HxY : x ∈ Y) by (rewrite HY; apply elem_of_app; right; by left).
  destruct (Y_row x HxY) as (Hr1 & Hr2 & Hr3).
  pose proof (at2_live pre x post HY) as Hlive.
  destruct (at2 pre) as [[sp HLp] VLp]. simpl in I1, Hlive.
  apply run_cover_row; [done..|].
  pose proof (bounded_H G B _ HB (row_Hhead G _ Hr1)) as Hb.
  rewrite (Hring0_row G _ Hst) in Hb by done. lia.
Qed.

Lemma at2_chain pre post :
  Y = pre ++ post -> chain Vdir (DLX.store (at2 pre).1.1) c Y c.
Proof.
  intros HY. destruct (at2_facts pre _ HY) as (I1 & _).
  pose proof (inv_rings_V _ _ _ _ I1) as Hr. unfold rings in Hr.
  rewrite Forall_forall in Hr. specialize (Hr c (col_Vhead G c Hc)).
  rewrite (Vring0_col G _ Hst) in Hr by done.
  rewrite (at2_ring pre post HY) in Hr. by destruct Hr.
Qed.

Lemma at2_all : at2 Y = step_col_rows G c (s, HL, VL).
Proof. done. Qed.

Lemma run_cover_col_rows fuel :
  B + B + 2 <= fuel ->
  DLX.cover_col_rows fuel c s = Ok (step_col_rows G c (s, HL, VL)).1.1 ∧
  DLX.uncover_col_rows fuel c (step_col_rows G c (s, HL, VL)).1.1 = Ok s.
Proof.
  intros Hf.
  pose proof (bounded_V G B _ HB (col_Vhead G _ Hc)) as Hb.
  rewrite (Vring0_col G _ Hst) in Hb by done.
  assert (HlY : length Y <= B).
  { etrans; [apply length_filter|done]. }
  destruct (run_cover_col G fuel s HL VL c Hinv Hc HcL) as [E1 E2]; [lia|].
  pose proof Y_nodup as Hnd. apply NoDup_cons in Hnd as [HcY _].
  rewrite <- at2_all. split.
  - unfold DLX.cover_col_rows. rewrite E1, bind_Ok.
    change (step_col G c (s, HL, VL)) with (at2 []).
    rewrite cover_col_rows_loop_eq.
    pose proof (chain_first _ _ _ _ _ (at2_chain [] Y eq_refl)) as Efirst.
    cbn [nxt Vdir] in Efirst. rewrite Efirst. clear Efirst.
    apply (walk_loop_run Vdir Node.row DLX.cover_row c Y
             (fun pre => (at2 pre).1.1) (S B)) with (pre := []) (post := Y);
      [| |done|done|lia].
    + intros pre x post f HY Hf'. by destruct (at2_op pre x post f HY Hf').
    + intros pre post HY. by apply (at2_chain pre post).
  - unfold DLX.uncover_col_rows. rewrite uncover_col_rows_loop_eq.
    pose proof (chain_last_prv _ _ _ _ _ (at2_chain Y [] (eq_sym (app_nil_r _))))
      as Elast.
    cbn [prv Vdir] in Elast. rewrite Elast. clear Elast.
    rewrite (back_loop_run Vdir Node.row DLX.uncover_row c Y
             (fun pre => (at2 pre).1.1) (S B)) with (pre := Y) (post := []);
      [|..|by rewrite app_nil_r|lia].
    + rewrite bind_Ok. exact E2.
    + intros pre x post f HY Hf'. by destruct (at2_op pre x post f HY Hf').
    + intros pre post HY. by apply (at2_chain pre post).
    + done.
Qed.

(** What [cover_col_rows(c)] leaves behind. *)
Lemma step_col_rows_post :
  let k := step_col_rows G c (s, HL, VL) in
  inv G (DLX.store k.1.1) k.1.2 k.2 ∧
  k.1.2 = HL ∖ list_to_set (c :: filter (.∈ VL) (V0 G c)) ∧
  k.2 ⊆ VL ∧
  (forall y, y ∈ V0 G c -> get Node.row (DLX.store s) y ∉ k.2) ∧
  (forall q, get Node.row (DLX.store k.1.1) q = get Node.row (DLX.store s) q) ∧
  (forall q, get Node.column (DLX.store k.1.1) q = get Node.column (DLX.store s) q) ∧
  DLX.root k.1.1 = DLX.root s ∧
  (forall q, get Node.name (DLX.store k.1.1) q = get Node.name (DLX.store s) q).
Proof.
  intros k. unfold k. rewrite <- at2_all.
  destruct (at2_facts Y [] (eq_sym (app_nil_r _)))
    as (I1 & I2 & I3 & I4 & I5 & I6 & I7 & I8 & I9).
  split_and!; try done.
  intros y Hy. destruct (decide (y ∈ VL)) as [HyL|HyL].
  - apply I5. by apply list_elem_of_filter.
  - intros Hin. apply I3 in Hin. apply HyL.
    destruct (cross_V G _ Hst c y Hc Hy) as [H1 H2].
    by eapply inv_row_nodes.
Qed.

End level2.

(** * [cover_row_cols_rows] on a state that satisfies the invariant *)

Section level3.
Context (G : geometry) (B : nat) (HB : bounded G B).
Context (s : DLX.t) (HL VL : gset ref) (r : ref).
Context (Hinv : inv G (DLX.store s) HL VL).
Context (Hr : r ∈ rows0 G) (HrL : r ∈ VL).

Let Z := filter (.∈ HL) (H0 G r).
Let colf := get Node.column (DLX.store s).
Let rowf := get Node.row (DLX.store s).
Let VL1 := VL ∖ list_to_set (r :: Z).
Let at3 (pre : list ref) : cfg :=
  fold_left (fun k z => step_col_rows G (colf z) k) pre (step_row G r (s, HL, VL)).

Let Hst : static G (DLX.store s) := inv_static _ _ _ _ Hinv.

Lemma Z_nodup : NoDup (r :: Z).
Proof. by destruct (row_nodes_ready G _ _ _ r Hinv Hr HrL) as (_ & _ & [? _]). Qed.

Lemma Z_in z : z ∈ Z -> z ∈ H0 G r ∧ z ∈ HL.
Proof. intros Hz. apply list_elem_of_filter in Hz. tauto. Qed.

Lemma Z_col z : z ∈ Z -> colf z ∈ cols0 G ∧ z ∈ V0 G (colf z) ∧ colf z ∈ HL.
Proof.
  intros Hz. apply Z_in in Hz as [Hz HzL].
  destruct (cross_H G _ Hst r z Hr Hz) as [H1 H2]. split_and!; try done.
  by eapply inv_row_cols.
Qed.

Lemma Z_col_inj z z' : z ∈ Z -> z' ∈ Z -> colf z = colf z' -> z = z'.
Proof.
  intros Hz Hz' E. apply Z_in in Hz as [Hz _]. apply Z_in in Hz' as [Hz' _].
  pose proof (st_inj_H _ _ Hst) as Hin. rewrite Forall_forall in Hin.
  specialize (Hin r Hr).
  apply list_elem_of_lookup in Hz as [i Hi].
  apply list_elem_of_lookup in Hz' as [j Hj].
  assert (i = j); [|congruence].
  eapply NoDup_lookup; [exact Hin|..].
  - rewrite list_lookup_fmap, Hi. done.
  - rewrite list_lookup_fmap, Hj. simpl. f_equal. symmetry. exact E.
Qed.

Lemma at3_snoc pre z : at3 (pre ++ [z]) = step_col_rows G (colf z) (at3 pre).
Proof. unfold at3. by rewrite fold_left_app. Qed.

(** The state after the columns of a prefix of the row have been
    covered with their rows. *)
Lemma at3_facts pre post :
  Z = pre ++ post ->
  inv G (DLX.store (at3 pre).1.1) (at3 pre).1.2 (at3 pre).2 ∧
  (at3 pre).1.2 ⊆ HL ∧
  (at3 pre).2 ⊆ VL1 ∧
  (forall x, x ∈ HL -> x ∉ (at3 pre).1.2 ->
             exists z, z ∈ pre ∧ (x = colf z ∨ (x ∈ V0 G (colf z) ∧ x ∈ VL1))) ∧
  (forall z y, z ∈ pre -> y ∈ V0 G (colf z) -> rowf y ∉ (at3 pre).2) ∧
  (forall q, get Node.row (DLX.store (at3 pre).1.1) q = rowf q) ∧
  (forall q, get Node.column (DLX.store (at3 pre).1.1) q = colf q) ∧
  DLX.root (at3 pre).1.1 = DLX.root s ∧
  (forall q, get Node.name (DLX.store (at3 pre).1.1) q
             = get Node.name (DLX.store s) q).
Proof.
  revert post. induction pre as [|z pre IH] using rev_ind; intros post HZ.
  - unfold at3. cbn [fold_left].
    rewrite step_row_store, step_row_HL, step_row_VL, step_row_root. split_and!.
    + by apply inv_step_row.
    + done.
    + done.
    + intros x Hx Hx'. done.
    + intros z y Hz. by apply elem_of_nil in Hz.
    + intros q. apply (get_frame_unlink_all Vdir Node.row).
    + intros q. apply (get_frame_unlink_all Vdir Node.column).
    + done.
    + intros q. apply (get_frame_unlink_all Vdir Node.name).
  - rewrite <- app_assoc in HZ. simpl in HZ.
    destruct (IH _ HZ) as (I1 & I2 & I3 & I4 & I5 & I6 & I7 & I8 & I9).
    assert (HzZ : z ∈ Z).
    { rewrite HZ. apply elem_of_app. right. by left. }
    destruct (Z_col z HzZ) as (Hc1 & Hc2 & Hc3).
    assert (Hlive : colf z ∈ (at3 pre).1.2).
    { destruct (decide (colf z ∈ (at3 pre).1.2)) as [|Hn]; [done|exfalso].
      destruct (I4 _ Hc3 Hn) as (z' & Hz' & [E|[E _]]).
      - assert (z = z').
        { apply Z_col_inj; [done| |done].
          rewrite HZ. apply elem_of_app. by left. }
        subst z'. pose proof Z_nodup as Hnd. apply NoDup_cons in Hnd as [_ Hnd].
        fold Z in Hnd. rewrite HZ in Hnd. apply NoDup_app in Hnd as (_ & Hnd & _).
        apply (Hnd z Hz'). by left.
      - assert (Hz'Z : z' ∈ Z) by (rewrite HZ; apply elem_of_app; by left).
        destruct (Z_col z' Hz'Z) as (Hc1' & _ & _).
        by apply (node_not_col G _ Hst _ _ _ Hc1' E Hc1). }
    rewrite at3_snoc.
    destruct (at3 pre) as [[sp HLp] VLp] eqn:Ep.
    simpl in I1, I2, I3, I4, I5, I6, I7, I8, I9, Hlive.
    destruct (step_col_rows_post G sp HLp VLp (colf z) I1 Hc1 Hlive)
      as (P1 & P2 & P3 & P4 & P5 & P6 & P7 & P8).
    split_and!.
    + done.
    + rewrite P2. intros x Hx. apply elem_of_difference in Hx as [Hx _]. by apply I2.
    + intros x Hx. apply I3. by apply P3.
    + intros x Hx Hx'.
      destruct (decide (x ∈ HLp)) as [Hin|Hn].
      * exists z. split; [apply elem_of_app; right; by left|].
        rewrite P2 in Hx'.
        assert (Hxs : x ∈ (list_to_set (colf z :: filter (.∈ VLp) (V0 G (colf z)))
                            : gset ref)).
        { destruct (decide (x ∈ (list_to_set
             (colf z :: filter (.∈ VLp) (V0 G (colf z))) : gset ref)))
            as [|Hno]; [done|exfalso].
          apply Hx'. apply elem_of_difference. done. }
        apply elem_of_list_to_set, elem_of_cons in Hxs as [->|Hxs]; [by left|right].
        apply list_elem_of_filter in Hxs as [? ?]. split; [done|]. by apply I3.
      * destruct (I4 x Hx Hn) as (z' & Hz' & Hd).
        exists z'. split; [apply elem_of_app; by left|done].
    + intros z' y Hz' Hy. apply elem_of_app in Hz' as [Hz'|Hz'].
      * intros Hin. apply (I5 z' y Hz' Hy). by apply P3.
      * apply list_elem_of_singleton in Hz' as ->.
        rewrite <- I6. by apply P4.
    + intros q. rewrite P5. apply I6.
    + intros q. rewrite P6. apply I7.
    + by rewrite P7.
    + intros q. rewrite P8. apply I9.
Qed.

Lemma at3_live pre z post :
  Z = pre ++ z :: post -> colf z ∈ cols0 G ∧ colf z ∈ (at3 pre).1.2.
Proof.
  intros HZ. destruct (at3_facts pre _ HZ) as (I1 & I2 & I3 & I4 & _).
  assert (HzZ : z ∈ Z) by (rewrite HZ; apply elem_of_app; right; by left).
  destruct (Z_col z HzZ) as (Hc1 & Hc2 & Hc3). split; [done|].
  destruct (decide (colf z ∈ (at3 pre).1.2)) as [|Hn]; [done|exfalso].
  destruct (I4 _ Hc3 Hn) as (z' & Hz' & [E|[E _]]).
  - assert (z = z').
    { apply Z_col_inj; [done| |done].
      rewrite HZ. apply elem_of_app. by left. }
    subst z'. pose proof Z_nodup as Hnd. apply NoDup_cons in Hnd as [_ Hnd].
    fold Z in Hnd. rewrite HZ in Hnd. apply NoDup_app in Hnd as (_ & Hnd & _).
    apply (Hnd z Hz'). by left.
  - assert (Hz'Z : z' ∈ Z) by (rewrite HZ; apply elem_of_app; by left).
    destruct (Z_col z' Hz'Z) as (Hc1' & _ & _).
    by apply (node_not_col G _ Hst _ _ _ Hc1' E Hc1).
Qed.

(** The ring of the row is not touched while its columns are covered. *)
Lemma at3_ring pre post :
  Z = pre ++ post -> filter (.∈ (at3 pre).1.2) (H0 G r) = Z.
Proof.
  intros HZ. destruct (at3_facts pre post HZ) as (I1 & I2 & I3 & I4 & _).
  apply filter_ext_elem. intros x Hx. split; [apply I2|].
  intros HxL. destruct (decide (x ∈ (at3 pre).1.2)) as [|Hn]; [done|exfalso].
  destruct (I4 x HxL Hn) as (z & Hz & [E|[E1 E2]]).
  - assert (HzZ : z ∈ Z) by (rewrite HZ; apply elem_of_app; by left).
    destruct (Z_col z HzZ) as (Hc1 & _ & _).
    by apply (rownode_not_col G _ Hst r x (colf z)).
  - unfold VL1 in E2. apply elem_of_diff_cons_filter in E2 as (_ & _ & E2).
    apply E2. done.
Qed.

Lemma at3_op pre z post fuel :
  Z = pre ++ z :: post -> B + B + 2 <= fuel ->
  DLX.cover_col_rows fuel (get Node.column (DLX.store (at3 pre).1.1) z) (at3 pre).1.1
  = Ok (at3 (pre ++ [z])).1.1 ∧
  DLX.uncover_col_rows fuel (get Node.column (DLX.store (at3 (pre ++ [z])).1.1) z)
                       (at3 (pre ++ [z])).1.1
  = Ok (at3 pre).1.1.
Proof.
  intros HZ Hf. destruct (at3_facts pre _ HZ) as (I1 & _ & _ & _ & _ & _ & I7 & _).
  assert (HZ' : Z = (pre ++ [z]) ++ post) by (by rewrite <- app_assoc).
  destruct (at3_facts _ _ HZ') as (_ & _ & _ & _ & _ & _ & I7' & _).
  rewrite I7, I7'. rewrite at3_snoc.
  destruct (at3_live pre z post HZ) as [Hc1 Hlive].
  destruct (at3 pre) as [[sp HLp] VLp]. simpl in I1, Hlive.
  by apply (run_cover_col_rows G B HB).
Qed.

Lemma at3_chain pre post :
  Z = pre ++ post -> chain Hdir (DLX.store (at3 pre).1.1) r Z r.
Proof.
  intros HZ. destruct (at3_facts pre _ HZ) as (I1 & _).
  pose proof (inv_rings_H _ _ _ _ I1) as Hrr. unfold rings in Hrr.
  rewrite Forall_forall in Hrr. specialize (Hrr r (row_Hhead G r Hr)).
  rewrite (Hring0_row G _ Hst) in Hrr by done.
  rewrite (at3_ring pre post HZ) in Hrr. by destruct Hrr.
Qed.

Lemma at3_all : at3 Z = step_row_cols_rows G r (s, HL, VL).
Proof. done. Qed.

Lemma run_cover_row_cols_rows fuel :
  B + B + B + 3 <= fuel ->
  DLX.cover_row_cols_rows fuel r s = Ok (step_row_cols_rows G r (s, HL, VL)).1.1 ∧
  DLX.uncover_row_cols_rows fuel r (step_row_cols_rows G r (s, HL, VL)).1.1 = Ok s.
Proof.
  intros Hf.
  pose proof (bounded_H G B _ HB (row_Hhead G _ Hr)) as Hb.
  rewrite (Hring0_row G _ Hst) in Hb by done.
  assert (HlZ : length Z <= B).
  { etrans; [apply length_filter|done]. }
  destruct (run_cover_row G fuel s HL VL r Hinv Hr HrL) as [E1 E2]; [lia|].
  pose proof Z_nodup as Hnd. apply NoDup_cons in Hnd as [HrZ _].
  rewrite <- at3_all. split.
  - unfold DLX.cover_row_cols_rows. rewrite E1, bind_Ok.
    change (step_row G r (s, HL, VL)) with (at3 []).
    rewrite cover_row_cols_rows_loop_eq.
    pose proof (chain_first _ _ _ _ _ (at3_chain [] Z eq_refl)) as Efirst.
    cbn [nxt Hdir] in Efirst. rewrite Efirst. clear Efirst.
    apply (walk_loop_run Hdir Node.column DLX.cover_col_rows r Z
             (fun pre => (at3 pre).1.1) (B + B + 2)) with (pre := []) (post := Z);
      [| |done|done|lia].
    + intros pre x post f HZ Hf'. by destruct (at3_op pre x post f HZ Hf').
    + intros pre post HZ. by apply (at3_chain pre post).
  - unfold DLX.uncover_row_cols_rows. rewrite uncover_row_cols_rows_loop_eq.
    pose proof (chain_last_prv _ _ _ _ _ (at3_chain Z [] (eq_sym (app_nil_r _))))
      as Elast.
    cbn [prv Hdir] in Elast. rewrite Elast. clear Elast.
    rewrite (back_loop_run Hdir Node.column DLX.uncover_col_rows r Z
             (fun pre => (at3 pre).1.1) (B + B + 2)) with (pre := Z) (post := []);
      [|..|by rewrite app_nil_r|lia].
    + rewrite bind_Ok. exact E2.
    + intros pre x post f HZ Hf'. by destruct (at3_op pre x post f HZ Hf').
    + intros pre post HZ. by apply (at3_chain pre post).
    + done.
Qed.

(** What committing the row [r] leaves behind: the row is out of the row
    ring, and so is every row that has a node in one of its columns. *)
Lemma step_row_cols_rows_post :
  let k := step_row_cols_rows G r (s, HL, VL) in
  inv G (DLX.store k.1.1) k.1.2 k.2 ∧
  k.1.2 ⊆ HL ∧ k.2 ⊆ VL ∧ (r ∉ k.2) ∧
  (forall z y, z ∈ H0 G r -> z ∈ HL -> y ∈ V0 G (colf z) -> rowf y ∉ k.2) ∧
  (forall q, get Node.row (DLX.store k.1.1) q = rowf q) ∧
  (forall q, get Node.column (DLX.store k.1.1) q = colf q) ∧
  (forall q, get Node.name (DLX.store k.1.1) q = get Node.name (DLX.store s) q) ∧
  DLX.root k.1.1 = DLX.root s ∧
  (forall x, x ∈ HL -> x ∉ k.1.2 ->
             exists z, z ∈ H0 G r ∧ z ∈ HL ∧ (x = colf z ∨ x ∈ V0 G (colf z))).
Proof.
  intros k. unfold k. rewrite <- at3_all.
  destruct (at3_facts Z [] (eq_sym (app_nil_r _)))
    as (I1 & I2 & I3 & I4 & I5 & I6 & I7 & I8 & I9).
  split_and!; try done.
  - intros x Hx. apply I3 in Hx. unfold VL1 in Hx.
    by apply elem_of_difference in Hx as [? _].
  - intros Hin. apply I3 in Hin. unfold VL1 in Hin.
    apply elem_of_difference in Hin as [_ Hin]. apply Hin.
    apply elem_of_list_to_set. by left.
  - intros z y Hz HzL Hy. apply (I5 z y); [|done].
    by apply list_elem_of_filter.
  - intros x Hx Hx'. destruct (I4 x Hx Hx') as (z & Hz & Hc).
    apply Z_in in Hz as [Hz1 Hz2]. exists z. split_and!; [done|done|].
    destruct Hc as [?|[? _]]; [by left|by right].
Qed.

End level3.

(** * The freshly built matrix satisfies the invariant *)

Lemma nodes_H G k x : k ∈ Hheads G -> x ∈ k :: Hring0 G k -> x ∈ nodes G.
Proof.
  intros Hk Hx. unfold nodes. apply elem_of_list_to_set, elem_of_app. left.
  apply list_elem_of_bind. by exists k.
Qed.

Lemma nodes_V G k x : k ∈ Vheads G -> x ∈ k :: Vring0 G k -> x ∈ nodes G.
Proof.
  intros Hk Hx. unfold nodes. apply elem_of_list_to_set, elem_of_app. right.
  apply list_elem_of_bind. by exists k.
Qed.

Lemma filter_all {A} (P : A -> Prop) `{!forall x, Decision (P x)} (l : list A) :
  Forall P l -> filter P l = l.
Proof.
  induction 1 as [|x l Hx _ IH]; [done|].
  rewrite filter_cons, decide_True by done. by rewrite IH.
Qed.

Lemma fresh_inv G h : fresh_ok G h -> inv_top G h (nodes G) (nodes G).
Proof.
  intros (Hst & HH & HV).
  assert (HcV : forall c y, c ∈ cols0 G -> y ∈ V0 G c -> y ∈ nodes G).
  { intros c y Hc Hy. apply (nodes_V G c); [by apply col_Vhead|].
    rewrite (Vring0_col G h Hst) by done. by right. }
  assert (HrH : forall r z, r ∈ rows0 G -> z ∈ H0 G r -> z ∈ nodes G).
  { intros r z Hr Hz. apply (nodes_H G r); [by apply row_Hhead|].
    rewrite (Hring0_row G h Hst) by done. by right. }
  split; [split|].
  - done.
  - unfold rings. rewrite Forall_forall in HH |- *. intros k Hk.
    rewrite filter_all; [by apply HH|].
    apply Forall_forall. intros x Hx. apply (nodes_H G k); [done|by right].
  - unfold rings. rewrite Forall_forall in HV |- *. intros k Hk.
    rewrite filter_all; [by apply HV|].
    apply Forall_forall. intros x Hx. apply (nodes_V G k); [done|by right].
  - intros c y Hc _ Hy. destruct (cross_V G h Hst c y Hc Hy) as [Hr Hz].
    by apply (HrH (get Node.row h y)).
  - intros r z Hr _ Hz. destruct (cross_H G h Hst r z Hr Hz) as [Hc Hy].
    by apply (HcV (get Node.column h z)).
  - intros c y Hc _ Hy _. destruct (cross_V G h Hst c y Hc Hy) as [Hr Hz].
    apply (nodes_H G (get Node.row h y)); [by apply row_Hhead|by left].
  - intros r z Hr _ Hz _. destruct (cross_H G h Hst r z Hr Hz) as [Hc Hy].
    apply (nodes_V G (get Node.column h z)); [by apply col_Vhead|by left].
  - intros r z Hr _ Hz. by apply (HrH r).
Qed.

(** * One commitment keeps the top-level invariant *)

Section commit.
Context (G : geometry) (B : nat) (HB : bounded G B).
Context (s : DLX.t) (HL VL : gset ref) (r : ref).
Context (Hinv : inv_top G (DLX.store s) HL VL).
Context (Hr : r ∈ rows0 G) (HrL : r ∈ VL).

Let Hst : static G (DLX.store s) := inv_static _ _ _ _ (proj1 Hinv).

Lemma commit_post :
  let k := step_row_cols_rows G r (s, HL, VL) in
  inv_top G (DLX.store k.1.1) k.1.2 k.2 ∧
  k.2 ⊆ VL ∧
  (forall r', r' ∈ crossing G (DLX.store s) r -> r' ∉ k.2) ∧
  (forall q, get Node.row (DLX.store k.1.1) q = get Node.row (DLX.store s) q) ∧
  (forall q, get Node.column (DLX.store k.1.1) q
             = get Node.column (DLX.store s) q) ∧
  (forall q, get Node.name (DLX.store k.1.1) q = get Node.name (DLX.store s) q) ∧
  DLX.root k.1.1 = DLX.root s.
Proof.
  intros k. destruct Hinv as [Hi Htop].
  destruct (step_row_cols_rows_post G s HL VL r Hi Hr HrL)
    as (P1 & P2 & P3 & P4 & P5 & P6 & P7 & P8 & P9 & P10).
  fold k in P1, P2, P3, P4, P5, P6, P7, P8, P9, P10.
  split_and!; try done.
  - split; [done|]. intros r' z' Hr' Hr'L Hz'.
    assert (Hz'L : z' ∈ HL) by (apply (Htop r'); [done|by apply P3|done]).
    destruct (decide (z' ∈ k.1.2)) as [|Hn]; [done|exfalso].
    destruct (P10 z' Hz'L Hn) as (z & Hz & HzL & [E|E]).
    + destruct (cross_H G _ Hst r z Hr Hz) as [Hc _].
      by apply (rownode_not_col G _ Hst r' z' _ Hr' Hz' Hc).
    + apply (P5 z z' Hz HzL E).
      by rewrite (row_node G _ Hst r' z' Hr' Hz').
  - intros r' Hin. unfold crossing in Hin.
    apply list_elem_of_bind in Hin as (z & Hin & Hz).
    apply list_elem_of_bind in Hin as (y & Hin & Hy).
    apply list_elem_of_singleton in Hin as ->.
    apply (P5 z y); [done| |done]. by apply (Htop r).
Qed.

End commit.

(** * The scan for a row name *)

Section scan.
Context (G : geometry) (B : nat) (HB : bounded G B).
Context (s : DLX.t) (HL VL : gset ref).
Context (Hinv : inv_top G (DLX.store s) HL VL).
Context (Hroot : DLX.root s = g_root G).
Context (Hnamed : labelled G (DLX.store s)).

Let LR := filter (.∈ VL) (rows0 G).
Let Hst : static G (DLX.store s) := inv_static _ _ _ _ (proj1 Hinv).

Lemma LR_ring : ring Vdir (DLX.store s) (g_root G) LR.
Proof.
  pose proof (inv_rings_V _ _ _ _ (proj1 Hinv)) as H. unfold rings in H.
  rewrite Forall_forall in H. specialize (H _ (root_Vhead G)).
  by rewrite (Vring0_root G) in H.
Qed.

Lemma LR_length : length LR <= B.
Proof.
  etrans; [apply length_filter|].
  pose proof (bounded_V G B _ HB (root_Vhead G)) as Hb.
  by rewrite (Vring0_root G) in Hb.
Qed.

Lemma LR_in x : x ∈ LR -> x ∈ rows0 G ∧ x ∈ VL.
Proof. intros Hx. apply list_elem_of_filter in Hx. tauto. Qed.

Lemma scan_run name covers post : forall pre fuel,
  LR = pre ++ post -> length post + (B + B + B + 3) < fuel ->
  (Forall (fun x => get Node.name (DLX.store s) x <> Some name) post ∧
   TableModel.scan_loop fuel name (hd (g_root G) post) s covers
     = Ok (false, s, covers)) ∨
  (exists x, x ∈ post ∧ get Node.name (DLX.store s) x = Some name ∧
     TableModel.scan_loop fuel name (hd (g_root G) post) s covers
       = Ok (true, (step_row_cols_rows G x (s, HL, VL)).1.1, covers ++ [x])).
Proof.
  induction post as [|x post IH]; intros pre fuel HL' Hf.
  - left. split; [done|]. destruct fuel as [|fuel]; [lia|]. simpl.
    by rewrite decide_True.
  - destruct fuel as [|fuel]; [simpl in Hf; lia|]. simpl in Hf.
    assert (HxLR : x ∈ LR) by (rewrite HL'; apply elem_of_app; right; by left).
    destruct (LR_in x HxLR) as [Hx HxL].
    cbn [hd TableModel.scan_loop].
    rewrite decide_False.
    2:{ rewrite Hroot. by apply (row_not_root G _ Hst). }
    pose proof (proj1 Hnamed) as Hnm. rewrite Forall_forall in Hnm.
    destruct (Hnm x Hx) as [nm Enm].
    unfold DLX.attr_name. rewrite Enm, bind_Ok.
    destruct (decide (nm = name)) as [->|Hne].
    + right. exists x. split_and!; [by left|done|].
      destruct (run_cover_row_cols_rows G B HB s HL VL x (proj1 Hinv) Hx HxL fuel)
        as [E _]; [lia|].
      by rewrite E.
    + destruct LR_ring as [_ Hc]. rewrite HL' in Hc.
      apply chain_app in Hc as [_ Hc].
      apply chain_first in Hc. cbn [nxt Vdir] in Hc. rewrite Hc.
      destruct (IH (pre ++ [x]) fuel) as [[H1 H2]|(y & H1 & H2 & H3)].
      * by rewrite <- app_assoc.
      * lia.
      * left. split; [|done]. constructor; [|done]. rewrite Enm. congruence.
      * right. exists y. split_and!; [by right|done|done].
Qed.

(** The scan from the first row of the ring. *)
Lemma scan_top name covers fuel :
  B + B + B + B + 3 < fuel ->
  (Forall (fun x => get Node.name (DLX.store s) x <> Some name) LR ∧
   TableModel.scan_loop fuel name
     (get Node.down (DLX.store s) (DLX.root s)) s covers
     = Ok (false, s, covers)) ∨
  (exists x, x ∈ rows0 G ∧ x ∈ VL ∧ get Node.name (DLX.store s) x = Some name ∧
     TableModel.scan_loop fuel name
       (get Node.down (DLX.store s) (DLX.root s)) s covers
       = Ok (true, (step_row_cols_rows G x (s, HL, VL)).1.1, covers ++ [x])).
Proof.
  intros Hf. destruct LR_ring as [_ Hc].
  apply chain_first in Hc. cbn [nxt Vdir] in Hc. rewrite Hroot, Hc.
  pose proof LR_length as Hlen.
  destruct (scan_run name covers LR [] fuel eq_refl) as [?|(x & H1 & H2 & H3)];
    [lia|by left|].
  right. exists x. destruct (LR_in x H1). by split_and!.
Qed.

End scan.

(** * The pre-commitment pass *)

Lemma NoDup_fmap_eq {A B} (f : A -> B) (l : list A) x y :
  NoDup (f <$> l) -> x ∈ l -> y ∈ l -> f x = f y -> x = y.
Proof.
  intros Hnd Hx Hy E.
  apply list_elem_of_lookup in Hx as [i Hi].
  apply list_elem_of_lookup in Hy as [j Hj].
  assert (i = j); [|congruence].
  eapply NoDup_lookup; [exact Hnd|..].
  - rewrite list_lookup_fmap, Hi. done.
  - rewrite list_lookup_fmap, Hj. simpl. by rewrite E.
Qed.

Lemma crossing_ext G h h' r r' :
  (forall q, get Node.row h q = get Node.row h' q) ->
  (forall q, get Node.column h q = get Node.column h' q) ->
  r' ∈ crossing G h r -> r' ∈ crossing G h' r.
Proof.
  intros Hrow Hcol Hin. unfold crossing in *.
  apply list_elem_of_bind in Hin as (z & Hin & Hz).
  apply list_elem_of_bind in Hin as (y & Hin & Hy).
  apply list_elem_of_singleton in Hin as ->.
  apply list_elem_of_bind. exists z. split; [|done].
  apply list_elem_of_bind. exists y. rewrite <- Hcol. split; [|done].
  rewrite Hrow. by apply list_elem_of_singleton.
Qed.


Section precommit_level.
Context (G : geometry) (B : nat) (HB : bounded G B).
Context (fuel : nat) (Hfuel : B + B + B + B + 3 < fuel).
Context (ud : grid) (d0 : DLX.t).
Context (Hlab : labelled G (DLX.store d0)).

Let nm (i j : nat) : value :=
  TableModel.node_name (ud i j) (Z.of_nat i) (Z.of_nat j).
Let named (n : value) (r : ref) : Prop :=
  r ∈ rows0 G ∧ get Node.name (DLX.store d0) r = Some n.

Lemma named_inj k covers n r r' :
  in_commit G fuel d0 k covers -> named n r -> named n r' -> r = r'.
Proof.
  intros _ [Hr E] [Hr' E'].
  apply (NoDup_fmap_eq _ _ _ _ (proj2 Hlab) Hr Hr'). congruence.
Qed.

Lemma commit_in_commit s HL VL covers x :
  in_commit G fuel d0 (s, HL, VL) covers -> x ∈ rows0 G -> x ∈ VL ->
  let k := step_row_cols_rows G x (s, HL, VL) in
  in_commit G fuel d0 k (covers ++ [x]) ∧ k.2 ⊆ VL ∧
  (forall r', r' ∈ crossing G (DLX.store d0) x -> r' ∉ k.2).
Proof.
  intros (Hi & Hroot & Hundo & Hrow & Hcol & Hname) Hx HxL. cbn [fst snd] in *.
  pose proof (commit_post G s HL VL x Hi Hx HxL) as HP.
  destruct (run_cover_row_cols_rows G B HB s HL VL x (proj1 Hi) Hx HxL fuel)
    as [_ E]; [lia|].
  cbn zeta in *. set (k := step_row_cols_rows G x (s, HL, VL)) in *.
  destruct HP as (P1 & P2 & P3 & P4 & P5 & P6 & P7).
  split_and!; [split_and!|..].
  - done.
  - by rewrite P7.
  - rewrite rev_app_distr. simpl. by rewrite E, bind_Ok.
  - intros q. by rewrite P4.
  - intros q. by rewrite P5.
  - intros q. by rewrite P6.
  - done.
  - intros r' Hin. apply P3. eapply crossing_ext; [| |exact Hin]; done.
Qed.

Lemma precommit_run cells : forall k covers,
  in_commit G fuel d0 k covers ->
  exists found k' covers',
    TableModel.precommit fuel ud cells k.1.1 covers = Ok (found, k'.1.1, covers') ∧
    in_commit G fuel d0 k' covers' ∧ k'.2 ⊆ k.2 ∧
    (found = true ->
     (forall i j, (i, j) ∈ cells -> ud i j <> 0%Z ->
                  exists r, named (nm i j) r ∧ r ∈ k.2) ∧
     (forall l1 i1 j1 l2 i2 j2 l3,
        cells = l1 ++ (i1, j1) :: l2 ++ (i2, j2) :: l3 ->
        ud i1 j1 <> 0%Z -> ud i2 j2 <> 0%Z ->
        forall r1 r2, named (nm i1 j1) r1 -> named (nm i2 j2) r2 ->
                      r2 ∉ crossing G (DLX.store d0) r1)).
Proof.
  induction cells as [|[i j] cells IH]; intros k covers Hk.
  - exists true, k, covers. split_and!; [done..|]. intros _. split.
    + intros i j Hin. by apply elem_of_nil in Hin.
    + intros l1 i1 j1 l2 i2 j2 l3 E. by destruct l1.
  - cbn [TableModel.precommit].
    destruct (Z.eqb_spec (ud i j) 0) as [E0|E0].
    + destruct (IH k covers Hk) as (found & k' & covers' & H1 & H2 & H3 & H4).
      exists found, k', covers'. split_and!; [done..|]. intros Hf.
      destruct (H4 Hf) as [Q1 Q2]. split.
      * intros i' j' Hin Hne. apply elem_of_cons in Hin as [[= -> ->]|Hin]; [done|].
        by apply Q1.
      * intros l1 i1 j1 l2 i2 j2 l3 E. destruct l1 as [|c l1]; simpl in E.
        -- injection E as -> -> _. done.
        -- injection E as _ E. by apply (Q2 l1 i1 j1 l2 i2 j2 l3).
    + destruct k as [[s HL] VL]. cbn [fst snd] in *.
      pose proof Hk as (Hi & Hroot & Hundo & Hrow & Hcol & Hname).
      cbn [fst snd] in Hi, Hroot, Hundo, Hrow, Hcol, Hname.
      destruct (scan_top G B HB s HL VL Hi Hroot (labelled_ext G _ _ Hname Hlab)
                 (nm i j) covers fuel Hfuel)
        as [[Hno E]|(x & Hx & HxL & Hxn & E)]; fold (nm i j); rewrite E, bind_Ok.
      * exists false, (s, HL, VL), covers. split_and!; done.
      * destruct (commit_in_commit s HL VL covers x Hk Hx HxL) as (C1 & C2 & C3).
        destruct (IH _ _ C1) as (found & k' & covers' & H1 & H2 & H3 & H4).
        exists found, k', covers'. split_and!; [done|done|..].
        { etrans; [exact H3|exact C2]. }
        intros Hf. destruct (H4 Hf) as [Q1 Q2].
        assert (Hxnamed : named (nm i j) x).
        { split; [done|]. by rewrite <- Hname. }
        split.
        -- intros i' j' Hin Hne.
           apply elem_of_cons in Hin as [[= -> ->]|Hin].
           ++ by exists x.
           ++ destruct (Q1 i' j' Hin Hne) as (r & Hr & HrL).
              exists r. split; [done|]. by apply C2.
        -- intros l1 i1 j1 l2 i2 j2 l3 Ec. destruct l1 as [|c l1]; simpl in Ec.
           ++ injection Ec as -> -> Ec. intros _ Hne2 r1 r2 Hr1 Hr2 Hin.
              assert (r1 = x) as -> by (by eapply named_inj).
              destruct (Q1 i2 j2) as (r & Hr & HrL); [|done|].
              { rewrite Ec. apply elem_of_app. right. by left. }
              assert (r = r2) as -> by (eapply named_inj; [exact C1|done..]).
              by apply (C3 r2).
           ++ injection Ec as _ Ec. by apply (Q2 l1 i1 j1 l2 i2 j2 l3).
Qed.

End precommit_level.

(** * The Sudoku matrix *)

Lemma init_fresh m names :
  is_ok (DLX.init m names) = true -> DLX.init m names = Ok (fresh m names).
Proof. unfold fresh. by destruct (DLX.init m names). Qed.

Lemma Ok_inj {A} (a b : A) : Ok a = Ok b -> a = b.
Proof. by intros [= ->]. Qed.

Lemma table_init_eq ud sd :
  TableModel.init ud sd
  = (dlx ← DLX.init TableModel.sudoku_encoding.1 TableModel.sudoku_encoding.2;
     Ok (TableModel.mk ud sd dlx)).
Proof. unfold TableModel.init. by destruct TableModel.sudoku_encoding. Qed.

Lemma geometry_of_root fuel s : g_root (geometry_of fuel s) = DLX.root s.
Proof. reflexivity. Qed.

Lemma start_in_commit G fuel d :
  fresh_ok G (DLX.store d) -> DLX.root d = g_root G ->
  in_commit G fuel d (d, nodes G, nodes G) [].
Proof.
  intros Hf Hr. split_and!; try done. by apply fresh_inv.
Qed.

Lemma sudoku_check : sudoku_checked.
Proof.
  assert (H : fresh_okb sudoku_geometry (DLX.store sudoku_dlx) &&
              boundedb sudoku_geometry 729 &&
              same_row_crossb sudoku_geometry (DLX.store sudoku_dlx) &&
              labelledb sudoku_geometry (DLX.store sudoku_dlx) = true)
    by (vm_compute; reflexivity).
  apply andb_true_iff in H as [H H4].
  apply andb_true_iff in H as [H H3]. apply andb_true_iff in H as [H1 H2].
  apply fresh_okb_spec in H1. apply boundedb_spec in H2.
  apply same_row_crossb_spec in H3. apply labelledb_spec in H4.
  unfold sudoku_checked. split_and!; [|exact H1|exact H2|exact H3|exact H4].
  apply (fresh_is_ok _ _ sudoku_geometry sudoku_dlx); [| |exact H1].
  - unfold sudoku_dlx. exact eq_refl.
  - exact (geometry_of_root 1000 sudoku_dlx).
Qed.

Lemma init_sudoku_fields ud sd tm :
  TableModel.init ud sd = Ok tm ->
  TableModel._user_data tm = ud ∧ TableModel._dlx tm = sudoku_dlx.
Proof.
  rewrite table_init_eq.
  rewrite (init_fresh _ _ (proj1 sudoku_check)).
  rewrite bind_Ok. unfold sudoku_dlx.
  generalize (fresh TableModel.sudoku_encoding.1 TableModel.sudoku_encoding.2).
  intros d E. apply Ok_inj in E. by subst tm.
Qed.

Lemma init_sudoku_model ud sd : TableModel.init ud sd = Ok (sudoku_model ud sd).
Proof.
  rewrite table_init_eq.
  rewrite (init_fresh _ _ (proj1 sudoku_check)).
  rewrite bind_Ok. unfold sudoku_model, sudoku_dlx. exact eq_refl.
Qed.

Lemma sudoku_start fuel :
  in_commit sudoku_geometry fuel sudoku_dlx
            (sudoku_dlx, nodes sudoku_geometry, nodes sudoku_geometry) [].
Proof.
  apply start_in_commit.
  - exact (proj1 (proj2 sudoku_check)).
  - exact (eq_sym (geometry_of_root 1000 sudoku_dlx)).
Qed.

(** The pre-commitment pass on the fresh Sudoku matrix returns, and its
    commitments can be undone. *)
Lemma sudoku_precommit ud fuel :
  2920 <= fuel ->
  exists found k covers,
    TableModel.precommit fuel ud TableModel.all_cells sudoku_dlx []
      = Ok (found, k.1.1, covers) ∧
    in_commit sudoku_geometry fuel sudoku_dlx k covers ∧
    (found = true ->
     (forall i j, (i, j) ∈ TableModel.all_cells -> ud i j <> 0%Z ->
        exists r, (r ∈ rows0 sudoku_geometry ∧
                   get Node.name (DLX.store sudoku_dlx) r
                   = Some (TableModel.node_name (ud i j) (Z.of_nat i) (Z.of_nat j)))) ∧
     (forall l1 i1 j1 l2 i2 j2 l3,
        TableModel.all_cells = l1 ++ (i1, j1) :: l2 ++ (i2, j2) :: l3 ->
        ud i1 j1 <> 0%Z -> ud i2 j2 <> 0%Z ->
        forall r1 r2,
          r1 ∈ rows0 sudoku_geometry ->
          get Node.name (DLX.store sudoku_dlx) r1
            = Some (TableModel.node_name (ud i1 j1) (Z.of_nat i1) (Z.of_nat j1)) ->
          r2 ∈ rows0 sudoku_geometry ->
          get Node.name (DLX.store sudoku_dlx) r2
            = Some (TableModel.node_name (ud i2 j2) (Z.of_nat i2) (Z.of_nat j2)) ->
          r2 ∉ crossing sudoku_geometry (DLX.store sudoku_dlx) r1)).
Proof.
  intros Hf. pose proof sudoku_check as (_ & _ & Hb & _ & Hlab).
  assert (Hf' : 729 + 729 + 729 + 729 + 3 < fuel) by lia.
  generalize (precommit_run sudoku_geometry 729 Hb fuel Hf' ud sudoku_dlx Hlab
                TableModel.all_cells _ [] (sudoku_start fuel)).
  generalize sudoku_geometry sudoku_dlx. intros G d.
  intros (found & k & covers & H1 & H2 & _ & H4).
  exists found, k, covers. split; [exact H1|]. split; [exact H2|].
  intros Hfound. destruct (H4 Hfound) as [Q1 Q2]. split.
  - intros i j Hin Hne. destruct (Q1 i j Hin Hne) as (r & [? ?] & _). by exists r.
  - intros l1 i1 j1 l2 i2 j2 l3 E Hn1 Hn2 r1 r2 ? ? ? ?.
    by apply (Q2 l1 i1 j1 l2 i2 j2 l3 E Hn1 Hn2).
Qed.

(** What [TableModel.solve] returns when the pre-commitment pass fails. *)
Lemma solve_not_found fuel ud sd d0 d covers :
  TableModel.precommit fuel ud TableModel.all_cells d0 [] = Ok (false, d, covers) ->
  TableModel.undo fuel (rev covers) d = Ok d0 ->
  TableModel.solve fuel (TableModel.mk ud sd d0)
    = Ok (TableModel.mk ud ud d0, Some (InconsistentInputs "Inconsistent!")).
Proof.
  intros E1 E2. unfold TableModel.solve. cbn [TableModel._user_data TableModel._dlx].
  rewrite E1, bind_Ok. cbn iota beta. rewrite bind_Ok. cbn iota beta.
  by rewrite E2, bind_Ok.
Qed.




(** * [TableModel.solve] *)

Lemma found_flag fuel ud d0 found d covers :
  TableModel.precommit fuel ud TableModel.all_cells d0 [] = Ok (found, d, covers) ->
  precommit_found fuel ud d0 = Ok found.
Proof. intros E. unfold precommit_found. by rewrite E, bind_Ok. Qed.


(** On the fresh Sudoku matrix, a pre-commitment pass that fails is
    undone by the [finally] block. *)
Lemma sudoku_not_found ud sd fuel d covers :
  2920 <= fuel ->
  TableModel.precommit fuel ud TableModel.all_cells sudoku_dlx []
    = Ok (false, d, covers) ->
  TableModel.undo fuel (rev covers) d = Ok sudoku_dlx ∧
  TableModel.solve fuel (TableModel.mk ud sd sudoku_dlx)
    = Ok (TableModel.mk ud ud sudoku_dlx,
          Some (InconsistentInputs "Inconsistent!")).
Proof.
  intros Hf E.
  destruct (sudoku_precommit ud fuel Hf) as (found' & k & covers' & E' & Hk & _).
  rewrite E in E'. apply Ok_inj in E'.
  assert (d = k.1.1) as -> by congruence.
  assert (covers = covers') as <- by congruence. clear E'.
  destruct Hk as (_ & _ & Hundo & _).
  revert E Hundo. generalize sudoku_dlx. intros d0 E Hundo.
  split; [exact Hundo|]. by apply (solve_not_found fuel ud sd d0 k.1.1 covers).
Qed.

Lemma sudoku_precommit_total ud fuel :
  2920 <= fuel ->
  exists found d covers,
    TableModel.precommit fuel ud TableModel.all_cells sudoku_dlx []
      = Ok (found, d, covers).
Proof.
  intros Hf.
  destruct (sudoku_precommit ud fuel Hf) as (found & k & covers & E & _).
  by exists found, k.1.1, covers.
Qed.

(** * The search on small matrices *)

(** C1.  On the matrix [[0,1,1],[1,0,1],[1,1,0]] with the labels a, b, c,
    [DLX.solve] returns the list [c, b]; the rows it names are the second
    and the third, and they cover the first column twice: the returned
    rows are not an exact cover. *)
Theorem solve_returns_overlapping_rows :
  solve_fresh 40 m_overlap abc = Ok (Some [VStr "c"; VStr "b"], true) /\
  named_rows abc [VStr "c"; VStr "b"] = [1%N; 2%N] /\
  cover_count m_overlap [1%N; 2%N] 0 = 2 /\
  ~ exact_cover m_overlap [1%N; 2%N].
Proof.
  split_and!; [vm_compute; reflexivity..|].
  intros (_ & _ & H). specialize (H 0%N eq_refl). vm_compute in H. discriminate.
Qed.

Lemma overlap_count sel :
  (forall i, i ∈ sel -> (i < 3)%N) ->
  cover_count m_overlap sel 0 + cover_count m_overlap sel 1
  + cover_count m_overlap sel 2 = 2 * length sel.
Proof.
  induction sel as [|i sel IH]; intros Hi; [done|].
  assert (Hi' : (i < 3)%N) by (apply Hi; by left).
  assert (IH' := IH (fun j Hj => Hi j (proj2 (elem_of_cons _ _ _) (or_intror Hj)))).
  unfold cover_count in *. cbn [List.filter length].
  assert (i = 0 \/ i = 1 \/ i = 2)%N as [->|[->| ->]] by lia;
    change (item m_overlap 0 0) with false; change (item m_overlap 0 1) with true;
    change (item m_overlap 0 2) with true; change (item m_overlap 1 0) with true;
    change (item m_overlap 1 1) with false; change (item m_overlap 1 2) with true;
    change (item m_overlap 2 0) with true; change (item m_overlap 2 1) with true;
    change (item m_overlap 2 2) with false; cbn [length]; lia.
Qed.

Lemma overlap_no_cover sel : ~ exact_cover m_overlap sel.
Proof.
  intros (_ & Hi & Hc).
  pose proof (overlap_count sel Hi) as Hs.
  rewrite (Hc 0%N eq_refl), (Hc 1%N eq_refl), (Hc 2%N eq_refl) in Hs. lia.
Qed.

Lemma missed_cover : exact_cover m_missed [1%N].
Proof.
  split; [|split].
  - apply NoDup_singleton.
  - intros i Hi. apply list_elem_of_singleton in Hi. by subst.
  - intros j Hj. change (shape1 m_missed) with 3%N in Hj.
    assert (j = 0 \/ j = 1 \/ j = 2)%N as [->|[->| ->]] by lia; reflexivity.
Qed.

(** C2.  [DLX.solve] returns [None] on the matrix [[1,1,0],[1,1,1],[1,0,1]]
    although its second row alone is an exact cover, and it returns a list
    on the matrix [[0,1,1],[1,0,1],[1,1,0]], which has no exact cover. *)
Theorem solve_none_is_not_no_cover :
  (solve_fresh 40 m_missed abc = Ok (None, false) /\ exact_cover m_missed [1%N]) /\
  (solve_fresh 40 m_overlap abc = Ok (Some [VStr "c"; VStr "b"], true) /\
   forall sel, ~ exact_cover m_overlap sel).
Proof.
  split_and!.
  - vm_compute. reflexivity.
  - exact missed_cover.
  - vm_compute. reflexivity.
  - exact overlap_no_cover.
Qed.

(** C4.  After [DLX.solve] has returned the solution [a] on the matrix
    [[1,1],[1,1]], some node has a link it did not have before the call;
    the same holds after it has returned [None] on the matrix
    [[1,1,0],[1,1,1],[1,0,1]]. *)
Theorem solve_leaves_links_changed :
  solve_fresh 40 m_ones ab = Ok (Some [VStr "a"], false) /\
  solve_fresh 40 m_missed abc = Ok (None, false).
Proof. split; vm_compute; reflexivity. Qed.

(** C5.  After [cover_row] of the only row of the matrix [[1]], the column
    still has [size] 1 and no value node; and in the state in which the
    first recursive call of [DLX.solve] picks its column on the matrix
    [[1,0,0],[1,0,1],[0,1,0],[0,1,0],[0,0,1]], the last column has [size]
    2 and one value node. *)
Theorem size_is_not_the_live_count :
  (s ← DLX.init m_one [VStr "a"];
   s ← DLX.cover_row 20 3%positive s;
   column_report 20 s) = Ok [(2%positive, Some 1%Z, 0)] /\
  (s ← DLX.init m_stale abcde;
   s ← first_branch 20 s;
   column_report 20 s)
  = Ok [(3%positive, Some 2%Z, 2); (4%positive, Some 2%Z, 1)].
Proof. split; vm_compute; reflexivity. Qed.

(** C6.  In the state in which the first recursive call of [DLX.solve]
    picks its column on the matrix
    [[1,0,0],[1,0,1],[0,1,0],[0,1,0],[0,0,1]], the column picked is the
    second one, which has two value nodes left, although the third one has
    only one left. *)
Theorem choose_not_the_fewest_nodes :
  (s ← DLX.init m_stale abcde;
   s ← first_branch 20 s;
   c ← DLX.choose 20 s;
   l3 ← live_nodes 20 (DLX.store s) 3%positive;
   l4 ← live_nodes 20 (DLX.store s) 4%positive;
   Ok (c, length l3, length l4)) = Ok (3%positive, 2, 1).
Proof. vm_compute. reflexivity. Qed.

(** C10.  With the label 0, the empty string or [None] on the only row of
    the matrix [[1]], [DLX.solve] raises [AttributeError] where it reads
    the name of the row; with the label 7 it returns the list [7]. *)
Theorem falsy_label_raises :
  solve_fresh 40 m_one [VInt 0] = Raise (AttributeError "name") /\
  solve_fresh 40 m_one [VStr EmptyString] = Raise (AttributeError "name") /\
  solve_fresh 40 m_one [VNone] = Raise (AttributeError "name") /\
  solve_fresh 40 m_one [VInt 7] = Ok (Some [VInt 7], true).
Proof. split_and!; vm_compute; reflexivity. Qed.

(** * [TableModel.solve] on the Sudoku matrix *)

(** C7 as stated fails: a board on which the pre-commitment pass fails
    and a board on which the search fails end with the same exception,
    [InconsistentInputs('Inconsistent!')]. *)
Lemma failure_kinds_not_distinguished :
  solve_report 3000 board_twice
  = Ok {| all_found := false; committed := 1; search := None;
          caught := Some (InconsistentInputs "Inconsistent!");
          restored := true |} /\
  solve_report 3000 board_stuck
  = Ok {| all_found := true; committed := 9; search := Some None;
          caught := Some (InconsistentInputs "Inconsistent!");
          restored := true |}.
Proof. split; vm_compute; reflexivity. Qed.

(** [TableModel.solve] is its [try] block followed by the [finally]
    block; the exception it has caught is the one the [try] block
    raised. *)
Lemma solve_try_finally (fuel : nat) (tm : TableModel.t) :
  TableModel.solve fuel tm
  = ('(dlx, solver_data, covers, raised) ← TableModel.try_block fuel tm;
     dlx ← TableModel.undo fuel (rev covers) dlx;
     Ok (TableModel.mk (TableModel._user_data tm) solver_data dlx, raised)).
Proof.
  unfold TableModel.solve, TableModel.try_block.
  destruct (TableModel.precommit _ _ _ _ _) as [[[found d] covers]| |];
    [|done..].
  rewrite !bind_Ok. cbn iota beta.
  destruct found; [|reflexivity].
  destruct (DLX.solve fuel d) as [[[sol|] d']| |]; [| |done..];
    rewrite !bind_Ok; cbn iota beta; [|reflexivity].
  destruct (TableModel.write_solution _ _) as [g| |]; [|done..].
  reflexivity.
Qed.

(** C7, amended.  The two kinds of failure are the same condition: when
    the pre-commitment pass does not find a given, and likewise when it
    finds all of them and the search returns [None], the [try] block of
    [TableModel.solve] raises [InconsistentInputs('Inconsistent!')], and
    this is the exception [solve] has caught whenever it returns. *)
Theorem failure_kinds_raise_the_same
        (fuel : nat) (tm : TableModel.t) (o : outcome) :
  outcome_of fuel tm = Ok o ->
  o = NotFound \/ o = NoSolution ->
  raised_by fuel tm = Ok (Some (InconsistentInputs "Inconsistent!")) /\
  (forall e, caught_by fuel tm = Ok e ->
             e = Some (InconsistentInputs "Inconsistent!")).
Proof.
  intros Ho Hfail.
  assert (Hr : raised_by fuel tm = Ok (Some (InconsistentInputs "Inconsistent!"))).
  { revert Ho. unfold outcome_of, raised_by, TableModel.try_block.
    destruct (TableModel.precommit _ _ _ _ _) as [[[found d] covers]| |];
      [|done..].
    rewrite !bind_Ok. cbn iota beta.
    destruct found; [|intros _; reflexivity].
    destruct (DLX.solve fuel d) as [[[sol|] d']| |]; [| |done..];
      rewrite !bind_Ok; cbn iota beta; [|intros _; reflexivity].
    intros E. apply Ok_inj in E. subst o. by destruct Hfail. }
  split; [exact Hr|].
  intros e. revert Hr. unfold caught_by, raised_by.
  rewrite solve_try_finally.
  destruct (TableModel.try_block fuel tm) as [[[[d g] covers] raised]| |];
    [|done..].
  rewrite !bind_Ok. cbn iota beta. intros Hr. apply Ok_inj in Hr. subst raised.
  destruct (TableModel.undo _ _ _) as [d'| |]; [|done..].
  rewrite !bind_Ok. cbn iota beta. intros E. apply Ok_inj in E. by subst e.
Qed.

Lemma failure_kinds_raise_the_same_witness :
  raised_by 3000 (sudoku_model board_twice empty_grid)
    = Ok (Some (InconsistentInputs "Inconsistent!")) /\
  raised_by 3000 (sudoku_model board_stuck empty_grid)
    = Ok (Some (InconsistentInputs "Inconsistent!")).
Proof.
  split.
  - apply (failure_kinds_raise_the_same
             3000 (sudoku_model board_twice empty_grid) NotFound).
    + vm_compute. reflexivity.
    + left. reflexivity.
  - apply (failure_kinds_raise_the_same
             3000 (sudoku_model board_stuck empty_grid) NoSolution).
    + vm_compute. reflexivity.
    + right. reflexivity.
Defined.




(** C9 as stated fails: with the digit 5 in the first two cells of the
    first board row, the message box is shown while the list [covers]
    holds one commitment and the links are not those of the matrix before
    the call; the [finally] block runs after the handler. *)
Lemma report_before_undo :
  report_state 3000 (sudoku_model board_twice empty_grid) = Ok (Some (1, false)).
Proof. vm_compute. reflexivity. Qed.

(** C9, amended.  On the model built by [TableModel.__init__], for every
    board: if the pre-commitment pass does not find one of the givens,
    the handler shows its message box on the matrix as the pass left it,
    with the rows committed so far still covered; undoing these rows
    afterwards, from the last to the first, gives back exactly the matrix
    the pass started from, and [solve] returns with that matrix and the
    exception [InconsistentInputs]. *)
Theorem precommit_failure_undone_on_return
        (ud sd : grid) (tm : TableModel.t) (fuel : nat) :
  TableModel.init ud sd = Ok tm ->
  2920 <= fuel ->
  precommit_found fuel ud (TableModel._dlx tm) = Ok false ->
  exists d covers,
    TableModel.precommit fuel ud TableModel.all_cells (TableModel._dlx tm) []
      = Ok (false, d, covers) /\
    TableModel.at_report fuel tm
      = Ok (Some (InconsistentInputs "Inconsistent!", d)) /\
    TableModel.undo fuel (rev covers) d = Ok (TableModel._dlx tm) /\
    TableModel.solve fuel tm
      = Ok (TableModel.mk ud ud (TableModel._dlx tm),
            Some (InconsistentInputs "Inconsistent!")).
Proof.
  intros Hinit Hf Hfound.
  destruct (init_sudoku_fields ud sd tm Hinit) as [Hu Hd].
  destruct tm as [u s d0]. cbn [TableModel._dlx TableModel._user_data] in *.
  subst u d0.
  destruct (sudoku_precommit_total ud fuel Hf) as (found & d & covers & E).
  rewrite (found_flag _ _ _ _ _ _ E) in Hfound. apply Ok_inj in Hfound. subst found.
  exists d, covers. split; [exact E|]. split.
  - unfold TableModel.at_report, TableModel.try_block.
    cbn [TableModel._dlx TableModel._user_data].
    rewrite E, !bind_Ok. exact eq_refl.
  - by apply sudoku_not_found.
Qed.

Lemma precommit_failure_undone_on_return_witness :
  exists d covers,
    TableModel.precommit 2920 board_twice TableModel.all_cells
      (TableModel._dlx (sudoku_model board_twice empty_grid)) []
      = Ok (false, d, covers) /\
    TableModel.at_report 2920 (sudoku_model board_twice empty_grid)
      = Ok (Some (InconsistentInputs "Inconsistent!", d)) /\
    TableModel.undo 2920 (rev covers) d
      = Ok (TableModel._dlx (sudoku_model board_twice empty_grid)) /\
    TableModel.solve 2920 (sudoku_model board_twice empty_grid)
      = Ok (TableModel.mk board_twice board_twice
              (TableModel._dlx (sudoku_model board_twice empty_grid)),
            Some (InconsistentInputs "Inconsistent!")).
Proof.
  apply (precommit_failure_undone_on_return
           board_twice empty_grid (sudoku_model board_twice empty_grid) 2920).
  - apply init_sudoku_model.
  - lia.
  - vm_compute. reflexivity.
Defined.

(** * Round trips of the composite cover operations *)

(** Let a matrix be described by [inv]: each ring is closed and holds,
    in the order of construction, the nodes built into it that are in
    the set [HL] (for a row and for the ring of the column headers) or
    [VL] (for a column and for the ring of the row headers); the [row]
    and [column] attributes of a node name the headers of the row and of
    the column it was built into, and a row meets a column in at most
    one node; the nodes of a column of the column
    ring are in [HL], those of a row of the row ring are in [VL]; and a
    node that is in [VL] and in a column of the column ring belongs to a
    row of the row ring, and the other way round.  Nothing is asked of
    the labels.  Then, for a column [c] that is in the column ring,
    [cover_col_rows(c)] followed by [uncover_col_rows(c)] returns and
    gives back the very same object. *)
Theorem cover_col_rows_then_uncover
        (G : geometry) (B : nat) (s : DLX.t) (HL VL : gset ref) (c : ref)
        (fuel : nat) :
  bounded G B -> inv G (DLX.store s) HL VL ->
  c ∈ cols0 G -> c ∈ HL -> B + B + 2 <= fuel ->
  exists s1, DLX.cover_col_rows fuel c s = Ok s1 /\
             DLX.uncover_col_rows fuel c s1 = Ok s.
Proof.
  intros HB Hinv Hc HcL Hf.
  destruct (run_cover_col_rows G B HB s HL VL c Hinv Hc HcL fuel Hf) as [E1 E2].
  eauto.
Qed.

Lemma small_fresh_ok :
  fresh_ok (geometry_of 10 (fresh m_two aa)) (DLX.store (fresh m_two aa)).
Proof. apply fresh_okb_spec. vm_compute. reflexivity. Qed.

Lemma small_bounded : bounded (geometry_of 10 (fresh m_two aa)) 3.
Proof. apply boundedb_spec. vm_compute. reflexivity. Qed.

Lemma nodes_memb G x :
  memb x ((k ← Hheads G; k :: Hring0 G k) ++ (k ← Vheads G; k :: Vring0 G k)) = true ->
  x ∈ nodes G.
Proof. intros H. apply elem_of_list_to_set. by apply memb_spec. Qed.

Lemma cover_col_rows_then_uncover_witness :
  exists s1, DLX.cover_col_rows 8 2%positive (fresh m_two aa) = Ok s1 /\
             DLX.uncover_col_rows 8 2%positive s1 = Ok (fresh m_two aa).
Proof.
  apply (cover_col_rows_then_uncover
           (geometry_of 10 (fresh m_two aa)) 3 (fresh m_two aa)
           (nodes (geometry_of 10 (fresh m_two aa)))
           (nodes (geometry_of 10 (fresh m_two aa)))).
  - exact small_bounded.
  - exact (proj1 (fresh_inv _ _ small_fresh_ok)).
  - apply memb_spec. vm_compute. reflexivity.
  - apply nodes_memb. vm_compute. reflexivity.
  - lia.
Defined.

(** In a state described by [inv] (closed rings holding the nodes of
    [HL] and [VL], with the conditions above and nothing asked of the
    labels), for a row [r] that is in the row ring,
    [cover_row_cols_rows(r)] followed by [uncover_row_cols_rows(r)]
    returns and gives back the very same object. *)
Theorem cover_row_cols_rows_then_uncover
        (G : geometry) (B : nat) (s : DLX.t) (HL VL : gset ref) (r : ref)
        (fuel : nat) :
  bounded G B -> inv G (DLX.store s) HL VL ->
  r ∈ rows0 G -> r ∈ VL -> B + B + B + 3 <= fuel ->
  exists s1, DLX.cover_row_cols_rows fuel r s = Ok s1 /\
             DLX.uncover_row_cols_rows fuel r s1 = Ok s.
Proof.
  intros HB Hinv Hr HrL Hf.
  destruct (run_cover_row_cols_rows G B HB s HL VL r Hinv Hr HrL fuel Hf)
    as [E1 E2].
  eauto.
Qed.

Lemma cover_row_cols_rows_then_uncover_witness :
  exists s1, DLX.cover_row_cols_rows 12 6%positive (fresh m_two aa) = Ok s1 /\
             DLX.uncover_row_cols_rows 12 6%positive s1 = Ok (fresh m_two aa).
Proof.
  apply (cover_row_cols_rows_then_uncover
           (geometry_of 10 (fresh m_two aa)) 3 (fresh m_two aa)
           (nodes (geometry_of 10 (fresh m_two aa)))
           (nodes (geometry_of 10 (fresh m_two aa)))).
  - exact small_bounded.
  - exact (proj1 (fresh_inv _ _ small_fresh_ok)).
  - apply memb_spec. vm_compute. reflexivity.
  - apply nodes_memb. vm_compute. reflexivity.
  - lia.
Defined.

(** Committing a row: in a state described by [inv_top], that is by
    [inv] with every node of a row of the row ring linked into that row,
    and for a row [r] of the row ring, [cover_row_cols_rows(r)] returns a
    state described by [inv_top] again, whose row ring is closed, is a
    part of the former one and holds neither [r] nor any row that has a
    node in a column of [r]. *)
Theorem cover_row_cols_rows_removes_crossing_rows
        (G : geometry) (B : nat) (s : DLX.t) (HL VL : gset ref) (r : ref)
        (fuel : nat) :
  bounded G B -> inv_top G (DLX.store s) HL VL ->
  r ∈ rows0 G -> r ∈ VL -> B + B + B + 3 <= fuel ->
  exists s1 HL' VL',
    DLX.cover_row_cols_rows fuel r s = Ok s1 /\
    inv_top G (DLX.store s1) HL' VL' /\
    ring Vdir (DLX.store s1) (g_root G) (filter (.∈ VL') (rows0 G)) /\
    VL' ⊆ VL /\ (r ∉ VL') /\
    (forall r', r' ∈ crossing G (DLX.store s) r -> r' ∉ VL').
Proof.
  intros HB Hinv Hr HrL Hf.
  destruct (run_cover_row_cols_rows G B HB s HL VL r (proj1 Hinv) Hr HrL fuel Hf)
    as [E1 _].
  pose proof (commit_post G s HL VL r Hinv Hr HrL) as HP.
  pose proof (step_row_cols_rows_post G s HL VL r (proj1 Hinv) Hr HrL) as HQ.
  cbn zeta in HP, HQ.
  destruct (step_row_cols_rows G r (s, HL, VL)) as [[s1 HL'] VL'].
  cbn [fst snd] in *.
  destruct HP as (P1 & P2 & P3 & _).
  destruct HQ as (_ & _ & _ & Q4 & _).
  exists s1, HL', VL'. split_and!; try done.
  pose proof (inv_rings_V _ _ _ _ (proj1 P1)) as HV. unfold rings in HV.
  rewrite Forall_forall in HV. specialize (HV _ (root_Vhead G)).
  by rewrite (Vring0_root G) in HV.
Qed.

Lemma cover_row_cols_rows_removes_crossing_rows_witness :
  exists s1 HL' VL',
    DLX.cover_row_cols_rows 12 4%positive (fresh m_two aa) = Ok s1 /\
    inv_top (geometry_of 10 (fresh m_two aa)) (DLX.store s1) HL' VL' /\
    ring Vdir (DLX.store s1) (g_root (geometry_of 10 (fresh m_two aa)))
         (filter (.∈ VL') (rows0 (geometry_of 10 (fresh m_two aa)))) /\
    VL' ⊆ nodes (geometry_of 10 (fresh m_two aa)) /\ (4%positive ∉ VL') /\
    (forall r', r' ∈ crossing (geometry_of 10 (fresh m_two aa))
                              (DLX.store (fresh m_two aa)) 4%positive ->
                r' ∉ VL').
Proof.
  apply (cover_row_cols_rows_removes_crossing_rows
           (geometry_of 10 (fresh m_two aa)) 3 (fresh m_two aa)
           (nodes (geometry_of 10 (fresh m_two aa)))
           (nodes (geometry_of 10 (fresh m_two aa)))).
  - exact small_bounded.
  - exact (fresh_inv _ _ small_fresh_ok).
  - apply memb_spec. vm_compute. reflexivity.
  - apply nodes_memb. vm_compute. reflexivity.
  - lia.
Defined.

(** * The pre-commitment pass on every board *)



(** * What the cover and uncover methods leave alone *)

Section frame_loops.
Context (w u : dir) `{!DirLaws u}.
Context {A : Type} (g : Node.t -> A) `{!Frame u g}.

Lemma cover_loop_frame fuel stop x h h' q :
cover_loop w u fuel stop x h = Ok h' -> get g h' q = get g h q.
Proof.
revert x h. induction fuel as [|fuel IH]; intros x h; [done|].
simpl. case_decide.
- intros [= <-]. apply (get_frame_unlink u g).
- intros E. rewrite (IH _ _ E). apply (get_frame_unlink u g).
Qed.

Lemma uncover_loop_frame fuel stop x h h' q :
uncover_loop w u fuel stop x h = Ok h' -> get g h' q = get g h q.
Proof.
revert x h. induction fuel as [|fuel IH]; intros x h; [done|].
simpl. case_decide.
- intros [= <-]. apply (get_frame_relink u g).
- intros E. rewrite (IH _ _ E). apply (get_frame_relink u g).
Qed.

End frame_loops.

Lemma same_fixed_refl s : same_fixed s s.
Proof. by split. Qed.

Lemma same_fixed_trans s1 s2 s3 :
  same_fixed s1 s2 -> same_fixed s2 s3 -> same_fixed s1 s3.
Proof.
  intros [R1 H1] [R2 H2]. split; [congruence|]. intros q.
  destruct (H1 q) as (?&?&?&?), (H2 q) as (?&?&?&?). split_and!; congruence.
Qed.

Lemma cover_col_fixed fuel c s s' : DLX.cover_col fuel c s = Ok s' -> same_fixed s s'.
Proof.
  unfold DLX.cover_col. rewrite cover_col_loop_eq.
  destruct (cover_loop _ _ _ _ _ _) as [h| |] eqn:E; [|done..].
  rewrite bind_Ok. intros [= <-]. split; [done|]. intros q. simpl.
  split_and!; by apply (cover_loop_frame Vdir Hdir _ _ _ _ _ _ _ E).
Qed.

Lemma uncover_col_fixed fuel c s s' :
  DLX.uncover_col fuel c s = Ok s' -> same_fixed s s'.
Proof.
  unfold DLX.uncover_col. rewrite uncover_col_loop_eq.
  destruct (uncover_loop _ _ _ _ _ _) as [h| |] eqn:E; [|done..].
  rewrite bind_Ok. intros [= <-]. split; [done|]. intros q. simpl.
  split_and!; by apply (uncover_loop_frame Vdir Hdir _ _ _ _ _ _ _ E).
Qed.

Lemma cover_row_fixed fuel r s s' : DLX.cover_row fuel r s = Ok s' -> same_fixed s s'.
Proof.
  unfold DLX.cover_row. rewrite cover_row_loop_eq.
  destruct (cover_loop _ _ _ _ _ _) as [h| |] eqn:E; [|done..].
  rewrite bind_Ok. intros [= <-]. split; [done|]. intros q. simpl.
  split_and!; by apply (cover_loop_frame Hdir Vdir _ _ _ _ _ _ _ E).
Qed.

Lemma uncover_row_fixed fuel r s s' :
  DLX.uncover_row fuel r s = Ok s' -> same_fixed s s'.
Proof.
  unfold DLX.uncover_row. rewrite uncover_row_loop_eq.
  destruct (uncover_loop _ _ _ _ _ _) as [h| |] eqn:E; [|done..].
  rewrite bind_Ok. intros [= <-]. split; [done|]. intros q. simpl.
  split_and!; by apply (uncover_loop_frame Hdir Vdir _ _ _ _ _ _ _ E).
Qed.

Section frame_walks.
Context (w : dir) (key : Node.t -> ref) (op : nat -> ref -> DLX.t -> res DLX.t).
Context (Hop : forall fuel x s s', op fuel x s = Ok s' -> same_fixed s s').

Lemma walk_loop_fixed fuel stop x s s' :
walk_loop w key op fuel stop x s = Ok s' -> same_fixed s s'.
Proof.
revert x s. induction fuel as [|fuel IH]; intros x s; [done|].
simpl. case_decide.
- intros [= <-]. apply same_fixed_refl.
- destruct (op fuel _ s) as [s1| |] eqn:E; [|done..]. rewrite bind_Ok.
  intros E'. eapply same_fixed_trans; [by eapply Hop|by eapply IH].
Qed.

Lemma back_loop_fixed fuel stop x s s' :
back_loop w key op fuel stop x s = Ok s' -> same_fixed s s'.
Proof.
revert x s. induction fuel as [|fuel IH]; intros x s; [done|].
simpl. case_decide.
- intros [= <-]. apply same_fixed_refl.
- destruct (op fuel _ s) as [s1| |] eqn:E; [|done..]. rewrite bind_Ok.
  intros E'. eapply same_fixed_trans; [by eapply Hop|by eapply IH].
Qed.

End frame_walks.

Lemma cover_col_rows_fixed fuel c s s' :
  DLX.cover_col_rows fuel c s = Ok s' -> same_fixed s s'.
Proof.
  unfold DLX.cover_col_rows.
  destruct (DLX.cover_col fuel c s) as [s1| |] eqn:E; [|done..]. rewrite bind_Ok.
  rewrite cover_col_rows_loop_eq. intros E'.
  eapply same_fixed_trans; [by eapply cover_col_fixed|].
  eapply walk_loop_fixed; [|exact E']. apply cover_row_fixed.
Qed.

Lemma uncover_col_rows_fixed fuel c s s' :
  DLX.uncover_col_rows fuel c s = Ok s' -> same_fixed s s'.
Proof.
  unfold DLX.uncover_col_rows. rewrite uncover_col_rows_loop_eq.
  destruct (back_loop _ _ _ _ _ _ _) as [s1| |] eqn:E; [|done..]. rewrite bind_Ok.
  intros E'. eapply same_fixed_trans; [|by eapply uncover_col_fixed].
  eapply back_loop_fixed; [|exact E]. apply uncover_row_fixed.
Qed.

Lemma cover_row_cols_rows_fixed fuel r s s' :
  DLX.cover_row_cols_rows fuel r s = Ok s' -> same_fixed s s'.
Proof.
  unfold DLX.cover_row_cols_rows.
  destruct (DLX.cover_row fuel r s) as [s1| |] eqn:E; [|done..]. rewrite bind_Ok.
  rewrite cover_row_cols_rows_loop_eq. intros E'.
  eapply same_fixed_trans; [by eapply cover_row_fixed|].
  eapply walk_loop_fixed; [|exact E']. apply cover_col_rows_fixed.
Qed.

Lemma uncover_row_cols_rows_fixed fuel r s s' :
  DLX.uncover_row_cols_rows fuel r s = Ok s' -> same_fixed s s'.
Proof.
  unfold DLX.uncover_row_cols_rows. rewrite uncover_row_cols_rows_loop_eq.
  destruct (back_loop _ _ _ _ _ _ _) as [s1| |] eqn:E; [|done..]. rewrite bind_Ok.
  intros E'. eapply same_fixed_trans; [|by eapply uncover_row_fixed].
  eapply back_loop_fixed; [|exact E]. apply uncover_col_rows_fixed.
Qed.

(** None of the eight cover and uncover methods changes the root, or the
    [size], the [name], the [row] or the [column] of any node: in
    particular [size] keeps the value given by [__init__]. *)
Theorem cover_methods_keep_size_and_names
        (m : method) (fuel : nat) (node : ref) (s s' : DLX.t) :
  call m fuel node s = Ok s' -> same_fixed s s'.
Proof.
  destruct m; simpl.
  - apply cover_col_fixed.
  - apply uncover_col_fixed.
  - apply cover_row_fixed.
  - apply uncover_row_fixed.
  - apply cover_col_rows_fixed.
  - apply uncover_col_rows_fixed.
  - apply cover_row_cols_rows_fixed.
  - apply uncover_row_cols_rows_fixed.
Qed.

(** [cover_col] and [uncover_col] assign [left] and [right] only, and
    [cover_row] and [uncover_row] assign [up] and [down] only. *)
Theorem cover_col_keeps_vertical_links
        (fuel : nat) (node : ref) (s s' : DLX.t) :
  (DLX.cover_col fuel node s = Ok s' \/ DLX.uncover_col fuel node s = Ok s' ->
   DLX.rows s' = DLX.rows s /\
   forall q, get Node.up (DLX.store s') q = get Node.up (DLX.store s) q /\
             get Node.down (DLX.store s') q = get Node.down (DLX.store s) q) /\
  (DLX.cover_row fuel node s = Ok s' \/ DLX.uncover_row fuel node s = Ok s' ->
   DLX.cols s' = DLX.cols s /\
   forall q, get Node.left (DLX.store s') q = get Node.left (DLX.store s) q /\
             get Node.right (DLX.store s') q = get Node.right (DLX.store s) q).
Proof.
  split.
  - intros [E|E].
    + unfold DLX.cover_col in E. rewrite cover_col_loop_eq in E.
      destruct (cover_loop _ _ _ _ _ _) as [h| |] eqn:E1; [|done..].
      rewrite bind_Ok in E. injection E as <-. split; [done|]. intros q. simpl.
      split; by apply (cover_loop_frame Vdir Hdir _ _ _ _ _ _ _ E1).
    + unfold DLX.uncover_col in E. rewrite uncover_col_loop_eq in E.
      destruct (uncover_loop _ _ _ _ _ _) as [h| |] eqn:E1; [|done..].
      rewrite bind_Ok in E. injection E as <-. split; [done|]. intros q. simpl.
      split; by apply (uncover_loop_frame Vdir Hdir _ _ _ _ _ _ _ E1).
  - intros [E|E].
    + unfold DLX.cover_row in E. rewrite cover_row_loop_eq in E.
      destruct (cover_loop _ _ _ _ _ _) as [h| |] eqn:E1; [|done..].
      rewrite bind_Ok in E. injection E as <-. split; [done|]. intros q. simpl.
      split; by apply (cover_loop_frame Hdir Vdir _ _ _ _ _ _ _ E1).
    + unfold DLX.uncover_row in E. rewrite uncover_row_loop_eq in E.
      destruct (uncover_loop _ _ _ _ _ _) as [h| |] eqn:E1; [|done..].
      rewrite bind_Ok in E. injection E as <-. split; [done|]. intros q. simpl.
      split; by apply (uncover_loop_frame Hdir Vdir _ _ _ _ _ _ _ E1).
Qed.

Lemma cover_methods_keep_size_and_names_witness :
  exists s', call CoverRowColsRows 12 6%positive (fresh m_two ab) = Ok s' /\
             same_fixed (fresh m_two ab) s'.
Proof.
  eexists. split.
  - vm_compute. reflexivity.
  - apply (cover_methods_keep_size_and_names CoverRowColsRows 12 6%positive).
    vm_compute. reflexivity.
Defined.

Lemma cover_col_keeps_vertical_links_witness :
  exists s', DLX.cover_col 12 2%positive (fresh m_two ab) = Ok s' /\
    DLX.rows s' = DLX.rows (fresh m_two ab) /\
    forall q, get Node.up (DLX.store s') q
              = get Node.up (DLX.store (fresh m_two ab)) q /\
              get Node.down (DLX.store s') q
              = get Node.down (DLX.store (fresh m_two ab)) q.
Proof.
  eexists. split.
  - vm_compute. reflexivity.
  - apply (proj1 (cover_col_keeps_vertical_links 12 2%positive _ _)).
    left. vm_compute. reflexivity.
Defined.

(** * The choice of the column in [DLX.solve] *)

Section choice.
Context (h : heap) (root : ref) (cols : list ref) (sz : ref -> Z).
Context (Hring : ring Hdir h root cols).
Context (Hsz : forall c, c ∈ cols -> get Node.size h c = Some (sz c)).

Lemma choose_loop_run rest : forall pre c mid fuel,
cols = (pre ++ c :: mid) ++ rest ->
(forall x, x ∈ pre -> (sz c < sz x)%Z) ->
(forall x, x ∈ mid -> (sz c <= sz x)%Z) ->
length rest < fuel ->
exists pre' c' post',
  cols = pre' ++ c' :: post' /\
  DLX.choose_loop fuel h root (hd root rest) c = Ok c' /\
  (forall x, x ∈ pre' -> (sz c' < sz x)%Z) /\
  (forall x, x ∈ post' -> (sz c' <= sz x)%Z).
Proof.
induction rest as [|x rest IH]; intros pre c mid fuel Hcols Hpre Hmid Hf.
- destruct fuel as [|fuel]; [simpl in Hf; lia|].
  exists pre, c, mid. rewrite app_nil_r in Hcols.
  split_and!; [done| |done..]. simpl. by rewrite decide_True.
- destruct fuel as [|fuel]; [simpl in Hf; lia|]. simpl in Hf.
  destruct Hring as [Hnd Hch].
  assert (Hx : x ∈ cols).
  { rewrite Hcols. apply elem_of_app. right. by left. }
  assert (Hc : c ∈ cols).
  { rewrite Hcols. apply elem_of_app. left. apply elem_of_app. right. by left. }
  cbn [hd DLX.choose_loop]. rewrite decide_False.
  2:{ intros ->. apply NoDup_cons in Hnd as [Hnd _]. done. }
  unfold DLX.attr_size. rewrite (Hsz x Hx), (Hsz c Hc), !bind_Ok.
  assert (Hnext : get Node.right h x = hd root rest).
  { rewrite Hcols in Hch. apply chain_app in Hch as [_ Hch].
    by apply chain_first in Hch. }
  rewrite Hnext.
  destruct (Z.ltb_spec (sz x) (sz c)) as [Hlt|Hge].
  + apply (IH (pre ++ c :: mid) x []); [| | |lia].
    * rewrite Hcols. by rewrite <- !app_assoc.
    * intros y Hy. apply elem_of_app in Hy as [Hy|Hy].
      -- specialize (Hpre y Hy). lia.
      -- apply elem_of_cons in Hy as [->|Hy]; [done|].
         specialize (Hmid y Hy). lia.
    * intros y Hy. by apply elem_of_nil in Hy.
  + apply (IH pre c (mid ++ [x])); [| | |lia].
    * rewrite Hcols. rewrite <- !app_assoc. simpl. by rewrite <- !app_assoc.
    * done.
    * intros y Hy. apply elem_of_app in Hy as [Hy|Hy]; [by apply Hmid|].
      apply list_elem_of_singleton in Hy as ->. done.
Qed.

End choice.

(** The column picked by [DLX.solve]: when the column ring is closed and
    not empty and each of its columns has a [size], the loop returns the
    first column of the ring whose [size] is the smallest: the columns
    before it have a larger [size], the columns after it have no smaller
    one. *)
Theorem choose_first_smallest_size
        (s : DLX.t) (c0 : ref) (cols : list ref) (sz : ref -> Z) (fuel : nat) :
  ring Hdir (DLX.store s) (DLX.root s) (c0 :: cols) ->
  (forall c, c ∈ c0 :: cols -> get Node.size (DLX.store s) c = Some (sz c)) ->
  length (c0 :: cols) < fuel ->
  exists pre c post,
    c0 :: cols = pre ++ c :: post /\
    DLX.choose fuel s = Ok c /\
    (forall x, x ∈ pre -> (sz c < sz x)%Z) /\
    (forall x, x ∈ post -> (sz c <= sz x)%Z).
Proof.
  intros Hring Hsz Hf. unfold DLX.choose.
  pose proof (chain_first _ _ _ _ _ (proj2 Hring)) as Hfirst.
  cbn [nxt Hdir hd] in Hfirst. rewrite Hfirst.
  destruct fuel as [|fuel]; [simpl in Hf; lia|]. simpl in Hf.
  pose proof Hring as [Hnd Hch].
  assert (Hc0 : c0 ∈ c0 :: cols) by by left.
  cbn [DLX.choose_loop]. rewrite decide_False.
  2:{ intros ->. apply NoDup_cons in Hnd as [Hnd _]. done. }
  unfold DLX.attr_size. rewrite (Hsz c0 Hc0), !bind_Ok.
  rewrite Z.ltb_irrefl.
  assert (Hnext : get Node.right (DLX.store s) c0 = hd (DLX.root s) cols).
  { cbn [chain] in Hch. destruct Hch as (_ & _ & Hch). by apply chain_first in Hch. }
  rewrite Hnext.
  apply (choose_loop_run (DLX.store s) (DLX.root s) (c0 :: cols) sz Hring Hsz
           cols [] c0 []); [done| | |lia].
  - intros y Hy. by apply elem_of_nil in Hy.
  - intros y Hy. by apply elem_of_nil in Hy.
Qed.

(** A column without a candidate: when the column ring is closed and one
    of its columns has [size] 0, no [size] being negative, [DLX.solve]
    returns [None] and leaves the object as it is. *)
Theorem solve_none_when_a_column_is_empty
        (s : DLX.t) (c0 : ref) (cols : list ref) (sz : ref -> Z) (fuel : nat) :
  ring Hdir (DLX.store s) (DLX.root s) (c0 :: cols) ->
  (forall c, c ∈ c0 :: cols ->
             get Node.size (DLX.store s) c = Some (sz c) /\ (0 <= sz c)%Z) ->
  (exists c, c ∈ c0 :: cols /\ sz c = 0%Z) ->
  S (length (c0 :: cols)) < fuel ->
  DLX.solve fuel s = Ok (None, s).
Proof.
  intros Hring Hsz (z & Hz & Hz0) Hf.
  destruct fuel as [|fuel]; [lia|].
  destruct (choose_first_smallest_size s c0 cols sz fuel Hring)
    as (pre & c & post & Hcols & Hch & Hpre & Hpost); [|simpl in *; lia|].
  { intros x Hx. by destruct (Hsz x Hx). }
  assert (Hc : c ∈ c0 :: cols).
  { rewrite Hcols. apply elem_of_app. right. by left. }
  assert (Hc0 : sz c = 0%Z).
  { destruct (Hsz c Hc) as [_ Hge].
    rewrite Hcols in Hz. apply elem_of_app in Hz as [Hz|Hz].
    - specialize (Hpre z Hz). lia.
    - apply elem_of_cons in Hz as [->|Hz]; [done|]. specialize (Hpost z Hz). lia. }
  cbn [DLX.solve].
  pose proof (chain_first _ _ _ _ _ (proj2 Hring)) as Hfirst.
  cbn [nxt Hdir hd] in Hfirst. rewrite Hfirst.
  rewrite decide_False.
  2:{ intros ->. destruct Hring as [Hnd _]. apply NoDup_cons in Hnd as [Hnd _].
      apply Hnd. by left. }
  rewrite Hch, bind_Ok. unfold DLX.attr_size.
  rewrite (proj1 (Hsz c Hc)), bind_Ok, Hc0. reflexivity.
Qed.

Lemma choose_first_smallest_size_witness :
  exists pre c post,
    [2%positive; 3%positive] = pre ++ c :: post /\
    DLX.choose 5 (fresh m_two ab) = Ok c /\
    (forall x, x ∈ pre ->
       (size_of (DLX.store (fresh m_two ab)) c
        < size_of (DLX.store (fresh m_two ab)) x)%Z) /\
    (forall x, x ∈ post ->
       (size_of (DLX.store (fresh m_two ab)) c
        <= size_of (DLX.store (fresh m_two ab)) x)%Z).
Proof.
  apply (choose_first_smallest_size (fresh m_two ab) 2%positive [3%positive]
           (size_of (DLX.store (fresh m_two ab))) 5).
  - apply ringb_spec. vm_compute. reflexivity.
  - intros c Hc.
    apply elem_of_cons in Hc as [->|Hc]; [vm_compute; reflexivity|].
    apply list_elem_of_singleton in Hc as ->. vm_compute. reflexivity.
  - simpl. lia.
Defined.

Lemma solve_none_when_a_column_is_empty_witness :
  DLX.solve 5 (fresh m_gap [VStr "a"]) = Ok (None, fresh m_gap [VStr "a"]).
Proof.
  apply (solve_none_when_a_column_is_empty (fresh m_gap [VStr "a"])
           2%positive [3%positive]
           (size_of (DLX.store (fresh m_gap [VStr "a"]))) 5).
  - apply ringb_spec. vm_compute. reflexivity.
  - intros c Hc.
    apply elem_of_cons in Hc as [->|Hc]; [split; vm_compute; [reflexivity|discriminate]|].
    apply list_elem_of_singleton in Hc as ->.
    split; vm_compute; [reflexivity|discriminate].
  - exists 3%positive. split; [|vm_compute; reflexivity].
    apply memb_spec. vm_compute. reflexivity.
  - simpl. lia.
Defined.

(** * The Sudoku encoding *)

Lemma range_elem (n i : N) : (i < n)%N -> In i (range n).
Proof.
  intros Hi. unfold range. apply in_map_iff. exists (N.to_nat i).
  split; [apply N2Nat.id|]. apply in_seq. lia.
Qed.

Lemma forallb_range (f : N -> bool) (n i : N) :
  forallb f (range n) = true -> (i < n)%N -> f i = true.
Proof. intros H Hi. rewrite forallb_forall in H. apply H. by apply range_elem. Qed.

Lemma encoding_checkb_spec m names (v r c k : N) :
  encoding_checkb m names = true ->
  (v < 9)%N -> (r < 9)%N -> (c < 9)%N -> (k < 324)%N ->
  names !! N.to_nat (81 * v + 9 * r + c)
    = Some (TableModel.node_name (Z.of_N (v + 1)) (Z.of_N r) (Z.of_N c)) /\
  (item m (81 * v + 9 * r + c) k = true <-> In k (sudoku_ones v r c)).
Proof.
  intros H Hv Hr Hc Hk. unfold encoding_checkb in H.
  apply (forallb_range _ _ v) in H; [|done].
  apply (forallb_range _ _ r) in H; [|done].
  apply (forallb_range _ _ c) in H; [|done].
  cbv zeta in H. apply andb_true_iff in H as [H1 H2].
  apply name_eqb_spec in H1. split; [exact H1|].
  apply (forallb_range _ _ k) in H2; [|done].
  apply Bool.eqb_prop in H2. rewrite H2. rewrite existsb_exists. split.
  - intros (x & Hx & E). apply N.eqb_eq in E. by subst.
  - intros Hin. exists k. split; [done|]. apply N.eqb_refl.
Qed.

(** The matrix built by [TableModel.__init__] has 729 rows and 324
    columns; its row [81 v + 9 r + c] is named [(v + 1, (r, c))] and has a
    one in the column [k] exactly when [k] is one of the four constraints
    of this candidate. *)
Theorem sudoku_encoding_rows (v r c k : N) :
  (v < 9)%N -> (r < 9)%N -> (c < 9)%N -> (k < 324)%N ->
  shape0 TableModel.sudoku_encoding.1 = 729%N /\
  shape1 TableModel.sudoku_encoding.1 = 324%N /\
  TableModel.sudoku_encoding.2 !! N.to_nat (81 * v + 9 * r + c)
    = Some (TableModel.node_name (Z.of_N (v + 1)) (Z.of_N r) (Z.of_N c)) /\
  (item TableModel.sudoku_encoding.1 (81 * v + 9 * r + c) k = true
   <-> In k (sudoku_ones v r c)).
Proof.
  intros Hv Hr Hc Hk.
  assert (H : encoding_checkb TableModel.sudoku_encoding.1
                              TableModel.sudoku_encoding.2 = true)
    by (vm_compute; reflexivity).
  split; [vm_compute; reflexivity|]. split; [vm_compute; reflexivity|].
  exact (encoding_checkb_spec _ _ v r c k H Hv Hr Hc Hk).
Qed.

Lemma sudoku_encoding_rows_witness :
  shape0 TableModel.sudoku_encoding.1 = 729%N /\
  shape1 TableModel.sudoku_encoding.1 = 324%N /\
  TableModel.sudoku_encoding.2 !! N.to_nat (81 * 4 + 9 * 0 + 1)
    = Some (TableModel.node_name (Z.of_N (4 + 1)) (Z.of_N 0) (Z.of_N 1)) /\
  (item TableModel.sudoku_encoding.1 (81 * 4 + 9 * 0 + 1) 117 = true
   <-> In 117%N (sudoku_ones 4 0 1)).
Proof. apply (sudoku_encoding_rows 4 0 1 117); reflexivity. Defined.
